(** * Wordle Lab: feedback patterns, partitions and the exact expected-steps solvers

    Shallow embedding of the JavaScript sources of the repository:
    - [pattern]              : main.js, count-based feedback (UI part);
    - [patternFor]           : main.js (DP part), unnamed/part_000 and
                               dp_solver_2.js ([patternOf]): used-array feedback;
    - [patternFor_counts]    : unnamed/part_001 (first script): used array plus counts;
    - [partitionBy]          : the Map-building loop of [partitionByPattern] /
                               [partitionState] / the inline bucket loops;
    - [solveState]           : main.js exact hard-mode DP;
    - [solveTail]            : unnamed/part_000 exact DP with the bounded memo [memoStore];
    - [solveWithFixedRoot]   : unnamed/part_000 cost of a forced first guess;
    - [solveState_d2]        : dp_solver_2.js (first script) exact DP;
    - [solveState_p1], [expectedWithRoot] : unnamed/part_001 (last script);
    - [expectedGivenFirstGuess] : main.js cost of a forced first guess.

    JavaScript strings are [String.string]; [s[i]] is [String.get i s], whose
    [None] plays the role of [undefined].  Fixed-size arrays ([Array(5)]) are
    functions on [nat] updated pointwise.  JavaScript numbers in the solvers
    are modelled by exact rationals extended with [Infinity] (type [num]); a
    JavaScript [Map] is an association list kept in insertion order. *)

From Stdlib Require Import List String Ascii Bool Arith ZArith Lia QArith Qround Lqa Permutation Setoid Morphisms.
Import ListNotations.
Open Scope nat_scope.
Open Scope list_scope.

(* ------------------------------------------------------------------ *)
(** ** Generic helpers *)

(** Pointwise update of an array modelled as a function. *)
Definition upd {A : Type} (f : nat -> A) (i : nat) (x : A) : nat -> A :=
  fun j => if Nat.eqb j i then x else f j.

(** [===] on the result of string indexing (both [undefined] compare equal). *)
Definition opt_eqb (x y : option ascii) : bool :=
  match x, y with
  | Some a, Some b => Ascii.eqb a b
  | None, None => true
  | _, _ => false
  end.

(** A JS object used as a counter keyed by characters ([cnt[ch]||0]). *)
Definition cnt_t := option ascii -> nat.

Definition cnt_set (cnt : cnt_t) (k : option ascii) (v : nat) : cnt_t :=
  fun c => if opt_eqb c k then v else cnt c.

Definition join_res (res : nat -> ascii) : string :=
  string_of_list_ascii (map res (seq 0 5)).

Definition allCorrect : string := "22222".

(* ------------------------------------------------------------------ *)
(** ** main.js [pattern(guess, answer)]: count-based two-pass feedback *)

Definition pattern_pass1 (g a : string) (st : (nat -> ascii) * cnt_t) (i : nat)
  : (nat -> ascii) * cnt_t :=
  let '(res, cnt) := st in
  if opt_eqb (String.get i a) (String.get i g) then (upd res i "2"%char, cnt)
  else (res, cnt_set cnt (String.get i a) (cnt (String.get i a) + 1)).

Definition pattern_pass2 (g : string) (st : (nat -> ascii) * cnt_t) (i : nat)
  : (nat -> ascii) * cnt_t :=
  let '(res, cnt) := st in
  if Ascii.eqb (res i) "2"%char then (res, cnt)
  else
    let ch := String.get i g in
    if 0 <? cnt ch then (upd res i "1"%char, cnt_set cnt ch (cnt ch - 1))
    else (res, cnt).

Definition pattern (guess answer : string) : string :=
  let st1 := fold_left (pattern_pass1 guess answer) (seq 0 5)
               ((fun _ => "0"%char), (fun _ => 0)) in
  let st2 := fold_left (pattern_pass2 guess) (seq 0 5) st1 in
  join_res (fst st2).

(* ------------------------------------------------------------------ *)
(** ** [patternFor(guess, answer)]: used-array two-pass feedback
    (main.js DP part, unnamed/part_000, dp_solver_2.js [patternOf]) *)

Definition patternFor_pass1 (g a : string) (st : (nat -> ascii) * (nat -> bool)) (i : nat)
  : (nat -> ascii) * (nat -> bool) :=
  let '(res, used) := st in
  if opt_eqb (String.get i g) (String.get i a)
  then (upd res i "2"%char, upd used i true) else (res, used).

(** The inner [for (let j = 0; j < 5; j++)] loop with its [break]:
    the first unused position of the answer holding [ch]. *)
Fixpoint yellow_scan (a : string) (ch : option ascii) (used : nat -> bool) (js : list nat)
  : option nat :=
  match js with
  | [] => None
  | j :: js' =>
      if negb (used j) && opt_eqb (String.get j a) ch then Some j
      else yellow_scan a ch used js'
  end.

Definition patternFor_pass2 (g a : string) (st : (nat -> ascii) * (nat -> bool)) (i : nat)
  : (nat -> ascii) * (nat -> bool) :=
  let '(res, used) := st in
  if Ascii.eqb (res i) "2"%char then (res, used)
  else
    match yellow_scan a (String.get i g) used (seq 0 5) with
    | Some j => (upd res i "1"%char, upd used j true)
    | None => (res, used)
    end.

Definition patternFor (guess answer : string) : string :=
  let st1 := fold_left (patternFor_pass1 guess answer) (seq 0 5)
               ((fun _ => "0"%char), (fun _ => false)) in
  let st2 := fold_left (patternFor_pass2 guess answer) (seq 0 5) st1 in
  join_res (fst st2).

(* ------------------------------------------------------------------ *)
(** ** unnamed/part_001 (first script) [patternFor]: used array, then counts *)

Definition patternFor_counts_collect (a : string) (used : nat -> bool) (cnt : cnt_t) (i : nat)
  : cnt_t :=
  if negb (used i) then cnt_set cnt (String.get i a) (cnt (String.get i a) + 1) else cnt.

Definition patternFor_counts_pass2 (g : string) (st : (nat -> ascii) * cnt_t) (i : nat)
  : (nat -> ascii) * cnt_t :=
  let '(res, cnt) := st in
  if Ascii.eqb (res i) "0"%char then
    let c := String.get i g in
    if 0 <? cnt c then (upd res i "1"%char, cnt_set cnt c (cnt c - 1)) else (res, cnt)
  else (res, cnt).

Definition patternFor_counts (guess answer : string) : string :=
  let st1 := fold_left (patternFor_pass1 guess answer) (seq 0 5)
               ((fun _ => "0"%char), (fun _ => false)) in
  let counts := fold_left (patternFor_counts_collect answer (snd st1)) (seq 0 5)
                  (fun _ => 0) in
  let st2 := fold_left (patternFor_counts_pass2 guess) (seq 0 5) (fst st1, counts) in
  join_res (fst st2).


(* ------------------------------------------------------------------ *)
(** ** Partitioning a candidate set by feedback code

    The loop shared by main.js [partitionByPattern], dp_solver_2.js
    [partitionState] and the inline bucket loops of every solver:
    [let arr = map.get(p); if (!arr) { arr = []; map.set(p, arr); } arr.push(x);]
    The [Map] is an association list in insertion order. *)

Fixpoint bucket_push {A : Type} (m : list (string * list A)) (p : string) (x : A)
  : list (string * list A) :=
  match m with
  | [] => [(p, [x])]
  | (k, arr) :: m' =>
      if String.eqb k p then (k, arr ++ [x]) :: m' else (k, arr) :: bucket_push m' p x
  end.

Definition partitionBy {A : Type} (key : A -> string) (S : list A) : list (string * list A) :=
  fold_left (fun m x => bucket_push m (key x) x) S [].

(** [map.get(p)] *)
Fixpoint map_get {A : Type} (m : list (string * list A)) (p : string) : option (list A) :=
  match m with
  | [] => None
  | (k, arr) :: m' => if String.eqb k p then Some arr else map_get m' p
  end.

(** Helpers for reasoning about the bucket Map. *)
Definition opt_push {A : Type} (o : option (list A)) (x : A) : list A :=
  match o with None => [x] | Some arr => arr ++ [x] end.

Definition opt_ext {A : Type} (o : option (list A)) (l : list A) : option (list A) :=
  match o, l with
  | None, [] => None
  | None, _ => Some l
  | Some a, _ => Some (a ++ l)
  end.

(** main.js [partitionByPattern(S, guess)] over words. *)
Definition partitionByPattern (S : list string) (guess : string) : list (string * list string) :=
  partitionBy (fun ans => pattern guess ans) S.

(** dp_solver_2.js [partitionState(SIndices, guessIdx)] over the pattern table. *)
Definition partitionState (PAT : nat -> nat -> string) (SIndices : list nat) (guessIdx : nat)
  : list (string * list nat) :=
  partitionBy (PAT guessIdx) SIndices.

(** [PAT[i][j] = patternFor(WORDS[i], WORDS[j])], the precomputed table. *)
Definition buildTable (WORDS : list string) : nat -> nat -> string :=
  fun i j => patternFor (nth i WORDS EmptyString) (nth j WORDS EmptyString).

(* ------------------------------------------------------------------ *)
(** ** JavaScript numbers of the solvers: rationals and [Infinity] *)

Inductive num : Type :=
| Fin (q : Q)
| Infinity.

Definition nadd (x y : num) : num :=
  match x, y with
  | Fin a, Fin b => Fin (a + b)
  | _, _ => Infinity
  end.

(** [prob * subE] with [prob > 0]. *)
Definition nscale (p : Q) (x : num) : num :=
  match x with
  | Fin a => Fin (p * a)
  | Infinity => Infinity
  end.

(** [x <= y] *)
Definition nle (x y : num) : bool :=
  match x, y with
  | _, Infinity => true
  | Infinity, Fin _ => false
  | Fin a, Fin b => Qle_bool a b
  end.

(** [x < y] *)
Definition nlt (x y : num) : bool := negb (nle y x).

(** Numeric equality of two results (rationals compared up to [==]). *)
Definition num_eq (x y : num) : Prop :=
  match x, y with
  | Fin a, Fin b => a == b
  | Infinity, Infinity => True
  | _, _ => False
  end.

(** [arr.length / size] *)
Definition prob (k n : nat) : Q := inject_Z (Z.of_nat k) / inject_Z (Z.of_nat n).

(* ------------------------------------------------------------------ *)
(** ** main.js [solveState(cands)]: exact hard-mode DP (guesses in [cands])

    [fuel] bounds the recursion depth (the source recurses on strictly
    smaller buckets); the global [memo] Map of main.js is left out here,
    its transparency is established on [solveTail] below.  The recurrence
    is the source's: [E = 1 + Σ_p (|S_p|/|S|) * E(S_p)] over every bucket,
    the all-correct one included. *)

Section MainSolver.
Variable PAT : nat -> nat -> string.

(** The bucket loop with its branch-and-bound [break]
    ([expectedSub = Infinity] when [expectedSub + 1 >= bestE]). *)
Fixpoint bucketLoop (solve : list nat -> num) (size : nat) (bestE expectedSub : num)
  (bs : list (list nat)) : num :=
  match bs with
  | [] => expectedSub
  | arr :: bs' =>
      let e := nadd expectedSub (nscale (prob (List.length arr) size) (solve arr)) in
      if nle bestE (nadd e (Fin 1)) then Infinity
      else bucketLoop solve size bestE e bs'
  end.

(** [for (let gi = 0; gi < len; gi++)]: returns [(bestE, bestG)]. *)
Fixpoint guessLoop (solve : list nat -> num) (cands gs : list nat) (bestE : num) (bestG : Z)
  : num * Z :=
  match gs with
  | [] => (bestE, bestG)
  | gIdx :: gs' =>
      let buckets := map snd (partitionBy (PAT gIdx) cands) in
      let totalE := nadd (Fin 1) (bucketLoop solve (List.length cands) bestE (Fin 0) buckets) in
      if nlt totalE bestE then guessLoop solve cands gs' totalE (Z.of_nat gIdx)
      else guessLoop solve cands gs' bestE bestG
  end.

Fixpoint solveState (fuel : nat) (cands : list nat) : num :=
  match cands with
  | [] => Fin 0
  | [_] => Fin 1
  | _ =>
      match fuel with
      | O => Infinity
      | S f => fst (guessLoop (solveState f) cands cands Infinity (-1)%Z)
      end
  end.

(** The same DP without branch-and-bound: every bucket is summed
    (the reference against which pruning is compared). *)
Fixpoint bucketSum (solve : list nat -> num) (size : nat) (acc : num) (bs : list (list nat))
  : num :=
  match bs with
  | [] => acc
  | arr :: bs' => bucketSum solve size (nadd acc (nscale (prob (List.length arr) size) (solve arr))) bs'
  end.

Fixpoint guessLoop_noprune (solve : list nat -> num) (cands gs : list nat) (bestE : num)
  (bestG : Z) : num * Z :=
  match gs with
  | [] => (bestE, bestG)
  | gIdx :: gs' =>
      let buckets := map snd (partitionBy (PAT gIdx) cands) in
      let totalE := nadd (Fin 1) (bucketSum solve (List.length cands) (Fin 0) buckets) in
      if nlt totalE bestE then guessLoop_noprune solve cands gs' totalE (Z.of_nat gIdx)
      else guessLoop_noprune solve cands gs' bestE bestG
  end.

Fixpoint solveState_noprune (fuel : nat) (cands : list nat) : num :=
  match cands with
  | [] => Fin 0
  | [_] => Fin 1
  | _ =>
      match fuel with
      | O => Infinity
      | S f => fst (guessLoop_noprune (solveState_noprune f) cands cands Infinity (-1)%Z)
      end
  end.

(** main.js [expectedGivenFirstGuess(rootIdx, allCands)]. *)
Definition expectedGivenFirstGuess (fuel rootIdx : nat) (allCands : list nat) : num :=
  nadd (Fin 1) (bucketSum (solveState fuel) (List.length allCands) (Fin 0)
                  (map snd (partitionBy (PAT rootIdx) allCands))).

End MainSolver.

(* ------------------------------------------------------------------ *)
(** ** unnamed/part_000 [solveTail(cands)] with the bounded memo [memoStore]

    The memo is a JS [Map] keyed by [cands.join(',')]; the key is kept here
    as the index list itself ([join] with [','] is injective on index lists),
    and the Map's insertion order is the order of the association list. *)

Definition memo_t := list (list nat * num).

Fixpoint memo_get (m : memo_t) (k : list nat) : option num :=
  match m with
  | [] => None
  | (k', v) :: m' => if list_eq_dec Nat.eq_dec k' k then Some v else memo_get m' k
  end.

(** [memo.set(key, value)]: in place for a present key, appended otherwise. *)
Fixpoint memo_set (m : memo_t) (k : list nat) (v : num) : memo_t :=
  match m with
  | [] => [(k, v)]
  | (k', v') :: m' =>
      if list_eq_dec Nat.eq_dec k' k then (k', v) :: m' else (k', v') :: memo_set m' k v
  end.

(** [Math.max(1, Math.floor(MAX_MEMO_ENTRIES * EVICT_FRACTION))] *)
Definition toRemove (MAX_MEMO_ENTRIES : nat) (EVICT_FRACTION : Q) : nat :=
  Nat.max 1 (Z.to_nat (Qfloor (inject_Z (Z.of_nat MAX_MEMO_ENTRIES) * EVICT_FRACTION))).

(** [memoStore(key, value)]: when [memo.size >= MAX_MEMO_ENTRIES], delete the
    [toRemove] oldest keys (iteration over [memo.keys()] with [break]), then set. *)
Definition memoStore (MAX_MEMO_ENTRIES : nat) (EVICT_FRACTION : Q)
  (memo : memo_t) (key : list nat) (value : num) : memo_t :=
  let memo' := if MAX_MEMO_ENTRIES <=? List.length memo
               then skipn (toRemove MAX_MEMO_ENTRIES EVICT_FRACTION) memo else memo in
  memo_set memo' key value.

Section Part000Solver.
Variable PAT : nat -> nat -> string.

(** The store used after a miss: [memoStore] in part_000, a plain
    unbounded [memo.set] in the other scripts. *)
Variable store : memo_t -> list nat -> num -> memo_t.

(** Bucket loop of [solveTail]: on [1 + expectedTail >= bestE] it [break]s
    and keeps the partial sum. *)
Fixpoint bucketLoopT (solve : list nat -> memo_t -> num * memo_t) (size : nat)
  (bestE expectedTail : num) (bs : list (list nat)) (memo : memo_t) : num * memo_t :=
  match bs with
  | [] => (expectedTail, memo)
  | arr :: bs' =>
      let '(subE, memo1) := solve arr memo in
      let e := nadd expectedTail (nscale (prob (List.length arr) size) subE) in
      if nle bestE (nadd (Fin 1) e) then (e, memo1)
      else bucketLoopT solve size bestE e bs' memo1
  end.

Fixpoint guessLoopT (solve : list nat -> memo_t -> num * memo_t) (cands gs : list nat)
  (bestE : num) (memo : memo_t) : num * memo_t :=
  match gs with
  | [] => (bestE, memo)
  | gIdx :: gs' =>
      let '(expectedTail, memo1) :=
        bucketLoopT solve (List.length cands) bestE (Fin 0)
          (map snd (partitionBy (PAT gIdx) cands)) memo in
      let totalE := nadd (Fin 1) expectedTail in
      if nlt totalE bestE then guessLoopT solve cands gs' totalE memo1
      else guessLoopT solve cands gs' bestE memo1
  end.

Fixpoint solveTailWith (fuel : nat) (cands : list nat) (memo : memo_t) : num * memo_t :=
  match cands with
  | [] => (Fin 0, memo)
  | [_] => (Fin 1, memo)
  | _ =>
      match memo_get memo cands with
      | Some cached => (cached, memo)
      | None =>
          match fuel with
          | O => (Infinity, memo)
          | S f =>
              let '(bestE, memo1) := guessLoopT (solveTailWith f) cands cands Infinity memo in
              (bestE, store memo1 cands bestE)
          end
      end
  end.

End Part000Solver.

(** part_000 [solveTail] as written, with [memoStore]. *)
Definition solveTail (PAT : nat -> nat -> string) (MAX_MEMO_ENTRIES : nat) (EVICT_FRACTION : Q)
  (fuel : nat) (cands : list nat) (memo : memo_t) : num * memo_t :=
  solveTailWith PAT (memoStore MAX_MEMO_ENTRIES EVICT_FRACTION) fuel cands memo.

(** The same with the unbounded [memo.set]. *)
Definition solveTail_unbounded (PAT : nat -> nat -> string) (fuel : nat) (cands : list nat)
  (memo : memo_t) : num * memo_t :=
  solveTailWith PAT memo_set fuel cands memo.

(** The same recursion with no memo at all. *)
Section Part000Pure.
Variable PAT : nat -> nat -> string.

Fixpoint bucketLoopP (solve : list nat -> num) (size : nat) (bestE expectedTail : num)
  (bs : list (list nat)) : num :=
  match bs with
  | [] => expectedTail
  | arr :: bs' =>
      let e := nadd expectedTail (nscale (prob (List.length arr) size) (solve arr)) in
      if nle bestE (nadd (Fin 1) e) then e else bucketLoopP solve size bestE e bs'
  end.

Fixpoint guessLoopP (solve : list nat -> num) (cands gs : list nat) (bestE : num) : num :=
  match gs with
  | [] => bestE
  | gIdx :: gs' =>
      let totalE := nadd (Fin 1) (bucketLoopP solve (List.length cands) bestE (Fin 0)
                                   (map snd (partitionBy (PAT gIdx) cands))) in
      if nlt totalE bestE then guessLoopP solve cands gs' totalE
      else guessLoopP solve cands gs' bestE
  end.

Fixpoint solveTail_nomemo (fuel : nat) (cands : list nat) : num :=
  match cands with
  | [] => Fin 0
  | [_] => Fin 1
  | _ =>
      match fuel with
      | O => Infinity
      | S f => guessLoopP (solveTail_nomemo f) cands cands Infinity
      end
  end.

End Part000Pure.

(* ------------------------------------------------------------------ *)
(** ** unnamed/part_001 (last script) [solveState] and [expectedWithRoot]

    Recurrence: [E(S) = 1 + min_g Σ_{p != '22222'} (|S_p|/|S|) * E(S_p)]:
    the all-correct bucket is skipped ([continue]). *)

Section Part001Solver.
Variable PAT : nat -> nat -> string.

Fixpoint bucketLoop1 (solve : list nat -> num) (size : nat) (bestE expectedSub : num)
  (bs : list (string * list nat)) : num :=
  match bs with
  | [] => expectedSub
  | (pat, arr) :: bs' =>
      if String.eqb pat allCorrect then bucketLoop1 solve size bestE expectedSub bs'
      else
        let e := nadd expectedSub (nscale (prob (List.length arr) size) (solve arr)) in
        if nle bestE (nadd (Fin 1) e) then e else bucketLoop1 solve size bestE e bs'
  end.

Fixpoint guessLoop1 (solve : list nat -> num) (cands gs : list nat) (bestE : num) (bestG : Z)
  : num * Z :=
  match gs with
  | [] => (bestE, bestG)
  | gIdx :: gs' =>
      let totalE := nadd (Fin 1) (bucketLoop1 solve (List.length cands) bestE (Fin 0)
                                   (partitionBy (PAT gIdx) cands)) in
      if nlt totalE bestE then guessLoop1 solve cands gs' totalE (Z.of_nat gIdx)
      else guessLoop1 solve cands gs' bestE bestG
  end.

Fixpoint solveState_p1 (fuel : nat) (cands : list nat) : num :=
  match cands with
  | [] => Fin 0
  | [_] => Fin 1
  | _ =>
      match fuel with
      | O => Infinity
      | S f => fst (guessLoop1 (solveState_p1 f) cands cands Infinity (-1)%Z)
      end
  end.

(** Root loop of [expectedWithRoot]: no branch-and-bound, all-correct skipped. *)
Fixpoint rootSum1 (solve : list nat -> num) (size : nat) (expectedSub : num)
  (bs : list (string * list nat)) : num :=
  match bs with
  | [] => expectedSub
  | (pat, arr) :: bs' =>
      if String.eqb pat allCorrect then rootSum1 solve size expectedSub bs'
      else rootSum1 solve size (nadd expectedSub (nscale (prob (List.length arr) size) (solve arr))) bs'
  end.

(** [expectedWithRoot(rootIdx)] with [allCands = 0..N-1]. *)
Definition expectedWithRoot (fuel : nat) (allCands : list nat) (rootIdx : nat) : num :=
  nadd (Fin 1) (rootSum1 (solveState_p1 fuel) (List.length allCands) (Fin 0)
                  (partitionBy (PAT rootIdx) allCands)).

End Part001Solver.

(* ------------------------------------------------------------------ *)
(** ** dp_solver_2.js (first script) [solveState(SIndices)]

    Recurrence: [E_g(S) = Σ_p (|S_p|/|S|) * cost_p] with [cost_p = 1] for
    ["22222"] and [1 + value(S_p)] otherwise; the bucket loop [break]s as
    soon as [expected >= bestValue], keeping the partial sum.  The [dp]
    Map is left out, as for main.js. *)

Section DpSolver2.
Variable PAT : nat -> nat -> string.

Fixpoint bucketLoop2 (solve : list nat -> num) (total : nat) (bestValue expected : num)
  (parts : list (string * list nat)) : num :=
  match parts with
  | [] => expected
  | (pat, bucket) :: parts' =>
      let p := prob (List.length bucket) total in
      let e := if String.eqb pat allCorrect then nadd expected (Fin (p * 1))
               else nadd expected (nscale p (nadd (Fin 1) (solve bucket))) in
      if nle bestValue e then e else bucketLoop2 solve total bestValue e parts'
  end.

Fixpoint guessLoop2 (solve : list nat -> num) (SIndices gs : list nat) (bestValue : num)
  (bestGuess : Z) : num * Z :=
  match gs with
  | [] => (bestValue, bestGuess)
  | guessIdx :: gs' =>
      let expected := bucketLoop2 solve (List.length SIndices) bestValue (Fin 0)
                        (partitionBy (PAT guessIdx) SIndices) in
      if nlt expected bestValue then guessLoop2 solve SIndices gs' expected (Z.of_nat guessIdx)
      else guessLoop2 solve SIndices gs' bestValue bestGuess
  end.

Fixpoint solveState_d2 (fuel : nat) (SIndices : list nat) : num :=
  match SIndices with
  | [] => Fin 0
  | [_] => Fin 1
  | _ =>
      match fuel with
      | O => Infinity
      | S f => fst (guessLoop2 (solveState_d2 f) SIndices SIndices Infinity (-1)%Z)
      end
  end.

(** The whole result [{ value, bestGuess }]; [solveState_d2] is its value. *)
Definition solveState_d2_result (fuel : nat) (SIndices : list nat) : num * Z :=
  match SIndices with
  | [] => (Fin 0, (-1)%Z)
  | [i] => (Fin 1, Z.of_nat i)
  | _ =>
      match fuel with
      | O => (Infinity, (-1)%Z)
      | S f => guessLoop2 (solveState_d2 f) SIndices SIndices Infinity (-1)%Z
      end
  end.

(** The same without the [break]. *)
Fixpoint bucketSum2 (solve : list nat -> num) (total : nat) (expected : num)
  (parts : list (string * list nat)) : num :=
  match parts with
  | [] => expected
  | (pat, bucket) :: parts' =>
      let p := prob (List.length bucket) total in
      let e := if String.eqb pat allCorrect then nadd expected (Fin (p * 1))
               else nadd expected (nscale p (nadd (Fin 1) (solve bucket))) in
      bucketSum2 solve total e parts'
  end.

Fixpoint guessLoop2_noprune (solve : list nat -> num) (SIndices gs : list nat)
  (bestValue : num) (bestGuess : Z) : num * Z :=
  match gs with
  | [] => (bestValue, bestGuess)
  | guessIdx :: gs' =>
      let expected := bucketSum2 solve (List.length SIndices) (Fin 0)
                        (partitionBy (PAT guessIdx) SIndices) in
      if nlt expected bestValue
      then guessLoop2_noprune solve SIndices gs' expected (Z.of_nat guessIdx)
      else guessLoop2_noprune solve SIndices gs' bestValue bestGuess
  end.

Fixpoint solveState_d2_noprune (fuel : nat) (SIndices : list nat) : num :=
  match SIndices with
  | [] => Fin 0
  | [_] => Fin 1
  | _ =>
      match fuel with
      | O => Infinity
      | S f => fst (guessLoop2_noprune (solveState_d2_noprune f) SIndices SIndices Infinity (-1)%Z)
      end
  end.

End DpSolver2.

(* ------------------------------------------------------------------ *)
(** ** Forced first guess at the root *)

(** unnamed/part_000 [solveWithFixedRoot(gIdx)]: [S = 0..N-1]; the global memo
    threads through the [solveTail(arr)] calls of the bucket loop. *)
Fixpoint rootSumT (solve : list nat -> memo_t -> num * memo_t) (size : nat)
  (expectedTail : num) (bs : list (list nat)) (memo : memo_t) : num * memo_t :=
  match bs with
  | [] => (expectedTail, memo)
  | arr :: bs' =>
      let '(subE, memo1) := solve arr memo in
      rootSumT solve size (nadd expectedTail (nscale (prob (List.length arr) size) subE)) bs' memo1
  end.

Definition solveWithFixedRoot (PAT : nat -> nat -> string) (MAX_MEMO_ENTRIES : nat)
  (EVICT_FRACTION : Q) (fuel N gIdx : nat) (memo : memo_t) : num * memo_t :=
  let '(expectedTail, memo1) :=
    rootSumT (fun arr m => solveTail PAT MAX_MEMO_ENTRIES EVICT_FRACTION fuel arr m) N (Fin 0)
      (map snd (partitionBy (PAT gIdx) (seq 0 N))) memo in
  (nadd (Fin 1) expectedTail, memo1).

(** The root cost as the spec words it (a second definition, compared with
    the sources): [1 + Σ_bucket p_bucket * cost_bucket] over the partition of
    the universe by the guess, where the all-correct bucket is not passed to
    the evaluator and contributes [p * 1]. *)
Fixpoint specRootSum (evaluatorFn : list nat -> num) (size : nat)
  (bs : list (string * list nat)) : num :=
  match bs with
  | [] => Fin 0
  | (pat, bucket) :: bs' =>
      nadd (if String.eqb pat allCorrect then Fin (prob (List.length bucket) size * 1)
            else nscale (prob (List.length bucket) size) (evaluatorFn bucket))
           (specRootSum evaluatorFn size bs')
  end.

Definition forcedFirstGuessCost (PAT : nat -> nat -> string) (guess : nat)
  (fullUniverse : list nat) (evaluatorFn : list nat -> num) : num :=
  nadd (Fin 1) (specRootSum evaluatorFn (List.length fullUniverse)
                  (partitionBy (PAT guess) fullUniverse)).

(** Small universes used as concrete inputs. *)
Definition W2 : list string := ["crane"; "slate"]%string.
Definition W4 : list string := ["crane"; "slate"; "pious"; "crate"]%string.

Definition num_eqb (x y : num) : bool :=
  match x, y with
  | Fin a, Fin b => Qeq_bool a b
  | Infinity, Infinity => true
  | _, _ => false
  end.


(* ------------------------------------------------------------------ *)
(** ** Predicates used in the proofs *)

(** Simulation between the count-based and the used-array second pass. *)
Definition count_rel (a : string) (s1 : (nat -> ascii) * cnt_t) (s2 : (nat -> ascii) * (nat -> bool))
  : Prop :=
  (forall i, fst s1 i = fst s2 i) /\
  (forall c, snd s1 c =
     List.length (filter (fun j => negb (snd s2 j) && opt_eqb (String.get j a) c) (seq 0 5))).

(** A candidate set as the solvers receive it: duplicate-free indices of the universe. *)
Definition valid_cands (N : nat) (cands : list nat) : Prop :=
  NoDup cands /\ Forall (fun i => i < N) cands.

(** The pattern table of a universe of distinct 5-letter words: the all-correct
    code appears exactly on the diagonal. *)
Definition pat_ok (PAT : nat -> nat -> string) (N : nat) : Prop :=
  forall g a, g < N -> a < N -> (PAT g a = allCorrect <-> g = a).

(** Non-negative JavaScript number. *)
Definition nonneg (x : num) : Prop :=
  match x with Fin q => 0 <= q | Infinity => True end%Q.

(** Every memo entry holds the value the memo-free solver computes for its key. *)
Definition memo_ok (PAT : nat -> nat -> string) (m : memo_t) : Prop :=
  forall k v, In (k, v) m -> v = solveTail_nomemo PAT (List.length k) k.

(** Boolean check of [pat_ok] on a concrete table. *)
Definition pat_okb (PAT : nat -> nat -> string) (N : nat) : bool :=
  forallb (fun g => forallb (fun a => Bool.eqb (String.eqb (PAT g a) allCorrect) (Nat.eqb g a))
                      (seq 0 N)) (seq 0 N).

(* ------------------------------------------------------------------ *)
(** ** Bucket sizes of a partition *)



(* ------------------------------------------------------------------ *)
(** ** main.js filter state: the keyboards' click handler and [apply]

    A JS [Set] of one-letter strings is a list of [ascii] in insertion order;
    [state.pos] is the array of five [{include, exclude}] slot objects, each
    mutated in place, so a write through [slot] is an update of [pos] at
    [activePos].  Reading [state.pos[i].include] where [state.pos[i]] is
    [undefined] throws a [TypeError]: the handlers return [None] then.  The
    toasts and the re-rendering ([refresh]) do not touch these fields. *)

Record slot := mkSlot { include : list ascii; exclude : list ascii }.

Record kstate := mkK {
  globalInclude : list ascii;
  globalExclude : list ascii;
  pos : list slot;
  activePos : nat }.

(** [set.has(x)] *)
Definition set_has (s : list ascii) (x : ascii) : bool := existsb (Ascii.eqb x) s.

(** [set.add(x)]: appended unless present. *)
Definition set_add (s : list ascii) (x : ascii) : list ascii :=
  if set_has s x then s else s ++ [x].

(** [set.delete(x)]: whether [x] was present, and the new set. *)
Definition set_delete (s : list ascii) (x : ascii) : bool * list ascii :=
  (set_has s x, filter (fun y => negb (Ascii.eqb y x)) s).

(** [toggle(primary, secondary, ch)]: the new [primary] and [secondary]. *)
Definition toggle (primary secondary : list ascii) (ch : ascii) : list ascii * list ascii :=
  if set_has primary ch then (snd (set_delete primary ch), secondary)
  else (set_add primary ch, snd (set_delete secondary ch)).

(** [state.pos[i] = x] on the array of slot objects (in range: the handlers
    read [state.pos[i]] first). *)
Fixpoint set_nth {A : Type} (l : list A) (i : nat) (x : A) : list A :=
  match l, i with
  | [], _ => []
  | _ :: l', 0 => x :: l'
  | y :: l', S i' => y :: set_nth l' i' x
  end.

(** [for (let i = 0; i < 5; i++) if (state.pos[i].include.has(letter) ||
    state.pos[i].exclude.has(letter)) { stillUsed = true; break; }],
    from index [i] for [n] more rounds. *)
Fixpoint stillUsedLoop (ps : list slot) (letter : ascii) (i n : nat) : option bool :=
  match n with
  | O => Some false
  | S n' =>
      match nth_error ps i with
      | None => None
      | Some s =>
          if set_has (include s) letter || set_has (exclude s) letter then Some true
          else stillUsedLoop ps letter (S i) n'
      end
  end.

(** [for (let i = 0; i < 5; i++) { state.pos[i].include.delete(letter);
    state.pos[i].exclude.delete(letter); }] (the [cleared] flag only
    decides a toast). *)
Fixpoint grayLoop (ps : list slot) (letter : ascii) (i n : nat) : option (list slot) :=
  match n with
  | O => Some ps
  | S n' =>
      match nth_error ps i with
      | None => None
      | Some s =>
          grayLoop (set_nth ps i (mkSlot (snd (set_delete (include s) letter))
                                         (snd (set_delete (exclude s) letter))))
                   letter (S i) n'
      end
  end.

(** The [kind] argument of [buildKeyboard] (the seven keyboards built in main.js). *)
Inductive kbKind := gInc | gExc | pInc | pExc | basicGreen | basicYellow | basicGray.

(** The [d.onclick] handler of [buildKeyboard(container, kind)] for the key
    [letter], on the filter fields of [state]. *)
Definition onclick (kind : kbKind) (letter : ascii) (st : kstate) : option kstate :=
  let gI := globalInclude st in
  let gE := globalExclude st in
  let ps := pos st in
  let ap := activePos st in
  match kind with
  | gInc =>
      let '(gI', gE') := toggle gI gE letter in
      Some (mkK gI' gE' ps ap)
  | gExc =>
      let wasExcluded := set_has gE letter in
      let '(gE', gI') := toggle gE gI letter in
      let isNowExcluded := set_has gE' letter in
      let ps' := if negb wasExcluded && isNowExcluded
                 then map (fun s => mkSlot (snd (set_delete (include s) letter)) (exclude s)) ps
                 else ps in
      Some (mkK gI' gE' ps' ap)
  | pInc =>
      match nth_error ps ap with
      | None => None
      | Some s =>
          if Nat.eqb (List.length (include s)) 1 && set_has (include s) letter then
            Some (mkK gI gE (set_nth ps ap (mkSlot [] (exclude s))) ap)
          else
            Some (mkK gI (snd (set_delete gE letter))
                      (set_nth ps ap (mkSlot (set_add [] letter)
                                             (snd (set_delete (exclude s) letter)))) ap)
      end
  | pExc =>
      match nth_error ps ap with
      | None => None
      | Some s =>
          let '(ex', inc') := toggle (exclude s) (include s) letter in
          Some (mkK gI gE (set_nth ps ap (mkSlot inc' ex')) ap)
      end
  | basicGreen =>
      match nth_error ps ap with
      | None => None
      | Some s =>
          if Nat.eqb (List.length (include s)) 1 && set_has (include s) letter then
            let ps1 := set_nth ps ap (mkSlot [] (exclude s)) in
            match stillUsedLoop ps1 letter 0 5 with
            | None => None
            | Some stillUsed =>
                Some (mkK (if stillUsed then gI else snd (set_delete gI letter)) gE ps1 ap)
            end
          else
            Some (mkK (set_add gI letter) (snd (set_delete gE letter))
                      (set_nth ps ap (mkSlot (set_add [] letter)
                                             (snd (set_delete (exclude s) letter)))) ap)
      end
  | basicYellow =>
      match nth_error ps ap with
      | None => None
      | Some s =>
          let wasIncluded := set_has (include s) letter in
          let wasExcluded := set_has gE letter in
          if set_has (exclude s) letter then
            let ps1 := set_nth ps ap (mkSlot (include s) (snd (set_delete (exclude s) letter))) in
            match stillUsedLoop ps1 letter 0 5 with
            | None => None
            | Some stillUsed =>
                Some (mkK (if stillUsed then gI else snd (set_delete gI letter)) gE ps1 ap)
            end
          else
            let inc' := if wasIncluded then snd (set_delete (include s) letter) else include s in
            let gE' := if wasExcluded then snd (set_delete gE letter) else gE in
            Some (mkK (set_add gI letter) gE'
                      (set_nth ps ap (mkSlot inc' (set_add (exclude s) letter))) ap)
      end
  | basicGray =>
      let '(gE', gI') := toggle gE gI letter in
      if set_has gE' letter then
        match grayLoop ps letter 0 5 with
        | None => None
        | Some ps' => Some (mkK gI' gE' ps' ap)
        end
      else Some (mkK gI' gE' ps ap)
  end.

(** [w.includes(ch)] for a one-letter [ch]. *)
Definition includes (w : string) (ch : ascii) : bool :=
  existsb (Ascii.eqb ch) (list_ascii_of_string w).

(** [set.has(w[i])]: [undefined] is in no set of letters. *)
Definition set_has_opt (s : list ascii) (c : option ascii) : bool :=
  match c with Some a => set_has s a | None => false end.

(** [for (let i = 0; i < 5; i++) { need = state.pos[i].include; ban = ...exclude;
    if (need.size > 0 && !need.has(c)) continue WORDS; if (ban.has(c)) continue WORDS; }]
    from index [i] for [n] more rounds: [Some true] when the word survives. *)
Fixpoint posLoop (ps : list slot) (w : string) (i n : nat) : option bool :=
  match n with
  | O => Some true
  | S n' =>
      match nth_error ps i with
      | None => None
      | Some s =>
          let c := String.get i w in
          if negb (Nat.eqb (List.length (include s)) 0) && negb (set_has_opt (include s) c)
          then Some false
          else if set_has_opt (exclude s) c then Some false
          else posLoop ps w (S i) n'
      end
  end.

(** The body of the [WORDS] loop of [apply()] for one word. *)
Definition keepWord (tester : option (string -> bool)) (st : kstate) (w : string) : option bool :=
  if match tester with Some t => negb (t w) | None => false end then Some false
  else if existsb (includes w) (globalExclude st) then Some false
  else if negb (forallb (includes w) (globalInclude st)) then Some false
  else posLoop (pos st) w 0 5.

(** [apply()]: the new [state.filtered], from [state.all] ([words]) and
    [state.searchTester] ([tester]). *)
Fixpoint apply_filter (tester : option (string -> bool)) (st : kstate) (words : list string)
  : option (list string) :=
  match words with
  | [] => Some []
  | w :: ws =>
      match keepWord tester st w with
      | None => None
      | Some keep =>
          match apply_filter tester st ws with
          | None => None
          | Some out => Some (if keep then w :: out else out)
          end
      end
  end.

(** [for (let i = 0; i < 5; i++) { state.pos[i].include.clear();
    state.pos[i].exclude.clear(); }] from index [i] for [n] more rounds. *)
Fixpoint clearLoop (ps : list slot) (i n : nat) : option (list slot) :=
  match n with
  | O => Some ps
  | S n' => match nth_error ps i with
            | None => None
            | Some _ => clearLoop (set_nth ps i (mkSlot [] [])) (S i) n'
            end
  end.

(** The [clearAll] button on the filter fields (it also resets
    [state.searchTester] to [null]). *)
Definition clearAll (st : kstate) : option kstate :=
  match clearLoop (pos st) 0 5 with
  | None => None
  | Some ps' => Some (mkK [] [] ps' (activePos st))
  end.

(** The consistency of the filter state: five slots, an active slot among
    them, no letter both globally included and excluded, at most one letter
    included per slot, and an included letter neither excluded at its slot
    nor globally. *)
Definition slot_ok (gE : list ascii) (s : slot) : Prop :=
  List.length (include s) <= 1 /\
  forall a, In a (include s) -> ~ In a (exclude s) /\ ~ In a gE.

Definition kb_inv (st : kstate) : Prop :=
  List.length (pos st) = 5 /\ activePos st < 5 /\
  (forall a, In a (globalInclude st) -> ~ In a (globalExclude st)) /\
  Forall (slot_ok (globalExclude st)) (pos st).

(** Basic mode (green, yellow, gray keys): a letter marked at some slot is
    also globally included. *)
Definition marks_in (gI : list ascii) (s : slot) : Prop :=
  forall a, In a (include s) \/ In a (exclude s) -> In a gI.

Definition basic_inv (st : kstate) : Prop :=
  kb_inv st /\ Forall (marks_in (globalInclude st)) (pos st).

(** What [apply()] keeps, read off its loop: the search tester accepts the
    word, no globally excluded letter occurs in it, every globally included
    one does, and at each of the five slots the letter is the included one
    (when there is one) and not an excluded one. *)
Definition word_ok (tester : option (string -> bool)) (st : kstate) (w : string) : Prop :=
  (match tester with Some t => t w = true | None => True end) /\
  (forall a, In a (globalExclude st) -> ~ In a (list_ascii_of_string w)) /\
  (forall a, In a (globalInclude st) -> In a (list_ascii_of_string w)) /\
  (forall i s, i < 5 -> nth_error (pos st) i = Some s ->
     (include s <> [] -> exists c, String.get i w = Some c /\ In c (include s)) /\
     (forall c, String.get i w = Some c -> ~ In c (exclude s))).

(** The filter fields of [const state = {...}] at start-up. *)
Definition initState : kstate :=
  mkK [] [] (repeat (mkSlot [] []) 5) 0.

(* ------------------------------------------------------------------ *)
(** ** main.js search box: [tokenize], [toRPN], [buildTesterFromRPN],
    [buildSearchTester]

    The expression is scanned as a list of characters; the index loops of
    [tokenize] become recursion on the rest of the list, with a fuel bound
    that the definitions set above the length of the input.  The tester of a
    single pattern, [w => new RegExp(buildRegexFromMiniPattern(value)).test(w)],
    is the parameter [compile]: [None] when the [RegExp] constructor throws. *)

(** [String.prototype.toLowerCase] on one 8-bit character: [A-Z] and the
    Latin-1 capitals [U+00C0-U+00DE] except [U+00D7]. *)
Definition lower_ascii (c : ascii) : ascii :=
  let n := nat_of_ascii c in
  if (65 <=? n) && (n <=? 90) then ascii_of_nat (n + 32)
  else if (192 <=? n) && (n <=? 222) && negb (n =? 215) then ascii_of_nat (n + 32)
  else c.

Inductive token := TLParen | TRParen | TOr | TAnd | TPat (value : string).

Definition is_op_char (c : ascii) : bool := (c =? "|")%char || (c =? "&")%char.

(** [ch==='('||ch===')'||isOp(ch)||ch===' ']: the characters ending a pattern. *)
Definition is_stop (c : ascii) : bool :=
  (c =? "(")%char || (c =? ")")%char || is_op_char c || (c =? " ")%char.

(** [while(j<s.length&&s[j]!==']') j++;]: the text before the first [']']
    and the rest after it, if there is one. *)
Fixpoint split_at_close (cs : list ascii) : option (list ascii * list ascii) :=
  match cs with
  | [] => None
  | c :: cs' =>
      if (c =? "]")%char then Some ([], cs')
      else match split_at_close cs' with
           | Some (inner, after) => Some (c :: inner, after)
           | None => None
           end
  end.

(** The inner [while] of [tokenize]: the pattern text [buf] and the rest. *)
Fixpoint readPat (fuel : nat) (cs : list ascii) : list ascii * list ascii :=
  match fuel with
  | O => ([], cs)
  | S f =>
      match cs with
      | [] => ([], [])
      | ch :: cs' =>
          if is_stop ch then ([], cs)
          else if (ch =? "[")%char then
            match split_at_close cs' with
            | Some (inner, after) =>
                let '(b, r) := readPat f after in ((ch :: inner ++ ["]"%char]) ++ b, r)
            | None => let '(b, r) := readPat f cs' in (ch :: b, r)
            end
          else let '(b, r) := readPat f cs' in (ch :: b, r)
      end
  end.

(** The outer [while] of [tokenize]. *)
Fixpoint tokLoop (fuel : nat) (cs : list ascii) : list token :=
  match fuel with
  | O => []
  | S f =>
      match cs with
      | [] => []
      | c :: cs' =>
          if (c =? " ")%char then tokLoop f cs'
          else if (c =? "(")%char then TLParen :: tokLoop f cs'
          else if (c =? ")")%char then TRParen :: tokLoop f cs'
          else if (c =? "|")%char then TOr :: tokLoop f cs'
          else if (c =? "&")%char then TAnd :: tokLoop f cs'
          else let '(buf, rest) := readPat (List.length cs) cs in
               TPat (string_of_list_ascii buf) :: tokLoop f rest
      end
  end.

(** [tokenize(expr)] ([expr] a string, so [expr||''] is [expr]). *)
Definition tokenize (expr : string) : list token :=
  let s := map lower_ascii (list_ascii_of_string expr) in
  tokLoop (S (List.length s)) s.

Definition is_op_tok (t : token) : bool :=
  match t with TOr | TAnd => true | _ => false end.

(** [prec]: [&] binds tighter than [|]. *)
Definition prec (t : token) : nat :=
  match t with TAnd => 2 | TOr => 1 | _ => 0 end.

(** [while(st.length){ top=...; if(isOp(top)&&prec(top)>=prec(t)) out.push(st.pop()); else break; }]
    (the stack has its top first). *)
Fixpoint popOps (t : token) (st out : list token) : list token * list token :=
  match st with
  | top :: st' =>
      if is_op_tok top && (prec t <=? prec top) then popOps t st' (out ++ [top])
      else (st, out)
  | [] => (st, out)
  end.

(** [while(st.length&&st[st.length-1].type!=='(') out.push(st.pop());
    if(st.length&&st[st.length-1].type==='(') st.pop();] *)
Fixpoint popToParen (st out : list token) : list token * list token :=
  match st with
  | TLParen :: st' => (st', out)
  | top :: st' => popToParen st' (out ++ [top])
  | [] => ([], out)
  end.

(** One token of the [for] loop of [toRPN]: [(st, out)] to the next. *)
Definition rpnStep (acc : list token * list token) (t : token) : list token * list token :=
  let '(st, out) := acc in
  match t with
  | TPat _ => (st, out ++ [t])
  | TOr | TAnd => let '(st', out') := popOps t st out in (t :: st', out')
  | TLParen => (t :: st, out)
  | TRParen => popToParen st out
  end.

Definition is_paren (t : token) : bool :=
  match t with TLParen | TRParen => true | _ => false end.

(** [toRPN(tokens)]: the loop, then the operators left on the stack, top first. *)
Definition toRPN (tokens : list token) : list token :=
  let '(st, out) := fold_left rpnStep tokens ([], []) in
  out ++ filter (fun x => negb (is_paren x)) st.

Section Tester.
Variable compile : string -> option (string -> bool).

(** [buildTesterFromRPN(rpn)] from the stack [st] (top first): [None] when
    the [RegExp] constructor throws, [Some None] for [return null]. *)
Fixpoint testerLoop (rpn : list token) (st : list (string -> bool)) : option (option (string -> bool)) :=
  match rpn with
  | [] => Some (match st with [f] => Some f | _ => None end)
  | TPat v :: rpn' =>
      match compile v with
      | None => None
      | Some re => testerLoop rpn' ((fun w => re w) :: st)
      end
  | TAnd :: rpn' =>
      match st with
      | b :: a :: st' => testerLoop rpn' ((fun w => a w && b w) :: st')
      | _ => Some None
      end
  | TOr :: rpn' =>
      match st with
      | b :: a :: st' => testerLoop rpn' ((fun w => a w || b w) :: st')
      | _ => Some None
      end
  | _ :: rpn' => testerLoop rpn' st
  end.

Definition buildTesterFromRPN (rpn : list token) : option (option (string -> bool)) :=
  testerLoop rpn [].

Definition is_pat (t : token) : bool := match t with TPat _ => true | _ => false end.

(** [buildSearchTester(expr)] ([tester||null]: a function is truthy). *)
Definition buildSearchTester (expr : string) : option (option (string -> bool)) :=
  let toks := tokenize expr in
  if negb (existsb is_pat toks) then Some None
  else buildTesterFromRPN (toRPN toks).

End Tester.

(** Boolean search expressions over patterns, and what they mean. *)
Inductive sexpr := SPat (p : string) | SAnd (a b : sexpr) | SOr (a b : sexpr).

Fixpoint sexpr_eval (compile : string -> option (string -> bool)) (e : sexpr)
  : option (string -> bool) :=
  match e with
  | SPat p => compile p
  | SAnd a b => match sexpr_eval compile a, sexpr_eval compile b with
                | Some fa, Some fb => Some (fun w => fa w && fb w)
                | _, _ => None
                end
  | SOr a b => match sexpr_eval compile a, sexpr_eval compile b with
               | Some fa, Some fb => Some (fun w => fa w || fb w)
               | _, _ => None
               end
  end.

(** The expression written with every operand in parentheses. *)
Fixpoint sexpr_print (e : sexpr) : string :=
  match e with
  | SPat p => p
  | SAnd a b => ("(" ++ sexpr_print a ++ ")&(" ++ sexpr_print b ++ ")")%string
  | SOr a b => ("(" ++ sexpr_print a ++ ")|(" ++ sexpr_print b ++ ")")%string
  end.

(** A pattern word: non-empty, lower case, with no space, parenthesis,
    operator or bracket. *)
Definition plain_word (p : string) : Prop :=
  p <> EmptyString /\
  Forall (fun c => is_stop c = false /\ (c =? "[")%char = false /\ lower_ascii c = c)
         (list_ascii_of_string p).

Fixpoint sexpr_plain (e : sexpr) : Prop :=
  match e with
  | SPat p => plain_word p
  | SAnd a b | SOr a b => sexpr_plain a /\ sexpr_plain b
  end.

(** The tokens of a fully parenthesised expression, and its postfix form. *)
Fixpoint sexpr_toks (e : sexpr) : list token :=
  match e with
  | SPat p => [TPat p]
  | SAnd a b => TLParen :: sexpr_toks a ++ [TRParen; TAnd; TLParen] ++ sexpr_toks b ++ [TRParen]
  | SOr a b => TLParen :: sexpr_toks a ++ [TRParen; TOr; TLParen] ++ sexpr_toks b ++ [TRParen]
  end.

Fixpoint sexpr_rpn (e : sexpr) : list token :=
  match e with
  | SPat p => [TPat p]
  | SAnd a b => sexpr_rpn a ++ sexpr_rpn b ++ [TAnd]
  | SOr a b => sexpr_rpn a ++ sexpr_rpn b ++ [TOr]
  end.

(** Helper predicates used by the keyboard and search-pipeline proofs. *)
Definition slot_used (letter : ascii) (s : slot) : bool :=
  set_has (include s) letter || set_has (exclude s) letter.
Definition gray_clear (letter : ascii) (s : slot) : slot :=
  mkSlot (snd (set_delete (include s) letter)) (snd (set_delete (exclude s) letter)).
Definition slot_cond (w : string) (j : nat) (s : slot) : Prop :=
  (include s <> [] -> exists c, String.get j w = Some c /\ In c (include s)) /\
  (forall c, String.get j w = Some c -> ~ In c (exclude s)).
Definition stack_ok (st : list token) : Prop :=
  Forall (fun t => t = TLParen \/ is_op_tok t = true) st.
Definition tl (cs : list ascii) : list token := tokLoop (S (List.length cs)) cs.
Definition plain_char (c : ascii) : Prop :=
  is_stop c = false /\ (c =? "[")%char = false /\ lower_ascii c = c.
Definition stop_rest (rest : list ascii) : Prop :=
  match rest with [] => True | c :: _ => is_stop c = true end.

(** The operator a parenthesised expression leaves on the [toRPN] stack,
    and the output it has pushed before it. *)
Definition sexpr_pend (e : sexpr) : list token :=
  match e with SPat _ => [] | SAnd _ _ => [TAnd] | SOr _ _ => [TOr] end.

Definition sexpr_core (e : sexpr) : list token :=
  match e with
  | SPat p => [TPat p]
  | SAnd a b | SOr a b => sexpr_rpn a ++ sexpr_rpn b
  end.

(** A [toRPN] stack an operator does not pop: empty, or a [(] on top. *)
Definition top_ok (st : list token) : Prop :=
  st = [] \/ exists st', st = TLParen :: st'.

(** An operator character of the search box and its token ([true] for [&]). *)
Definition op_char (b : bool) : ascii := if b then "&"%char else "|"%char.

Definition op_tok (b : bool) : token := if b then TAnd else TOr.

(** A search expression without parentheses: a first word, then operator
    and word pairs. *)
Fixpoint flat_print_rest (rest : list (bool * string)) : string :=
  match rest with
  | [] => EmptyString
  | (b, w) :: r => String (op_char b) (w ++ flat_print_rest r)
  end.

Definition flat_print (w0 : string) (rest : list (bool * string)) : string :=
  (w0 ++ flat_print_rest rest)%string.

Fixpoint flat_toks_rest (rest : list (bool * string)) : list token :=
  match rest with
  | [] => []
  | (b, w) :: r => op_tok b :: TPat w :: flat_toks_rest r
  end.

(** The conventional reading of such an expression, as a reference: [&]
    binds tighter than [|], and both group to the left. [ao] is the
    disjunction read so far, [aa] the conjunction being read. *)
Definition flat_close (ao : option sexpr) (aa : sexpr) : sexpr :=
  match ao with None => aa | Some o => SOr o aa end.

Fixpoint flat_go (ao : option sexpr) (aa : sexpr) (rest : list (bool * string)) : sexpr :=
  match rest with
  | [] => flat_close ao aa
  | (true, w) :: r => flat_go ao (SAnd aa (SPat w)) r
  | (false, w) :: r => flat_go (Some (flat_close ao aa)) (SPat w) r
  end.

Definition flat_sexpr (w0 : string) (rest : list (bool * string)) : sexpr :=
  flat_go None (SPat w0) rest.

(** The [toRPN] state after a prefix of such an expression. *)
Definition flat_state (ao : option sexpr) (aa : sexpr) : list token * list token :=
  (sexpr_pend aa ++ (match ao with None => [] | Some _ => [TOr] end),
   (match ao with None => [] | Some o => sexpr_rpn o end) ++ sexpr_core aa).

Definition not_or (e : sexpr) : Prop :=
  match e with SOr _ _ => False | _ => True end.

(* ------------------------------------------------------------------ *)
(** ** main.js [entropyAndExpectedSize(S, guess)] and
       [EstepsOneLookaheadLocal(S, g)] *)



Section Entropy.
(** [Math.log2], which the rationals do not have. *)
Variable log2 : Q -> Q.



End Entropy.





(* ------------------------------------------------------------------ *)
(** ** main.js word lists: [loadWordsFromArray(a)] and [parseWordsFromCsvText(t)] *)

From Stdlib Require Import Sorted.

(** [/^[a-z]{5}$/.test(w)] *)
Definition is_lower_letter (c : ascii) : bool :=
  (97 <=? nat_of_ascii c) && (nat_of_ascii c <=? 122).

Definition is_word5 (w : string) : bool :=
  (String.length w =? 5) && forallb is_lower_letter (list_ascii_of_string w).

(** The loop shared by both functions: keep [w] when
    [/^[a-z]{5}$/.test(w) && !seen.has(w)], then [seen.add(w)]. *)
Fixpoint keepFirst (ws seen : list string) : list string :=
  match ws with
  | [] => []
  | w :: ws' =>
      if is_word5 w && negb (existsb (String.eqb w) seen)
      then w :: keepFirst ws' (w :: seen)
      else keepFirst ws' seen
  end.

(** [Array.prototype.sort()] without a comparator on strings: the order of
    UTF-16 code units, here [String.compare]; on distinct strings every
    sorting algorithm gives the same result, insertion sort among them. *)
Fixpoint insert_str (w : string) (l : list string) : list string :=
  match l with
  | [] => [w]
  | x :: l' => if String.leb w x then w :: l else x :: insert_str w l'
  end.

Definition sort_str (l : list string) : list string := fold_right insert_str [] l.

(** [state.all=a.filter(...).sort()]: the new [state.all]. *)
Definition loadWordsFromArray (a : list string) : list string := sort_str (keepFirst a []).

(** JavaScript white space and line terminators among the characters 0-255
    ([\s] and what [trim] removes): tab, LF, VT, FF, CR, space, no-break space. *)
Definition is_ws (c : ascii) : bool :=
  let n := nat_of_ascii c in
  (n =? 9) || (n =? 10) || (n =? 11) || (n =? 12) || (n =? 13) || (n =? 32) || (n =? 160).

(** [t.split(/\r?\n/)]: [cur] is the current line, reversed; a [\r] just
    before the [\n] belongs to the separator. *)
Definition drop_cr (cur : list ascii) : list ascii :=
  match cur with
  | c :: cur' => if (c =? "013")%char then cur' else cur
  | [] => []
  end.

Fixpoint splitLines (cs cur : list ascii) : list (list ascii) :=
  match cs with
  | [] => [rev cur]
  | c :: cs' =>
      if (c =? "010")%char then rev (drop_cr cur) :: splitLines cs' []
      else splitLines cs' (c :: cur)
  end.

Fixpoint drop_ws (cs : list ascii) : list ascii :=
  match cs with
  | c :: cs' => if is_ws c then drop_ws cs' else cs
  | [] => []
  end.

(** [s.trim()] *)
Definition trim (cs : list ascii) : list ascii := rev (drop_ws (rev (drop_ws cs))).

(** [line.split(/,|\s+/)]: a comma, or a maximal run of white space, ends a
    cell; [inws] is set while inside such a run. *)
Fixpoint splitCells (cs cur : list ascii) (inws : bool) : list (list ascii) :=
  match cs with
  | [] => [rev cur]
  | c :: cs' =>
      if (c =? ",")%char then rev cur :: splitCells cs' [] false
      else if is_ws c then
        (if inws then splitCells cs' [] true else rev cur :: splitCells cs' [] true)
      else splitCells cs' (c :: cur) false
  end.

(** [const line=raw.trim(); if(!line) continue; const cells=line.split(/,|\s+/);] *)
Definition lineCells (raw : list ascii) : list (list ascii) :=
  match trim raw with
  | [] => []
  | line => splitCells line [] false
  end.

(** [c=(c||'').trim().toLowerCase();] *)
Definition cellWord (c : list ascii) : string :=
  string_of_list_ascii (map lower_ascii (trim c)).

(** [parseWordsFromCsvText(t)]: the two nested loops share [seen] and
    [words], so they run [keepFirst] over the cells of all lines in order. *)
Definition parseWordsFromCsvText (t : string) : list string :=
  keepFirst (map cellWord (List.concat (map lineCells (splitLines (list_ascii_of_string t) [])))) [].

(** [s.toLowerCase()] *)
Definition lowercase (s : string) : string :=
  string_of_list_ascii (map lower_ascii (list_ascii_of_string s)).

(** The characters that separate two words of a word list: a comma or white space. *)
Definition is_sep (c : ascii) : bool := (c =? ",")%char || is_ws c.

(** The non-empty maximal runs of non-separators (a reference for the
    proofs); [cur] is the current run, reversed. *)
Definition flush (cur : list ascii) : list (list ascii) :=
  match cur with [] => [] | _ => [rev cur] end.

Fixpoint wordsGo (cs cur : list ascii) : list (list ascii) :=
  match cs with
  | [] => flush cur
  | c :: cs' => if is_sep c then flush cur ++ wordsGo cs' [] else wordsGo cs' (c :: cur)
  end.

Definition nonnil (l : list ascii) : bool := match l with [] => false | _ => true end.

Definition nosep (l : list ascii) : bool := forallb (fun c => negb (is_sep c)) l.

(* ------------------------------------------------------------------ *)
(** ** dp_solver_2.js [stateKey(SIndices)]: the key of the [dp] cache *)

From Stdlib Require DecimalNat.

(** [SIndices.slice().sort((a, b) => a - b)]: indices in ascending order. *)
Fixpoint insert_num (x : nat) (l : list nat) : list nat :=
  match l with
  | [] => [x]
  | y :: l' => if Nat.leb x y then x :: l else y :: insert_num x l'
  end.

Definition sort_num (l : list nat) : list nat := fold_right insert_num [] l.

(** The decimal digits of an index, as [join] writes a number. *)
Fixpoint uint_str (d : Decimal.uint) : string :=
  match d with
  | Decimal.Nil => EmptyString
  | Decimal.D0 d => String "0" (uint_str d)
  | Decimal.D1 d => String "1" (uint_str d)
  | Decimal.D2 d => String "2" (uint_str d)
  | Decimal.D3 d => String "3" (uint_str d)
  | Decimal.D4 d => String "4" (uint_str d)
  | Decimal.D5 d => String "5" (uint_str d)
  | Decimal.D6 d => String "6" (uint_str d)
  | Decimal.D7 d => String "7" (uint_str d)
  | Decimal.D8 d => String "8" (uint_str d)
  | Decimal.D9 d => String "9" (uint_str d)
  end.

Definition num_str (n : nat) : string := uint_str (Nat.to_uint n).

(** [sorted.join(',')]. *)
Definition stateKey (SIndices : list nat) : string :=
  String.concat "," (map num_str (sort_num SIndices)).

(* ------------------------------------------------------------------ *)
(** ** unnamed/part_001 (first script) [bestExpected(words, depth, memo)]
    and [evalStartingGuess(words, guess, depth, memo)]

    The [memo] Map is left out; [depth] is a non-negative integer (then
    [depth <= 0] is [depth = 0], and [depth - 1] at [0] takes the same
    branch as [-1]); [Math.pow] is a parameter. *)

Section Part001Greedy.
Variable pow : Q -> Q -> Q.

Definition leafExtraGuesses (k : nat) : Q :=
  if Nat.leb k 1 then 0%Q else (1 + (20 # 100) * pow (inject_Z (Z.of_nat k)) (55 # 100))%Q.

(** part_001 [partitionByPattern(words, guess)] (with its [patternFor]). *)
Definition partitionByPattern_p1 (words : list string) (guess : string)
  : list (string * list string) :=
  partitionBy (fun w => patternFor_counts guess w) words.

(** The loop over [parts.entries()] accumulating [est]. *)
Fixpoint estLoopG (solve : list string -> num) (N : nat) (est : num)
  (parts : list (string * list string)) : num :=
  match parts with
  | [] => est
  | (pat, bucket) :: parts' =>
      let p := prob (List.length bucket) N in
      let est' := if String.eqb pat allCorrect then nadd est (Fin (p * 1)%Q)
                  else nadd est (nscale p (nadd (Fin 1) (solve bucket))) in
      estLoopG solve N est' parts'
  end.

Fixpoint bestExpected (words : list string) (depth : nat) {struct depth} : num :=
  if Nat.eqb (List.length words) 1 then Fin 1 else
  match depth with
  | O => Fin (leafExtraGuesses (List.length words))
  | S d =>
      let sorted := sort_str words in
      fold_left (fun best g =>
          let est := estLoopG (fun bucket => bestExpected bucket d) (List.length words) (Fin 0)
                       (partitionByPattern_p1 sorted g) in
          if nlt est best then est else best) sorted Infinity
  end.

Definition evalStartingGuess (words : list string) (guess : string) (depth : nat) : num :=
  estLoopG (fun bucket => bestExpected bucket (depth - 1)) (List.length words) (Fin 0)
    (partitionByPattern_p1 words guess).

End Part001Greedy.

(* ================================================================== *)
(** * Proofs *)

(** ** Concrete runs *)

Example pattern_allow_llama : pattern "allow" "llama" = "12100"%string.
Proof. reflexivity. Qed.
Example patternFor_allow_llama : patternFor "allow" "llama" = "12100"%string.
Proof. reflexivity. Qed.
Example patternFor_counts_allow_llama : patternFor_counts "allow" "llama" = "12100"%string.
Proof. reflexivity. Qed.
Example pattern_speed_erase : pattern "speed" "erase" = "10110"%string.
Proof. reflexivity. Qed.
Example solveState_W2 : num_eqb (solveState (buildTable W2) 2 [0;1]) (Fin 2) = true.
Proof. vm_compute. reflexivity. Qed.
Example solveState_p1_W2 : num_eqb (solveState_p1 (buildTable W2) 2 [0;1]) (Fin (3#2)) = true.
Proof. vm_compute. reflexivity. Qed.
Example solveState_W4 : num_eqb (solveState (buildTable W4) 4 [0;1;2;3]) (Fin 2) = true.
Proof. vm_compute. reflexivity. Qed.
Example solveState_p1_W4 : num_eqb (solveState_p1 (buildTable W4) 4 [0;1;2;3]) (Fin (7#4)) = true.
Proof. vm_compute. reflexivity. Qed.

(* ------------------------------------------------------------------ *)
(** ** Partition lemmas *)

Section PartitionFacts.
Context {A : Type}.

Lemma map_get_bucket_push (m : list (string * list A)) p x k :
  map_get (bucket_push m p x) k =
  if String.eqb k p then Some (opt_push (map_get m k) x) else map_get m k.
Proof.
  induction m as [|[k' arr] m' IH]; simpl.
  - destruct (String.eqb_spec k p), (String.eqb_spec p k); congruence.
  - destruct (String.eqb_spec k' p) as [Hkp|Hne]; simpl.
    + destruct (String.eqb_spec k' k), (String.eqb_spec k p); simpl; try reflexivity;
        congruence.
    + rewrite IH. destruct (String.eqb_spec k' k), (String.eqb_spec k p); congruence.
Qed.

Lemma map_get_fold (key : A -> string) (S : list A) m k :
  map_get (fold_left (fun m x => bucket_push m (key x) x) S m) k =
  opt_ext (map_get m k) (filter (fun x => String.eqb (key x) k) S).
Proof.
  revert m. induction S as [|x S IH]; intro m; simpl.
  - destruct (map_get m k) as [a|]; simpl; [rewrite app_nil_r|]; reflexivity.
  - rewrite IH, map_get_bucket_push.
    destruct (String.eqb_spec (key x) k) as [->|Hne].
    + rewrite String.eqb_refl. destruct (map_get m k) as [a|]; simpl;
        [rewrite <- app_assoc|]; reflexivity.
    + destruct (String.eqb_spec k (key x)); [congruence|reflexivity].
Qed.

Lemma map_get_partitionBy (key : A -> string) (S : list A) k :
  map_get (partitionBy key S) k =
  match filter (fun x => String.eqb (key x) k) S with [] => None | l => Some l end.
Proof.
  unfold partitionBy. rewrite map_get_fold. simpl.
  destruct (filter _ S); reflexivity.
Qed.

Lemma in_keys_bucket_push (m : list (string * list A)) p x k :
  In k (map fst (bucket_push m p x)) <-> k = p \/ In k (map fst m).
Proof.
  induction m as [|[k' arr] m' IH]; simpl.
  - intuition congruence.
  - destruct (String.eqb_spec k' p) as [->|]; simpl; [intuition congruence|].
    rewrite IH. intuition congruence.
Qed.

Lemma NoDup_keys_bucket_push (m : list (string * list A)) p x :
  NoDup (map fst m) -> NoDup (map fst (bucket_push m p x)).
Proof.
  induction m as [|[k' arr] m' IH]; simpl; intro Hnd.
  - constructor; [simpl; tauto|constructor].
  - inversion Hnd as [|? ? Hnin Hnd']; subst.
    destruct (String.eqb_spec k' p) as [->|Hne]; simpl; constructor; auto.
    rewrite in_keys_bucket_push. intros [->|]; auto.
Qed.

Lemma NoDup_keys_partitionBy (key : A -> string) (S : list A) :
  NoDup (map fst (partitionBy key S)).
Proof.
  unfold partitionBy.
  assert (H : forall m, NoDup (map fst m) ->
            NoDup (map fst (fold_left (fun m x => bucket_push m (key x) x) S m))).
  { induction S as [|x S IH]; intros m Hm; simpl; auto.
    apply IH, NoDup_keys_bucket_push, Hm. }
  apply H. constructor.
Qed.

Lemma map_get_In (m : list (string * list A)) k b :
  NoDup (map fst m) -> In (k, b) m -> map_get m k = Some b.
Proof.
  induction m as [|[k' arr] m' IH]; simpl; [tauto|].
  intros Hnd [Heq|Hin]; inversion Hnd as [|? ? Hnin Hnd']; subst.
  - inversion Heq; subst. rewrite String.eqb_refl. reflexivity.
  - destruct (String.eqb_spec k' k) as [->|].
    + exfalso. apply Hnin. change k with (fst (k, b)). apply in_map, Hin.
    + apply IH; auto.
Qed.

(** Every bucket is exactly the elements of [S] carrying its key. *)
Lemma partitionBy_In (key : A -> string) (S : list A) k b :
  In (k, b) (partitionBy key S) ->
  b = filter (fun x => String.eqb (key x) k) S /\ b <> [].
Proof.
  intro Hin. pose proof (map_get_In _ _ _ (NoDup_keys_partitionBy key S) Hin) as Hg.
  rewrite map_get_partitionBy in Hg.
  destruct (filter _ S) as [|y l]; inversion Hg; subst; split; [reflexivity|discriminate].
Qed.

Lemma Permutation_bucket_push (m : list (string * list A)) p x :
  Permutation (List.concat (map snd (bucket_push m p x))) (List.concat (map snd m) ++ [x]).
Proof.
  induction m as [|[k' arr] m' IH]; simpl.
  - apply Permutation_refl.
  - destruct (String.eqb_spec k' p); simpl.
    + rewrite <- !app_assoc. apply Permutation_app_head. simpl.
      apply Permutation_cons_append.
    + rewrite <- app_assoc. apply Permutation_app_head, IH.
Qed.

Lemma Permutation_partitionBy (key : A -> string) (S : list A) :
  Permutation (List.concat (map snd (partitionBy key S))) S.
Proof.
  unfold partitionBy.
  assert (H : forall m, Permutation
            (List.concat (map snd (fold_left (fun m x => bucket_push m (key x) x) S m)))
            (List.concat (map snd m) ++ S)).
  { induction S as [|x S IH]; intro m; simpl.
    - rewrite app_nil_r. apply Permutation_refl.
    - eapply perm_trans; [apply IH|].
      change (x :: S) with ([x] ++ S). rewrite app_assoc.
      apply Permutation_app_tail, Permutation_bucket_push. }
  specialize (H []). simpl in H. exact H.
Qed.

End PartitionFacts.

Lemma partitionBy_spec {A : Type} (key : A -> string) (S : list A) :
  let P := partitionBy key S in
  NoDup (map fst P) /\
  (forall k b, In (k, b) P -> b <> [] /\ forall x, In x b -> In x S /\ key x = k) /\
  (forall k1 b1 k2 b2 x, In (k1, b1) P -> In (k2, b2) P -> In x b1 -> In x b2 ->
     k1 = k2 /\ b1 = b2) /\
  (forall x, In x S -> exists b, map_get P (key x) = Some b /\ In x b) /\
  list_sum (map (fun kb => List.length (snd kb)) P) = List.length S /\
  Permutation (List.concat (map snd P)) S.
Proof.
  intro P.
  assert (Hb : forall k b, In (k, b) P -> b <> [] /\ forall x, In x b -> In x S /\ key x = k).
  { intros k b Hin. destruct (partitionBy_In key S k b Hin) as [-> Hne].
    split; [exact Hne|]. intros x Hx. apply filter_In in Hx as [Hx Hk].
    split; [exact Hx|]. apply String.eqb_eq, Hk. }
  split; [apply NoDup_keys_partitionBy|].
  split; [exact Hb|].
  split.
  { intros k1 b1 k2 b2 x H1 H2 Hx1 Hx2.
    destruct (Hb _ _ H1) as [_ Hk1]. destruct (Hb _ _ H2) as [_ Hk2].
    destruct (Hk1 x Hx1) as [_ <-]. destruct (Hk2 x Hx2) as [_ <-]. split; [reflexivity|].
    destruct (partitionBy_In key S _ _ H1) as [-> _].
    destruct (partitionBy_In key S _ _ H2) as [-> _]. reflexivity. }
  split.
  { intros x Hx. unfold P. rewrite map_get_partitionBy.
    assert (Hf : In x (filter (fun y => String.eqb (key y) (key x)) S)).
    { apply filter_In. split; [exact Hx|apply String.eqb_refl]. }
    destruct (filter _ S) as [|y l]; [destruct Hf|]. eexists; split; [reflexivity|exact Hf]. }
  split.
  { rewrite <- (Permutation_length (Permutation_partitionBy key S)).
    rewrite length_concat, map_map. reflexivity. }
  apply Permutation_partitionBy.
Qed.

(** ** C6: buckets of a partition *)

(** C6: for every candidate set [S] and guess [g], the buckets of
    [partitionByPattern(S, g)] (main.js) and of [partitionState(S, g)]
    (dp_solver_2.js) have distinct keys, are non-empty, contain only elements
    of [S] keyed by their feedback code, are pairwise disjoint (a shared
    element forces the same bucket), every element of [S] lands in the bucket
    keyed by its code, and the bucket sizes sum to [|S|]. *)
Theorem partition_buckets_disjoint_cover :
  (forall (S : list string) (guess : string),
     let P := partitionByPattern S guess in
     NoDup (map fst P) /\
     (forall k b, In (k, b) P -> b <> [] /\ forall x, In x b -> In x S /\ pattern guess x = k) /\
     (forall k1 b1 k2 b2 x, In (k1, b1) P -> In (k2, b2) P -> In x b1 -> In x b2 ->
        k1 = k2 /\ b1 = b2) /\
     (forall x, In x S -> exists b, map_get P (pattern guess x) = Some b /\ In x b) /\
     list_sum (map (fun kb => List.length (snd kb)) P) = List.length S) /\
  (forall (PAT : nat -> nat -> string) (SIndices : list nat) (guessIdx : nat),
     let P := partitionState PAT SIndices guessIdx in
     NoDup (map fst P) /\
     (forall k b, In (k, b) P -> b <> [] /\ forall x, In x b -> In x SIndices /\ PAT guessIdx x = k) /\
     (forall k1 b1 k2 b2 x, In (k1, b1) P -> In (k2, b2) P -> In x b1 -> In x b2 ->
        k1 = k2 /\ b1 = b2) /\
     (forall x, In x SIndices -> exists b, map_get P (PAT guessIdx x) = Some b /\ In x b) /\
     list_sum (map (fun kb => List.length (snd kb)) P) = List.length SIndices).
Proof.
  split.
  - intros S guess P.
    destruct (partitionBy_spec (fun ans => pattern guess ans) S) as (H1 & H2 & H3 & H4 & H5 & _).
    exact (conj H1 (conj H2 (conj H3 (conj H4 H5)))).
  - intros PAT SIndices guessIdx P.
    destruct (partitionBy_spec (PAT guessIdx) SIndices) as (H1 & H2 & H3 & H4 & H5 & _).
    exact (conj H1 (conj H2 (conj H3 (conj H4 H5)))).
Qed.

(* ------------------------------------------------------------------ *)
(** ** Feedback lemmas *)

Lemma opt_eqb_eq x y : opt_eqb x y = true <-> x = y.
Proof.
  destruct x as [a|], y as [b|]; simpl; split; intro H; try congruence; auto.
  - apply Ascii.eqb_eq in H. congruence.
  - inversion H. apply Ascii.eqb_refl.
Qed.

Lemma opt_eqb_refl x : opt_eqb x x = true.
Proof. apply opt_eqb_eq. reflexivity. Qed.

Lemma opt_eqb_sym x y : opt_eqb x y = opt_eqb y x.
Proof.
  destruct (opt_eqb x y) eqn:H1, (opt_eqb y x) eqn:H2; auto.
  - apply opt_eqb_eq in H1. subst. rewrite opt_eqb_refl in H2. discriminate.
  - apply opt_eqb_eq in H2. subst. rewrite opt_eqb_refl in H1. discriminate.
Qed.

Lemma length_filter_app {B : Type} (f : B -> bool) l1 l2 :
  List.length (filter f (l1 ++ l2)) = List.length (filter f l1) + List.length (filter f l2).
Proof. rewrite filter_app, length_app. reflexivity. Qed.

Lemma filter_ext_seq (f1 f2 : nat -> bool) n :
  (forall j, j < n -> f1 j = f2 j) -> filter f1 (seq 0 n) = filter f2 (seq 0 n).
Proof.
  intro H. apply filter_ext_in. intros j Hj. apply in_seq in Hj. apply H. lia.
Qed.

Lemma upd_eq {B : Type} (f : nat -> B) i x : upd f i x i = x.
Proof. unfold upd. rewrite Nat.eqb_refl. reflexivity. Qed.

Lemma upd_neq {B : Type} (f : nat -> B) i j x : j <> i -> upd f i x j = f j.
Proof. intro H. unfold upd. destruct (Nat.eqb_spec j i); congruence. Qed.

(** Number of unmatched answer letters equal to [c] among positions [< n]. *)
Lemma pattern_pass1_fold g a n :
  let st := fold_left (pattern_pass1 g a) (seq 0 n) ((fun _ => "0"%char), (fun _ => 0)) in
  (forall i, fst st i =
     if (i <? n) && opt_eqb (String.get i a) (String.get i g) then "2"%char else "0"%char) /\
  (forall c, snd st c =
     List.length (filter (fun j => negb (opt_eqb (String.get j a) (String.get j g))
                                   && opt_eqb (String.get j a) c) (seq 0 n))).
Proof.
  induction n as [|n IH].
  - simpl. split; reflexivity.
  - rewrite seq_S, fold_left_app. simpl.
    destruct (fold_left _ (seq 0 n) _) as [r cnt]. simpl in IH. destruct IH as [IHr IHc].
    unfold pattern_pass1.
    destruct (opt_eqb (String.get n a) (String.get n g)) eqn:Hgr; simpl; split.
    + intro i. unfold upd. rewrite IHr.
      destruct (Nat.eqb_spec i n) as [->|Hne].
      * rewrite Hgr. replace (n <? S n) with true by (symmetry; apply Nat.ltb_lt; lia).
        reflexivity.
      * destruct (Nat.ltb_spec i n), (Nat.ltb_spec i (S n)); try lia; reflexivity.
    + intro c. rewrite IHc, length_filter_app. simpl. rewrite Hgr. simpl. lia.
    + intro i. rewrite IHr. destruct (Nat.eqb_spec i n) as [->|Hne].
      * rewrite Hgr, !andb_false_r. reflexivity.
      * destruct (Nat.ltb_spec i n), (Nat.ltb_spec i (S n)); try lia; reflexivity.
    + intro c. unfold cnt_set. rewrite length_filter_app. simpl. rewrite Hgr. simpl.
      rewrite (opt_eqb_sym c (String.get n a)).
      destruct (opt_eqb (String.get n a) c) eqn:Hc.
      * apply opt_eqb_eq in Hc. subst c. rewrite IHc. simpl. lia.
      * rewrite IHc. simpl. lia.
Qed.

Lemma pattern_pass2_fold g n (r1 : nat -> ascii) (cnt1 : cnt_t) :
  (forall i, r1 i = "0"%char \/ r1 i = "2"%char) ->
  let st := fold_left (pattern_pass2 g) (seq 0 n) (r1, cnt1) in
  (forall i, n <= i -> fst st i = r1 i) /\
  (forall i, fst st i = "2"%char <-> r1 i = "2"%char) /\
  (forall c, snd st c +
     List.length (filter (fun i => Ascii.eqb (fst st i) "1"%char && opt_eqb (String.get i g) c)
                   (seq 0 n)) = cnt1 c).
Proof.
  intro H02. induction n as [|n IH].
  - simpl. repeat split; auto. 
  - rewrite seq_S, fold_left_app. simpl.
    destruct (fold_left _ (seq 0 n) _) as [r cnt]. simpl in IH. destruct IH as (IHa & IHb & IHc).
    assert (Hrn : r n = r1 n) by (apply IHa; lia).
    unfold pattern_pass2.
    destruct (Ascii.eqb (r n) "2"%char) eqn:H2.
    + apply Ascii.eqb_eq in H2. simpl. split; [|split].
      * intros i Hi. apply IHa. lia.
      * exact IHb.
      * intro c. rewrite length_filter_app. simpl. rewrite H2. simpl. rewrite <- (IHc c). lia.
    + assert (Hr1n : r1 n = "0"%char).
      { destruct (H02 n) as [H|H]; auto. rewrite Hrn, H in H2. discriminate. }
      destruct (0 <? cnt (String.get n g)) eqn:Hpos; simpl; split; [| split | | split].
      * intros i Hi. rewrite upd_neq by lia. apply IHa. lia.
      * intro i. destruct (Nat.eqb_spec i n) as [->|Hne].
        -- rewrite upd_eq, Hr1n. split; discriminate.
        -- rewrite upd_neq by exact Hne. apply IHb.
      * intro c. rewrite length_filter_app. simpl. rewrite upd_eq. simpl.
        rewrite (filter_ext_seq _ (fun i => Ascii.eqb (r i) "1"%char && opt_eqb (String.get i g) c)).
        2:{ intros j Hj. rewrite upd_neq by lia. reflexivity. }
        unfold cnt_set. apply Nat.ltb_lt in Hpos.
        rewrite (opt_eqb_sym c (String.get n g)).
        destruct (opt_eqb (String.get n g) c) eqn:Hc.
        -- apply opt_eqb_eq in Hc. subst c. rewrite <- (IHc (String.get n g)). simpl. lia.
        -- rewrite <- (IHc c). simpl. lia.
      * intros i Hi. apply IHa. lia.
      * exact IHb.
      * intro c. rewrite length_filter_app. simpl. rewrite Hrn, Hr1n. simpl.
        rewrite <- (IHc c). lia.
Qed.

Lemma get_join_res (r : nat -> ascii) i : i < 5 -> String.get i (join_res r) = Some (r i).
Proof. intro H. do 5 (destruct i as [|i]; [reflexivity|]). lia. Qed.

Lemma join_res_ext (r r' : nat -> ascii) :
  (forall i, i < 5 -> r i = r' i) -> join_res r = join_res r'.
Proof.
  intro H. unfold join_res. f_equal. apply map_ext_in. intros i Hi.
  apply in_seq in Hi. apply H. lia.
Qed.

Lemma length_filter_mono {B : Type} (f f' : B -> bool) l :
  (forall x, f x = true -> f' x = true) ->
  List.length (filter f l) <= List.length (filter f' l).
Proof.
  intro H. induction l as [|x l IH]; simpl; [lia|].
  destruct (f x) eqn:Hf; [rewrite (H x Hf)|destruct (f' x)]; simpl; lia.
Qed.

(** The two passes of [pattern], summarised. *)
Lemma pattern_passes g a :
  let st1 := fold_left (pattern_pass1 g a) (seq 0 5) ((fun _ => "0"%char), (fun _ => 0)) in
  let st2 := fold_left (pattern_pass2 g) (seq 0 5) st1 in
  pattern g a = join_res (fst st2) /\
  (forall i, fst st2 i = "2"%char <->
     i < 5 /\ String.get i a = String.get i g) /\
  (forall c, snd st2 c +
     List.length (filter (fun i => Ascii.eqb (fst st2 i) "1"%char && opt_eqb (String.get i g) c)
                   (seq 0 5)) =
     List.length (filter (fun j => negb (opt_eqb (String.get j a) (String.get j g))
                                   && opt_eqb (String.get j a) c) (seq 0 5))).
Proof.
  intros st1 st2.
  destruct (pattern_pass1_fold g a 5) as [H1r H1c]. fold st1 in H1r, H1c.
  assert (H02 : forall i, fst st1 i = "0"%char \/ fst st1 i = "2"%char).
  { intro i. rewrite H1r. destruct (_ && _); auto. }
  destruct (pattern_pass2_fold g 5 (fst st1) (snd st1) H02) as (_ & H2b & H2c).
  rewrite <- surjective_pairing in H2b, H2c. fold st2 in H2b, H2c.
  split; [reflexivity|split].
  - intro i. rewrite H2b, H1r.
    destruct (Nat.ltb_spec i 5); simpl.
    + destruct (opt_eqb (String.get i a) (String.get i g)) eqn:E.
      * apply opt_eqb_eq in E. tauto.
      * split; [discriminate|]. intros [_ E']. rewrite E', opt_eqb_refl in E. discriminate.
    + split; [discriminate|lia].
  - intro c. rewrite H2c, H1c. reflexivity.
Qed.

Lemma string_ext (s t : string) :
  String.length s = String.length t ->
  (forall i, i < String.length s -> String.get i s = String.get i t) -> s = t.
Proof.
  revert t. induction s as [|x s IH]; intros [|y t] Hl H; simpl in *; try discriminate; auto.
  assert (Hxy : Some x = Some y) by (apply (H 0); lia). inversion Hxy; subst.
  f_equal. apply IH; [lia|]. intros i Hi. apply (H (S i)). lia.
Qed.

Lemma pattern_allCorrect_iff (g a : string) :
  String.length g = 5 -> String.length a = 5 ->
  (pattern g a = allCorrect <-> g = a).
Proof.
  intros Hg Ha. destruct (pattern_passes g a) as (Hp & H2 & _).
  set (st2 := fold_left _ _ _) in Hp, H2.
  rewrite Hp. split.
  - intro Hall. apply string_ext; [congruence|]. intros i Hi. rewrite Hg in Hi.
    assert (Hri : fst st2 i = "2"%char).
    { assert (E : String.get i (join_res (fst st2)) = String.get i allCorrect) by (rewrite Hall; reflexivity).
      rewrite get_join_res in E by exact Hi.
      do 5 (destruct i as [|i]; [inversion E; reflexivity|]). lia. }
    apply H2 in Hri. symmetry. apply Hri.
  - intros <-. unfold allCorrect.
    change "22222"%string with (join_res (fun _ => "2"%char)).
    apply join_res_ext. intros i Hi. apply H2. auto.
Qed.

Lemma filter_eqb_singleton (S : list string) (g : string) :
  NoDup S -> In g S -> filter (fun x => String.eqb x g) S = [g].
Proof.
  induction S as [|x S IH]; simpl; [tauto|]. intros Hnd Hin.
  inversion Hnd as [|? ? Hnin Hnd']; subst.
  destruct (String.eqb_spec x g) as [->|Hne].
  - f_equal. clear IH Hin Hnd. induction S as [|y S IH']; simpl; auto.
    destruct (String.eqb_spec y g) as [->|]; [simpl in Hnin; tauto|].
    apply IH'. simpl in Hnin. tauto. inversion Hnd'; auto.
  - destruct Hin as [->|Hin]; [congruence|]. apply IH; auto.
Qed.

(** *** The used-array and count-based variants agree *)

Lemma patternFor_pass1_fold g a n :
  let st := fold_left (patternFor_pass1 g a) (seq 0 n) ((fun _ => "0"%char), (fun _ => false)) in
  (forall i, fst st i =
     if (i <? n) && opt_eqb (String.get i a) (String.get i g) then "2"%char else "0"%char) /\
  (forall i, snd st i = (i <? n) && opt_eqb (String.get i a) (String.get i g)).
Proof.
  induction n as [|n IH].
  - simpl. split; reflexivity.
  - rewrite seq_S, fold_left_app. simpl.
    destruct (fold_left _ (seq 0 n) _) as [r used]. simpl in IH. destruct IH as [IHr IHu].
    unfold patternFor_pass1. rewrite (opt_eqb_sym (String.get n g)).
    destruct (opt_eqb (String.get n a) (String.get n g)) eqn:Hgr; simpl;
      split; intro i; unfold upd; rewrite ?IHr, ?IHu;
      destruct (Nat.eqb_spec i n) as [->|Hne]; rewrite ?Hgr;
      try (replace (n <? S n) with true by (symmetry; apply Nat.ltb_lt; lia));
      try (rewrite !andb_false_r; reflexivity); try reflexivity;
      destruct (Nat.ltb_spec i n), (Nat.ltb_spec i (S n)); try lia; reflexivity.
Qed.

Lemma yellow_scan_none a ch used l :
  yellow_scan a ch used l = None <->
  List.length (filter (fun j => negb (used j) && opt_eqb (String.get j a) ch) l) = 0.
Proof.
  induction l as [|j l IH]; simpl; [tauto|].
  destruct (negb (used j) && opt_eqb (String.get j a) ch); simpl; [split; discriminate|exact IH].
Qed.

Lemma yellow_scan_some a ch used l j :
  yellow_scan a ch used l = Some j ->
  In j l /\ negb (used j) && opt_eqb (String.get j a) ch = true.
Proof.
  induction l as [|k l IH]; simpl; [discriminate|].
  destruct (negb (used k) && opt_eqb (String.get k a) ch) eqn:E.
  - intro H. inversion H; subst. auto.
  - intro H. destruct (IH H). auto.
Qed.

Lemma count_upd_used (P : nat -> bool) (used : nat -> bool) j l :
  NoDup l -> In j l -> used j = false ->
  List.length (filter (fun k => negb (upd used j true k) && P k) l) + (if P j then 1 else 0) =
  List.length (filter (fun k => negb (used k) && P k) l).
Proof.
  induction l as [|k l IH]; simpl; [tauto|]. intros Hnd Hin Hu.
  inversion Hnd as [|? ? Hnin Hnd']; subst.
  destruct Hin as [->|Hin].
  - rewrite upd_eq, Hu. simpl.
    rewrite (filter_ext_in _ (fun k => negb (used k) && P k)).
    + destruct (P j); simpl; lia.
    + intros x Hx. rewrite upd_neq; [reflexivity|]. intros ->. contradiction.
  - rewrite upd_neq by (intros ->; contradiction).
    specialize (IH Hnd' Hin Hu). destruct (negb (used k) && P k); simpl; lia.
Qed.


Lemma pass2_sim_step g a s1 s2 i :
  count_rel a s1 s2 -> count_rel a (pattern_pass2 g s1 i) (patternFor_pass2 g a s2 i).
Proof.
  destruct s1 as [r1 cnt], s2 as [r2 used]. intros [Hr Hc]; cbn [fst snd] in Hr, Hc.
  unfold pattern_pass2, patternFor_pass2. rewrite Hr.
  destruct (Ascii.eqb (r2 i) "2"%char); [split; assumption|].
  set (ch := String.get i g).
  destruct (yellow_scan a ch used (seq 0 5)) as [j|] eqn:Hs.
  - destruct (yellow_scan_some _ _ _ _ _ Hs) as [Hj Hju].
    apply andb_prop in Hju as [Hu Hja]. apply negb_true_iff in Hu.
    assert (Hpos : (0 <? cnt ch) = true).
    { apply Nat.ltb_lt. rewrite Hc.
      pose proof (count_upd_used (fun k => opt_eqb (String.get k a) ch) used j (seq 0 5)
                    (seq_NoDup 5 0) Hj Hu) as E. cbv beta in E. rewrite Hja in E. lia. }
    rewrite Hpos. split; cbn [fst snd].
    + intro k. unfold upd. destruct (k =? i); [reflexivity|apply Hr].
    + intro c. unfold cnt_set.
      pose proof (count_upd_used (fun k => opt_eqb (String.get k a) c) used j (seq 0 5)
                    (seq_NoDup 5 0) Hj Hu) as E. cbv beta in E.
      destruct (opt_eqb c ch) eqn:Hcc.
      * apply opt_eqb_eq in Hcc. subst c. rewrite Hja in E. rewrite Hc. lia.
      * apply opt_eqb_eq in Hja. rewrite Hja, opt_eqb_sym, Hcc in E. rewrite Hc. lia.
  - apply yellow_scan_none in Hs.
    assert (Hpos : (0 <? cnt ch) = false) by (apply Nat.ltb_ge; rewrite Hc; lia).
    rewrite Hpos. split; assumption.
Qed.

Lemma pass2_sim_fold g a l s1 s2 :
  count_rel a s1 s2 ->
  count_rel a (fold_left (pattern_pass2 g) l s1) (fold_left (patternFor_pass2 g a) l s2).
Proof.
  revert s1 s2. induction l as [|i l IH]; intros s1 s2 H; simpl; auto.
  apply IH, pass2_sim_step, H.
Qed.

(** [patternFor] (used array) computes the same code as [pattern] (counts). *)
Lemma patternFor_eq_pattern g a : patternFor g a = pattern g a.
Proof.
  unfold patternFor, pattern.
  destruct (pattern_pass1_fold g a 5) as [H1r H1c].
  destruct (patternFor_pass1_fold g a 5) as [F1r F1u].
  set (s1 := fold_left (pattern_pass1 g a) _ _) in *.
  set (s2 := fold_left (patternFor_pass1 g a) _ _) in *.
  assert (Hrel : count_rel a s1 s2).
  { split.
    - intro i. rewrite H1r, F1r. reflexivity.
    - intro c. rewrite H1c. f_equal. apply filter_ext_seq. intros j Hj.
      rewrite F1u. replace (j <? 5) with true by (symmetry; apply Nat.ltb_lt; exact Hj).
      reflexivity. }
  destruct (pass2_sim_fold g a (seq 0 5) s1 s2 Hrel) as [Hr _].
  symmetry. apply join_res_ext. intros i _. apply Hr.
Qed.

Lemma counts_collect_fold a used n c :
  fold_left (patternFor_counts_collect a used) (seq 0 n) (fun _ => 0) c =
  List.length (filter (fun j => negb (used j) && opt_eqb (String.get j a) c) (seq 0 n)).
Proof.
  induction n as [|n IH]; [reflexivity|].
  rewrite seq_S, fold_left_app, length_filter_app. simpl.
  unfold patternFor_counts_collect at 1.
  destruct (used n); simpl; [lia|].
  unfold cnt_set. rewrite (opt_eqb_sym c).
  destruct (opt_eqb (String.get n a) c) eqn:E; simpl.
  - apply opt_eqb_eq in E. subst c. rewrite IH. lia.
  - rewrite IH. lia.
Qed.

Lemma pattern_pass2_other g s i j : j <> i -> fst (pattern_pass2 g s i) j = fst s j.
Proof.
  destruct s as [r cnt]. intro H. unfold pattern_pass2.
  destruct (Ascii.eqb (r i) "2"%char); [reflexivity|].
  destruct (0 <? cnt (String.get i g)); [apply upd_neq, H|reflexivity].
Qed.

Lemma counts_pass2_fold g l (s1 s2 : (nat -> ascii) * cnt_t) :
  NoDup l -> (forall i, In i l -> fst s1 i = "0"%char \/ fst s1 i = "2"%char) ->
  (forall i, fst s1 i = fst s2 i) -> (forall c, snd s1 c = snd s2 c) ->
  (forall i, fst (fold_left (pattern_pass2 g) l s1) i =
             fst (fold_left (patternFor_counts_pass2 g) l s2) i).
Proof.
  revert s1 s2. induction l as [|i l IH]; intros s1 s2 Hnd H02 Hr Hc; simpl; [apply Hr|].
  inversion Hnd as [|? ? Hnin Hnd']; subst.
  apply IH; auto.
  - intros k Hk. rewrite pattern_pass2_other by (intros ->; contradiction). apply H02. simpl. auto.
  - destruct s1 as [r1 c1], s2 as [r2 c2]. cbn [fst snd] in *.
    unfold pattern_pass2, patternFor_counts_pass2. rewrite <- Hr, <- Hc.
    destruct (H02 i (or_introl eq_refl)) as [E|E]; rewrite E; simpl; [|exact Hr].
    destruct (0 <? c1 (String.get i g)); simpl; [|exact Hr].
    intro k. unfold upd. destruct (k =? i); [reflexivity|apply Hr].
  - destruct s1 as [r1 c1], s2 as [r2 c2]. cbn [fst snd] in *.
    unfold pattern_pass2, patternFor_counts_pass2. rewrite <- Hr, <- Hc.
    destruct (H02 i (or_introl eq_refl)) as [E|E]; rewrite E; simpl; [|exact Hc].
    destruct (0 <? c1 (String.get i g)); simpl; [|exact Hc].
    intro c. unfold cnt_set. destruct (opt_eqb c (String.get i g)); [reflexivity|apply Hc].
Qed.

(** [patternFor_counts] (part_001) computes the same code as [pattern]. *)
Lemma patternFor_counts_eq_pattern g a : patternFor_counts g a = pattern g a.
Proof.
  unfold patternFor_counts, pattern.
  destruct (pattern_pass1_fold g a 5) as [H1r H1c].
  destruct (patternFor_pass1_fold g a 5) as [F1r F1u].
  set (s1 := fold_left (pattern_pass1 g a) _ _) in *.
  set (s2 := fold_left (patternFor_pass1 g a) _ _) in *.
  symmetry. apply join_res_ext. intros i _.
  apply counts_pass2_fold.
  - apply seq_NoDup.
  - intros k _. rewrite H1r. destruct (_ && _); auto.
  - intro k. cbn [fst snd]. rewrite H1r, F1r. reflexivity.
  - intro c. cbn [fst snd]. rewrite H1c, counts_collect_fold. f_equal. apply filter_ext_seq.
    intros j Hj. rewrite F1u. replace (j <? 5) with true by (symmetry; apply Nat.ltb_lt; exact Hj).
    reflexivity.
Qed.

(** ** C2: duplicate letters are never over-credited *)

Lemma pattern_present_bound (guess answer : string) (c : ascii) :
  let res := pattern guess answer in
  List.length (filter (fun i => opt_eqb (String.get i res) (Some "1"%char)
                                && opt_eqb (String.get i guess) (Some c)) (seq 0 5))
  <= List.length (filter (fun j => negb (opt_eqb (String.get j answer) (String.get j guess))
                                   && opt_eqb (String.get j answer) (Some c)) (seq 0 5)) /\
  List.length (filter (fun j => negb (opt_eqb (String.get j answer) (String.get j guess))
                                && opt_eqb (String.get j answer) (Some c)) (seq 0 5))
  <= List.length (filter (fun j => opt_eqb (String.get j answer) (Some c)) (seq 0 5)).
Proof.
  intro res.
  destruct (pattern_passes guess answer) as (Hp & _ & Hc).
  set (st2 := fold_left _ _ _) in Hp, Hc.
  split.
  - rewrite <- (Hc (Some c)).
    rewrite (filter_ext_seq _ (fun i => Ascii.eqb (fst st2 i) "1"%char
                                        && opt_eqb (String.get i guess) (Some c))).
    + lia.
    + intros j Hj. unfold res. rewrite Hp, get_join_res by exact Hj. reflexivity.
  - apply length_filter_mono. intros j Hj. apply andb_prop in Hj. tauto.
Qed.

(** C2: for every guess and secret and every letter [c], the number of guess
    positions holding [c] that main.js [pattern] marks present-elsewhere
    (['1']) is at most the number of secret positions holding [c] that are not
    matched as correct, hence at most the number of occurrences of [c] in the
    secret; the same holds for part_001 [patternFor] ([patternFor_counts]);
    for guess "allow" against secret "llama" both mark exactly one [l]
    present-elsewhere. *)
Theorem pattern_present_le_unmatched :
  (forall (guess answer : string) (c : ascii),
     forall res, (res = pattern guess answer \/ res = patternFor_counts guess answer) ->
     List.length (filter (fun i => opt_eqb (String.get i res) (Some "1"%char)
                                   && opt_eqb (String.get i guess) (Some c)) (seq 0 5))
     <= List.length (filter (fun j => negb (opt_eqb (String.get j answer) (String.get j guess))
                                      && opt_eqb (String.get j answer) (Some c)) (seq 0 5)) /\
     List.length (filter (fun j => negb (opt_eqb (String.get j answer) (String.get j guess))
                                   && opt_eqb (String.get j answer) (Some c)) (seq 0 5))
     <= List.length (filter (fun j => opt_eqb (String.get j answer) (Some c)) (seq 0 5))) /\
  List.length (filter (fun i => opt_eqb (String.get i (pattern "allow" "llama")) (Some "1"%char)
                                && opt_eqb (String.get i "allow") (Some "l"%char)) (seq 0 5)) = 1 /\
  List.length (filter (fun i => opt_eqb (String.get i (patternFor_counts "allow" "llama"))
                                        (Some "1"%char)
                                && opt_eqb (String.get i "allow") (Some "l"%char)) (seq 0 5)) = 1.
Proof.
  split; [|split; reflexivity].
  intros guess answer c res Hres.
  assert (E : res = pattern guess answer)
    by (destruct Hres as [->| ->]; [reflexivity|apply patternFor_counts_eq_pattern]).
  subst res. apply pattern_present_bound.
Qed.

(** ** C9: all feedback implementations agree *)

(** C9: the used-array two-pass implementation [patternFor] (main.js DP part,
    unnamed/part_000, and dp_solver_2.js [patternOf], which is the same code)
    and the used-array-plus-counts implementation [patternFor_counts]
    (unnamed/part_001) compute, for every guess and secret, exactly the code of
    the count-based two-pass [pattern] of main.js, which is the spec's two-pass
    algorithm (greens first with counts of the unmatched secret letters, then a
    left-to-right pass crediting present-elsewhere while a count remains); the
    equalities hold for all strings, in particular for all 5-letter words. *)
Theorem feedback_implementations_agree :
  forall guess answer : string,
    patternFor guess answer = pattern guess answer /\
    patternFor_counts guess answer = pattern guess answer /\
    patternFor guess answer = patternFor_counts guess answer.
Proof.
  intros guess answer.
  rewrite patternFor_eq_pattern, patternFor_counts_eq_pattern. auto.
Qed.

(** ** C10: the all-correct code and its bucket *)

(** C10: for 5-letter words [g] and [a], the feedback code (main.js [pattern],
    and [patternFor] of main.js DP part / part_000) is the all-correct code
    "22222" if and only if [g = a]; hence when [g] belongs to a duplicate-free
    candidate set [S] of 5-letter words, the all-correct bucket of
    [partitionByPattern(S, g)] is exactly [[g]]. *)
Theorem allCorrect_iff_equal :
  (forall g a : string, String.length g = 5 -> String.length a = 5 ->
     (pattern g a = allCorrect <-> g = a) /\ (patternFor g a = allCorrect <-> g = a)) /\
  (forall (S : list string) (g : string),
     (forall w, In w S -> String.length w = 5) -> NoDup S -> In g S ->
     map_get (partitionByPattern S g) allCorrect = Some [g]).
Proof.
  split.
  - intros g a Hg Ha. rewrite patternFor_eq_pattern.
    split; apply pattern_allCorrect_iff; assumption.
  - intros S g Hlen Hnd Hin. unfold partitionByPattern. rewrite map_get_partitionBy.
    rewrite (filter_ext_in _ (fun x => String.eqb x g)).
    + rewrite filter_eqb_singleton by assumption. reflexivity.
    + intros x Hx. destruct (String.eqb_spec (pattern g x) allCorrect) as [E|E];
        destruct (String.eqb_spec x g) as [->|Hne]; auto.
      * exfalso. apply Hne. symmetry. apply (pattern_allCorrect_iff g x); auto.
      * exfalso. apply E, pattern_allCorrect_iff; auto.
Qed.

Lemma allCorrect_iff_equal_witness :
  (pattern "crane" "crane" = allCorrect <-> "crane"%string = "crane"%string) /\
  map_get (partitionByPattern ["crane"; "slate"; "crate"]%string "slate"%string) allCorrect
    = Some ["slate"%string].
Proof.
  split.
  - apply (proj1 (proj1 allCorrect_iff_equal "crane"%string "crane"%string eq_refl eq_refl)).
  - apply (proj2 allCorrect_iff_equal).
    + intros w Hw. simpl in Hw. repeat destruct Hw as [<-|Hw]; try reflexivity. destruct Hw.
    + repeat constructor; simpl; intuition discriminate.
    + simpl. auto.
Defined.

(* ------------------------------------------------------------------ *)
(** ** Arithmetic of [num] *)

Lemma nle_refl x : nle x x = true.
Proof. destruct x; simpl; [apply Qle_bool_iff, Qle_refl|reflexivity]. Qed.

Lemma nle_trans x y z : nle x y = true -> nle y z = true -> nle x z = true.
Proof.
  destruct x as [a|], y as [b|], z as [c|]; simpl; try discriminate; try reflexivity.
  rewrite !Qle_bool_iff. apply Qle_trans.
Qed.

Lemma nle_infty x : nle x Infinity = true.
Proof. destruct x; reflexivity. Qed.

Lemma nlt_infty_l x : nlt Infinity x = false.
Proof. unfold nlt. rewrite nle_infty. reflexivity. Qed.

Lemma prob_nonneg k n : (0 <= prob k n)%Q.
Proof.
  unfold prob, Qdiv. apply Qmult_le_0_compat; [|apply Qinv_le_0_compat];
    unfold Qle; simpl; lia.
Qed.

Lemma nonneg_nadd x y : nonneg x -> nonneg y -> nonneg (nadd x y).
Proof. destruct x, y; simpl; auto. intros. lra. Qed.

Lemma nonneg_nscale p x : (0 <= p)%Q -> nonneg x -> nonneg (nscale p x).
Proof. destruct x; simpl; auto. intros. apply Qmult_le_0_compat; assumption. Qed.

Lemma nle_nadd_r x y : nonneg y -> nle x (nadd x y) = true.
Proof.
  destruct x as [a|], y as [b|]; simpl; try reflexivity.
  intro H. apply Qle_bool_iff. lra.
Qed.

Lemma nonneg_of_nle x : nle (Fin 0) x = true -> nonneg x.
Proof. destruct x; simpl; auto. intro H. apply Qle_bool_iff in H. exact H. Qed.

Lemma nle_nonneg x : nonneg x -> nle (Fin 0) x = true.
Proof. destruct x; simpl; auto. intro H. apply Qle_bool_iff. exact H. Qed.

Lemma nle_add1_swap x y : nle x y = true -> nle (nadd x (Fin 1)) (nadd (Fin 1) y) = true.
Proof.
  destruct x as [a|], y as [b|]; simpl; try discriminate; try reflexivity.
  rewrite !Qle_bool_iff. intro. lra.
Qed.

Lemma nle_add1 x y : nle x y = true -> nle (nadd (Fin 1) x) (nadd (Fin 1) y) = true.
Proof.
  destruct x as [a|], y as [b|]; simpl; try discriminate; try reflexivity.
  rewrite !Qle_bool_iff. intro. lra.
Qed.

Lemma nonneg_Fin_prob k n : nonneg (Fin (prob k n * 1)).
Proof. simpl. rewrite Qmult_1_r. apply prob_nonneg. Qed.

Create HintDb numdb.
#[local] Hint Resolve nonneg_nadd nonneg_nscale prob_nonneg nonneg_Fin_prob : numdb.

(* ------------------------------------------------------------------ *)
(** ** Branch-and-bound versus full summation *)

Section Pruning.
Variable PAT : nat -> nat -> string.
Variable solve : list nat -> num.
Hypothesis solve_nonneg : forall b, nonneg (solve b).

Lemma bucketSum_ge n acc bs : nle acc (bucketSum solve n acc bs) = true.
Proof.
  revert acc. induction bs as [|b bs IH]; intro acc; simpl; [apply nle_refl|].
  eapply nle_trans; [|apply IH]. apply nle_nadd_r. auto with numdb.
Qed.

Lemma bucketSum_nonneg n acc bs : nonneg acc -> nonneg (bucketSum solve n acc bs).
Proof.
  intro H. apply nonneg_of_nle. eapply nle_trans; [apply nle_nonneg, H|]. apply bucketSum_ge.
Qed.

(** main.js: the pruned loop either completes the sum or returns [Infinity]
    when the completed sum would not beat [bestE] anyway. *)
Lemma bucketLoop_cases n best acc bs :
  bucketLoop solve n best acc bs = bucketSum solve n acc bs \/
  (bucketLoop solve n best acc bs = Infinity /\
   nle best (nadd (Fin 1) (bucketSum solve n acc bs)) = true).
Proof.
  revert acc. induction bs as [|b bs IH]; intro acc; simpl; [left; reflexivity|].
  destruct (nle best _) eqn:E; [right; split; [reflexivity|]|apply IH].
  eapply nle_trans; [exact E|]. apply nle_add1_swap, bucketSum_ge.
Qed.

Lemma guessLoop_noprune_eq cands gs best bg :
  guessLoop PAT solve cands gs best bg = guessLoop_noprune PAT solve cands gs best bg.
Proof.
  revert best bg. induction gs as [|g gs IH]; intros best bg;
    cbn [guessLoop guessLoop_noprune guessLoopP guessLoop2 guessLoop2_noprune fst];
    [reflexivity|].
  destruct (bucketLoop_cases (List.length cands) best (Fin 0)
              (map snd (partitionBy (PAT g) cands))) as [E|[E1 E2]].
  - rewrite E. destruct (nlt _ best); apply IH.
  - rewrite E1. change (nadd (Fin 1) Infinity) with Infinity. rewrite nlt_infty_l.
    unfold nlt. rewrite E2. apply IH.
Qed.

(** part_000: the pruned loop keeps its partial sum, which already reaches [bestE]. *)
Lemma bucketLoopP_cases n best acc bs :
  bucketLoopP solve n best acc bs = bucketSum solve n acc bs \/
  (nle best (nadd (Fin 1) (bucketLoopP solve n best acc bs)) = true /\
   nle best (nadd (Fin 1) (bucketSum solve n acc bs)) = true).
Proof.
  revert acc. induction bs as [|b bs IH]; intro acc; cbn [bucketLoopP bucketSum];
    [left; reflexivity|].
  match goal with |- context [if nle best ?e then _ else _] =>
    destruct (nle best e) eqn:E end; [right; split; [exact E|]|apply IH].
  eapply nle_trans; [exact E|]. apply nle_add1, bucketSum_ge.
Qed.

Lemma guessLoopP_noprune_eq cands gs best bg :
  guessLoopP PAT solve cands gs best = fst (guessLoop_noprune PAT solve cands gs best bg).
Proof.
  revert best bg. induction gs as [|g gs IH]; intros best bg;
    cbn [guessLoop guessLoop_noprune guessLoopP guessLoop2 guessLoop2_noprune fst];
    [reflexivity|].
  destruct (bucketLoopP_cases (List.length cands) best (Fin 0)
              (map snd (partitionBy (PAT g) cands))) as [E|[E1 E2]].
  - rewrite E. destruct (nlt _ best); apply IH.
  - unfold nlt. rewrite E1, E2. apply IH.
Qed.

(** dp_solver_2: the same with costs [p * 1] and [p * (1 + value)]. *)
Lemma bucketSum2_ge n acc bs : nle acc (bucketSum2 solve n acc bs) = true.
Proof.
  revert acc. induction bs as [|[pat b] bs IH]; intro acc; cbn [bucketSum2];
    [apply nle_refl|].
  eapply nle_trans; [|apply IH].
  destruct (String.eqb pat allCorrect); apply nle_nadd_r; auto with numdb.
  apply nonneg_nscale; [apply prob_nonneg|]. apply nonneg_nadd; [simpl; lra|auto].
Qed.

Lemma bucketLoop2_cases n best acc bs :
  bucketLoop2 solve n best acc bs = bucketSum2 solve n acc bs \/
  (nle best (bucketLoop2 solve n best acc bs) = true /\
   nle best (bucketSum2 solve n acc bs) = true).
Proof.
  revert acc. induction bs as [|[pat b] bs IH]; intro acc; cbn [bucketLoop2 bucketSum2];
    [left; reflexivity|].
  match goal with |- context [if nle best ?e then _ else _] =>
    destruct (nle best e) eqn:E end; [right; split; [exact E|]|apply IH].
  eapply nle_trans; [exact E|]. apply bucketSum2_ge.
Qed.

Lemma guessLoop2_noprune_eq cands gs best bg :
  guessLoop2 PAT solve cands gs best bg = guessLoop2_noprune PAT solve cands gs best bg.
Proof.
  revert best bg. induction gs as [|g gs IH]; intros best bg;
    cbn [guessLoop guessLoop_noprune guessLoopP guessLoop2 guessLoop2_noprune fst];
    [reflexivity|].
  destruct (bucketLoop2_cases (List.length cands) best (Fin 0)
              (partitionBy (PAT g) cands)) as [E|[E1 E2]].
  - rewrite E. destruct (nlt _ best); apply IH.
  - unfold nlt. rewrite E1, E2. apply IH.
Qed.

End Pruning.

(* ------------------------------------------------------------------ *)
(** ** Unfolding equations of the solvers *)

Section Unfold.
Variable PAT : nat -> nat -> string.
Variable f : nat.
Variable c : list nat.
Hypothesis Hc : 2 <= List.length c.

Ltac two_or_more := destruct c as [|x [|y c']]; simpl in Hc; [lia|lia|reflexivity].

Lemma solveState_S :
  solveState PAT (S f) c = fst (guessLoop PAT (solveState PAT f) c c Infinity (-1)%Z).
Proof. two_or_more. Qed.

Lemma solveState_noprune_S :
  solveState_noprune PAT (S f) c =
  fst (guessLoop_noprune PAT (solveState_noprune PAT f) c c Infinity (-1)%Z).
Proof. two_or_more. Qed.

Lemma solveTail_nomemo_S :
  solveTail_nomemo PAT (S f) c = guessLoopP PAT (solveTail_nomemo PAT f) c c Infinity.
Proof. two_or_more. Qed.

Lemma solveState_d2_S :
  solveState_d2 PAT (S f) c = fst (guessLoop2 PAT (solveState_d2 PAT f) c c Infinity (-1)%Z).
Proof. two_or_more. Qed.

Lemma solveState_d2_noprune_S :
  solveState_d2_noprune PAT (S f) c =
  fst (guessLoop2_noprune PAT (solveState_d2_noprune PAT f) c c Infinity (-1)%Z).
Proof. two_or_more. Qed.

Lemma solveState_p1_S :
  solveState_p1 PAT (S f) c = fst (guessLoop1 PAT (solveState_p1 PAT f) c c Infinity (-1)%Z).
Proof. two_or_more. Qed.

End Unfold.

(* ------------------------------------------------------------------ *)
(** ** Extensionality and non-negativity of the unpruned solvers *)

Section NoPrune.
Variable PAT : nat -> nat -> string.

Lemma bucketSum_ext s1 s2 n acc bs :
  (forall b, In b bs -> s1 b = s2 b) -> bucketSum s1 n acc bs = bucketSum s2 n acc bs.
Proof.
  revert acc. induction bs as [|b bs IH]; intros acc H; cbn [bucketSum]; [reflexivity|].
  rewrite (H b (or_introl eq_refl)). apply IH. intros; apply H; right; assumption.
Qed.

Lemma guessLoop_noprune_ext s1 s2 cands gs best bg :
  (forall g b, In g gs -> In b (map snd (partitionBy (PAT g) cands)) -> s1 b = s2 b) ->
  guessLoop_noprune PAT s1 cands gs best bg = guessLoop_noprune PAT s2 cands gs best bg.
Proof.
  revert best bg. induction gs as [|g gs IH]; intros best bg H;
    cbn [guessLoop_noprune]; [reflexivity|].
  rewrite (bucketSum_ext s1 s2) by (intros; apply (H g); [left|]; auto).
  destruct (nlt _ best); apply IH; intros; (apply (H g0); [right|]); auto.
Qed.

Lemma bucketSum2_ext s1 s2 n acc bs :
  (forall b, In b (map snd bs) -> s1 b = s2 b) -> bucketSum2 s1 n acc bs = bucketSum2 s2 n acc bs.
Proof.
  revert acc. induction bs as [|[pat b] bs IH]; intros acc H; cbn [bucketSum2]; [reflexivity|].
  rewrite (H b (or_introl eq_refl)). apply IH. intros; apply H; right; assumption.
Qed.

Lemma guessLoop2_noprune_ext s1 s2 cands gs best bg :
  (forall g b, In g gs -> In b (map snd (partitionBy (PAT g) cands)) -> s1 b = s2 b) ->
  guessLoop2_noprune PAT s1 cands gs best bg = guessLoop2_noprune PAT s2 cands gs best bg.
Proof.
  revert best bg. induction gs as [|g gs IH]; intros best bg H;
    cbn [guessLoop2_noprune]; [reflexivity|].
  rewrite (bucketSum2_ext s1 s2) by (intros; apply (H g); [left|]; auto).
  destruct (nlt _ best); apply IH; intros; (apply (H g0); [right|]); auto.
Qed.

Lemma guessLoop_noprune_nonneg s cands gs best bg :
  (forall b, nonneg (s b)) -> nonneg best ->
  nonneg (fst (guessLoop_noprune PAT s cands gs best bg)).
Proof.
  intro Hs. revert best bg. induction gs as [|g gs IH]; intros best bg Hb;
    cbn [guessLoop_noprune fst]; [exact Hb|].
  destruct (nlt _ best); apply IH; [|exact Hb].
  apply nonneg_nadd; [simpl; lra|]. apply bucketSum_nonneg; [exact Hs|simpl; lra].
Qed.

Lemma bucketSum2_nonneg s n acc bs :
  (forall b, nonneg (s b)) -> nonneg acc -> nonneg (bucketSum2 s n acc bs).
Proof.
  intros Hs H. apply nonneg_of_nle. eapply nle_trans; [apply nle_nonneg, H|].
  apply bucketSum2_ge, Hs.
Qed.

Lemma guessLoop2_noprune_nonneg s cands gs best bg :
  (forall b, nonneg (s b)) -> nonneg best ->
  nonneg (fst (guessLoop2_noprune PAT s cands gs best bg)).
Proof.
  intro Hs. revert best bg. induction gs as [|g gs IH]; intros best bg Hb;
    cbn [guessLoop2_noprune fst]; [exact Hb|].
  destruct (nlt _ best); apply IH; [|exact Hb].
  apply bucketSum2_nonneg; [exact Hs|simpl; lra].
Qed.

Ltac small_cases c :=
  destruct c as [|x [|y c']]; [simpl; lra|simpl; lra|].

Lemma solveState_noprune_nonneg f c : nonneg (solveState_noprune PAT f c).
Proof.
  revert c. induction f as [|f IH]; intro c; small_cases c.
  - exact I.
  - rewrite solveState_noprune_S by (simpl; lia).
    apply guessLoop_noprune_nonneg; [exact IH|exact I].
Qed.

Lemma solveState_d2_noprune_nonneg f c : nonneg (solveState_d2_noprune PAT f c).
Proof.
  revert c. induction f as [|f IH]; intro c; small_cases c.
  - exact I.
  - rewrite solveState_d2_noprune_S by (simpl; lia).
    apply guessLoop2_noprune_nonneg; [exact IH|exact I].
Qed.

(** Pruned and unpruned solvers agree at every fuel. *)
Lemma solveState_eq_noprune f c : solveState PAT f c = solveState_noprune PAT f c.
Proof.
  revert c. induction f as [|f IH]; intro c;
    destruct c as [|x [|y c']]; try reflexivity.
  rewrite solveState_S, solveState_noprune_S by (simpl; lia).
  rewrite guessLoop_noprune_eq.
  - f_equal. apply guessLoop_noprune_ext. intros; apply IH.
  - intro b. rewrite IH. apply solveState_noprune_nonneg.
Qed.

Lemma solveTail_nomemo_eq_noprune f c : solveTail_nomemo PAT f c = solveState_noprune PAT f c.
Proof.
  revert c. induction f as [|f IH]; intro c;
    destruct c as [|x [|y c']]; try reflexivity.
  rewrite solveTail_nomemo_S, solveState_noprune_S by (simpl; lia).
  rewrite (guessLoopP_noprune_eq PAT _ ) with (bg := (-1)%Z).
  - f_equal. apply guessLoop_noprune_ext. intros; apply IH.
  - intro b. rewrite IH. apply solveState_noprune_nonneg.
Qed.

Lemma solveState_d2_eq_noprune f c : solveState_d2 PAT f c = solveState_d2_noprune PAT f c.
Proof.
  revert c. induction f as [|f IH]; intro c;
    destruct c as [|x [|y c']]; try reflexivity.
  rewrite solveState_d2_S, solveState_d2_noprune_S by (simpl; lia).
  rewrite guessLoop2_noprune_eq.
  - f_equal. apply guessLoop2_noprune_ext. intros; apply IH.
  - intro b. rewrite IH. apply solveState_d2_noprune_nonneg.
Qed.

End NoPrune.

(** ** C4: branch-and-bound never changes the optimum *)

(** C4: for every pattern table, fuel and candidate set, the branch-and-bound
    solvers return exactly what the solvers summing every bucket return:
    main.js [solveState] (value, and the [(bestE, bestG)] pair of its guess
    loop), part_000 [solveTail] without memo (whose break keeps the partial
    sum), and dp_solver_2 [solveState] (value and [(bestValue, bestGuess)]). *)
Theorem branch_and_bound_preserves_optimum :
  forall (PAT : nat -> nat -> string) (fuel : nat) (cands : list nat),
  solveState PAT fuel cands = solveState_noprune PAT fuel cands /\
  guessLoop PAT (solveState PAT fuel) cands cands Infinity (-1)%Z =
    guessLoop_noprune PAT (solveState_noprune PAT fuel) cands cands Infinity (-1)%Z /\
  solveTail_nomemo PAT fuel cands = solveState_noprune PAT fuel cands /\
  solveState_d2 PAT fuel cands = solveState_d2_noprune PAT fuel cands /\
  guessLoop2 PAT (solveState_d2 PAT fuel) cands cands Infinity (-1)%Z =
    guessLoop2_noprune PAT (solveState_d2_noprune PAT fuel) cands cands Infinity (-1)%Z.
Proof.
  intros PAT fuel cands.
  split; [apply solveState_eq_noprune|].
  split.
  { rewrite guessLoop_noprune_eq.
    - apply guessLoop_noprune_ext. intros; apply solveState_eq_noprune.
    - intro b. rewrite solveState_eq_noprune. apply solveState_noprune_nonneg. }
  split; [apply solveTail_nomemo_eq_noprune|].
  split; [apply solveState_d2_eq_noprune|].
  rewrite guessLoop2_noprune_eq.
  - apply guessLoop2_noprune_ext. intros; apply solveState_d2_eq_noprune.
  - intro b. rewrite solveState_d2_eq_noprune. apply solveState_d2_noprune_nonneg.
Qed.

(* ------------------------------------------------------------------ *)
(** ** Probabilities [|S_p| / |S|] *)

Lemma prob_add a b n : prob (a + b) n == prob a n + prob b n.
Proof.
  unfold prob. rewrite Nat2Z.inj_add, inject_Z_plus. unfold Qdiv. apply Qmult_plus_distr_l.
Qed.

Lemma prob_0 n : prob 0 n == 0.
Proof. unfold prob. simpl. unfold Qdiv. apply Qmult_0_l. Qed.

Lemma prob_diag n : 0 < n -> prob n n == 1.
Proof. intro H. unfold prob. field. unfold Qeq. simpl. lia. Qed.

Lemma prob_mono k k' n : k <= k' -> (prob k n <= prob k' n)%Q.
Proof.
  intro H. unfold prob, Qdiv. apply Qmult_le_compat_r; [|apply Qinv_le_0_compat];
    unfold Qle; simpl; lia.
Qed.

Lemma prob_gt1 k n : 0 < n -> n < k -> (1 < prob k n)%Q.
Proof.
  intros H1 H2. unfold prob. apply Qlt_shift_div_l.
  - unfold Qlt. simpl. lia.
  - rewrite Qmult_1_l. unfold Qlt. simpl. lia.
Qed.

Lemma prob_mul_diag n : 0 < n -> prob n n * inject_Z (Z.of_nat n) == inject_Z (Z.of_nat n).
Proof. intro H. rewrite prob_diag by exact H. apply Qmult_1_l. Qed.

(* ------------------------------------------------------------------ *)
(** ** Buckets of a guess taken from the candidate set *)

Section Buckets.
Variable PAT : nat -> nat -> string.
Variable N : nat.
Hypothesis HPAT : pat_ok PAT N.

Lemma in_buckets_inv (key : nat -> string) c b :
  In b (map snd (partitionBy key c)) ->
  exists k, In (k, b) (partitionBy key c) /\
            b = filter (fun x => String.eqb (key x) k) c /\ b <> [].
Proof.
  intro H. apply in_map_iff in H as [[k b'] [Hs Hin]]. simpl in Hs; subst b'.
  exists k. split; [exact Hin|]. apply partitionBy_In, Hin.
Qed.

Lemma bucket_valid c g b :
  valid_cands N c -> In b (map snd (partitionBy (PAT g) c)) ->
  valid_cands N b /\ b <> [] /\ incl b c.
Proof.
  intros [Hnd Hlt] Hb. destruct (in_buckets_inv _ _ _ Hb) as [k [_ [-> Hne]]].
  split; [split|split; [exact Hne|]].
  - apply NoDup_filter, Hnd.
  - apply Forall_forall. intros x Hx. apply filter_In in Hx as [Hx _].
    rewrite Forall_forall in Hlt. auto.
  - intros x Hx. apply filter_In in Hx. tauto.
Qed.

Lemma bucket_smaller c g b :
  valid_cands N c -> In g c -> 2 <= List.length c ->
  In b (map snd (partitionBy (PAT g) c)) -> List.length b < List.length c.
Proof.
  intros [Hnd Hlt] Hg H2 Hb. rewrite Forall_forall in Hlt.
  destruct (in_buckets_inv _ _ _ Hb) as [k [_ [Eb _]]].
  assert (Hndb : NoDup b) by (rewrite Eb; apply NoDup_filter, Hnd).
  assert (Hin : forall x, In x b -> In x c /\ PAT g x = k).
  { intros x Hx. rewrite Eb in Hx. apply filter_In in Hx as [Hx Hk].
    split; [exact Hx|]. apply String.eqb_eq, Hk. }
  destruct (String.eqb_spec k allCorrect) as [->|Hk].
  - assert (List.length b <= List.length [g]); [|simpl in *; lia].
    apply NoDup_incl_length; [exact Hndb|].
    intros x Hx. destruct (Hin x Hx) as [Hxc Hpx].
    apply HPAT in Hpx; auto. left; exact Hpx.
  - assert (List.length (g :: b) <= List.length c); [|simpl in *; lia].
    apply NoDup_incl_length.
    + constructor; [|exact Hndb]. intro Hgb. destruct (Hin g Hgb) as [_ Hpg].
      apply Hk. rewrite <- Hpg. apply HPAT; auto.
    + intros x [<-|Hx]; [exact Hg|apply Hin, Hx].
Qed.

(** Fuel independence: any fuel at least [|cands|] gives the same value. *)
Lemma solveState_noprune_fuel f1 f2 c :
  valid_cands N c -> List.length c <= f1 -> List.length c <= f2 ->
  solveState_noprune PAT f1 c = solveState_noprune PAT f2 c.
Proof.
  revert f2 c. induction f1 as [|f1 IH]; intros f2 c Hv H1 H2; destruct f2 as [|f2];
    (destruct c as [|x [|y c']]; [reflexivity|reflexivity|simpl in H1, H2; try lia]).
  set (c := x :: y :: c') in *.
  rewrite !solveState_noprune_S by (simpl; lia). f_equal.
  apply guessLoop_noprune_ext. intros g b Hg Hb.
  pose proof (bucket_smaller c g b Hv Hg ltac:(simpl; lia) Hb).
  apply IH; [apply (bucket_valid c g b Hv Hb)| |]; unfold c in *; simpl in *; lia.
Qed.

Lemma solveState_d2_noprune_fuel f1 f2 c :
  valid_cands N c -> List.length c <= f1 -> List.length c <= f2 ->
  solveState_d2_noprune PAT f1 c = solveState_d2_noprune PAT f2 c.
Proof.
  revert f2 c. induction f1 as [|f1 IH]; intros f2 c Hv H1 H2; destruct f2 as [|f2];
    (destruct c as [|x [|y c']]; [reflexivity|reflexivity|simpl in H1, H2; try lia]).
  set (c := x :: y :: c') in *.
  rewrite !solveState_d2_noprune_S by (simpl; lia). f_equal.
  apply guessLoop2_noprune_ext. intros g b Hg Hb.
  pose proof (bucket_smaller c g b Hv Hg ltac:(simpl; lia) Hb).
  apply IH; [apply (bucket_valid c g b Hv Hb)| |]; unfold c in *; simpl in *; lia.
Qed.

End Buckets.

Lemma pat_okb_spec PAT N : pat_okb PAT N = true -> pat_ok PAT N.
Proof.
  unfold pat_okb. intros H g a Hg Ha. rewrite forallb_forall in H.
  specialize (H g (proj2 (in_seq N 0 g) ltac:(lia))). rewrite forallb_forall in H.
  specialize (H a (proj2 (in_seq N 0 a) ltac:(lia))).
  apply Bool.eqb_prop in H.
  destruct (String.eqb_spec (PAT g a) allCorrect), (Nat.eqb_spec g a); simpl in H;
    try discriminate; intuition congruence.
Qed.

Lemma valid_seq N : valid_cands N (seq 0 N).
Proof.
  split; [apply seq_NoDup|]. apply Forall_forall. intros x Hx. apply in_seq in Hx. lia.
Qed.

(* ------------------------------------------------------------------ *)
(** ** The memo of part_000 *)

Lemma memo_get_In m k v : memo_get m k = Some v -> In (k, v) m.
Proof.
  induction m as [|[k' v'] m IH]; simpl; [discriminate|].
  destruct (list_eq_dec Nat.eq_dec k' k) as [->|]; [intro H; inversion H; left; reflexivity|].
  intro H; right; auto.
Qed.

Lemma memo_set_In m k v k' v' :
  In (k', v') (memo_set m k v) -> (k' = k /\ v' = v) \/ In (k', v') m.
Proof.
  induction m as [|[k0 v0] m IH]; simpl.
  - intros [H|[]]. inversion H. left; split; reflexivity.
  - destruct (list_eq_dec Nat.eq_dec k0 k) as [->|]; simpl.
    + intros [H|H]; [inversion H; left; split; reflexivity|right; right; exact H].
    + intros [H|H]; [right; left; exact H|]. destruct (IH H) as [?|?]; [left|right; right]; auto.
Qed.

Lemma In_skipn {A : Type} n (l : list A) x : In x (skipn n l) -> In x l.
Proof. intro H. rewrite <- (firstn_skipn n l). apply in_or_app. right. exact H. Qed.

Lemma memoStore_In MAX FRAC m k v k' v' :
  In (k', v') (memoStore MAX FRAC m k v) -> (k' = k /\ v' = v) \/ In (k', v') m.
Proof.
  unfold memoStore. intro H. apply memo_set_In in H as [H|H]; [left; exact H|right].
  destruct (MAX <=? List.length m); [apply In_skipn in H|]; exact H.
Qed.

Lemma solveTailWith_S PAT store f c m :
  2 <= List.length c ->
  solveTailWith PAT store (S f) c m =
  match memo_get m c with
  | Some cached => (cached, m)
  | None => let '(bestE, m1) := guessLoopT PAT (solveTailWith PAT store f) c c Infinity m in
            (bestE, store m1 c bestE)
  end.
Proof. intro H. destruct c as [|x [|y c']]; simpl in H; [lia|lia|reflexivity]. Qed.

Section MemoTransparency.
Variable PAT : nat -> nat -> string.
Variable N : nat.
Hypothesis HPAT : pat_ok PAT N.
Variable store : memo_t -> list nat -> num -> memo_t.
Hypothesis store_In : forall m k v k' v',
  In (k', v') (store m k v) -> (k' = k /\ v' = v) \/ In (k', v') m.

Lemma bucketLoopT_sim (sm : list nat -> memo_t -> num * memo_t) (s : list nat -> num)
  n best acc bs m :
  (forall b m, In b bs -> memo_ok PAT m -> fst (sm b m) = s b /\ memo_ok PAT (snd (sm b m))) ->
  memo_ok PAT m ->
  fst (bucketLoopT sm n best acc bs m) = bucketLoopP s n best acc bs /\
  memo_ok PAT (snd (bucketLoopT sm n best acc bs m)).
Proof.
  revert acc m. induction bs as [|b bs IH]; intros acc m Hsim Hm;
    cbn [bucketLoopT bucketLoopP]; [split; [reflexivity|exact Hm]|].
  destruct (sm b m) as [subE m1] eqn:E.
  destruct (Hsim b m (or_introl eq_refl) Hm) as [H1 H2]. rewrite E in H1, H2.
  simpl in H1, H2. subst subE.
  destruct (nle best _); [split; [reflexivity|exact H2]|].
  apply IH; [|exact H2]. intros; apply Hsim; [right|]; assumption.
Qed.

Lemma guessLoopT_sim (sm : list nat -> memo_t -> num * memo_t) (s : list nat -> num)
  cands gs best m :
  (forall g b m, In g gs -> In b (map snd (partitionBy (PAT g) cands)) -> memo_ok PAT m ->
     fst (sm b m) = s b /\ memo_ok PAT (snd (sm b m))) ->
  memo_ok PAT m ->
  fst (guessLoopT PAT sm cands gs best m) = guessLoopP PAT s cands gs best /\
  memo_ok PAT (snd (guessLoopT PAT sm cands gs best m)).
Proof.
  revert best m. induction gs as [|g gs IH]; intros best m Hsim Hm;
    cbn [guessLoopT guessLoopP]; [split; [reflexivity|exact Hm]|].
  destruct (bucketLoopT sm (List.length cands) best (Fin 0)
              (map snd (partitionBy (PAT g) cands)) m) as [eT m1] eqn:E.
  destruct (bucketLoopT_sim sm s (List.length cands) best (Fin 0)
              (map snd (partitionBy (PAT g) cands)) m) as [H1 H2];
    [intros; apply (Hsim g); [left; reflexivity| |]; assumption|exact Hm|].
  rewrite E in H1, H2. simpl in H1, H2. subst eT.
  destruct (nlt _ best); (apply IH; [|exact H2]); intros; (apply (Hsim g0); [right| |]); assumption.
Qed.

(** The memo-free value does not depend on fuel beyond [|cands|]. *)
Lemma solveTail_nomemo_fuel f1 f2 c :
  valid_cands N c -> List.length c <= f1 -> List.length c <= f2 ->
  solveTail_nomemo PAT f1 c = solveTail_nomemo PAT f2 c.
Proof.
  intros. rewrite !solveTail_nomemo_eq_noprune. apply (solveState_noprune_fuel PAT N); assumption.
Qed.

Lemma solveTailWith_sim f c m :
  valid_cands N c -> List.length c <= f -> memo_ok PAT m ->
  fst (solveTailWith PAT store f c m) = solveTail_nomemo PAT f c /\
  memo_ok PAT (snd (solveTailWith PAT store f c m)).
Proof.
  revert c m. induction f as [|f IH]; intros c m Hv Hf Hm;
    (destruct c as [|x [|y c']]; [split; [reflexivity|exact Hm]|split; [reflexivity|exact Hm]|]);
    [simpl in Hf; lia|].
  set (c := x :: y :: c') in *.
  assert (H2 : 2 <= List.length c) by (unfold c; simpl; lia).
  rewrite solveTailWith_S by exact H2.
  destruct (memo_get m c) as [v|] eqn:Eg.
  - split; [|exact Hm]. cbn [fst].
    rewrite (Hm c v (memo_get_In _ _ _ Eg)). apply solveTail_nomemo_fuel; auto.
  - destruct (guessLoopT PAT (solveTailWith PAT store f) c c Infinity m) as [bestE m1] eqn:E.
    destruct (guessLoopT_sim (solveTailWith PAT store f) (solveTail_nomemo PAT f)
                c c Infinity m) as [H1 H3]; [|exact Hm|].
    { intros g b m' Hg Hb Hm'. pose proof (bucket_smaller PAT N HPAT c g b Hv Hg H2 Hb).
      apply IH; [apply (bucket_valid PAT N c g b Hv Hb)|lia|exact Hm']. }
    rewrite E in H1, H3. cbn [fst snd] in H1, H3.
    rewrite solveTail_nomemo_S by exact H2.
    split; [exact H1|]. cbn [snd].
    intros k v Hin. destruct (store_In _ _ _ _ _ Hin) as [[-> ->]|Hin']; [|exact (H3 k v Hin')].
    rewrite H1, <- solveTail_nomemo_S by exact H2.
    apply solveTail_nomemo_fuel; auto.
Qed.

End MemoTransparency.

(** ** C5: the memo is transparent *)

(** C5: for a pattern table whose all-correct code is exactly the diagonal,
    a duplicate-free candidate set of indices [cands], enough fuel, and a
    starting memo whose entries are all correct (the empty memo, or the memo
    left by an earlier call), part_000 [solveTail] returns the memo-free
    value [solveTail_nomemo], whatever the capacity [MAX_MEMO_ENTRIES] and
    eviction fraction of [memoStore]; so does the same solver with an
    unbounded [memo.set].  The memo left behind stays correct. *)
Theorem memo_transparent :
  forall (PAT : nat -> nat -> string) (N : nat), pat_ok PAT N ->
  forall (MAX_MEMO_ENTRIES : nat) (EVICT_FRACTION : Q) (fuel : nat) (cands : list nat)
         (memo : memo_t),
  valid_cands N cands -> List.length cands <= fuel -> memo_ok PAT memo ->
  fst (solveTail PAT MAX_MEMO_ENTRIES EVICT_FRACTION fuel cands memo) =
    solveTail_nomemo PAT fuel cands /\
  memo_ok PAT (snd (solveTail PAT MAX_MEMO_ENTRIES EVICT_FRACTION fuel cands memo)) /\
  fst (solveTail_unbounded PAT fuel cands memo) = solveTail_nomemo PAT fuel cands /\
  memo_ok PAT (snd (solveTail_unbounded PAT fuel cands memo)).
Proof.
  intros PAT N HPAT MAX FRAC fuel cands memo Hv Hf Hm.
  destruct (solveTailWith_sim PAT N HPAT (memoStore MAX FRAC) (memoStore_In MAX FRAC)
              fuel cands memo Hv Hf Hm) as [H1 H2].
  destruct (solveTailWith_sim PAT N HPAT memo_set memo_set_In fuel cands memo Hv Hf Hm)
    as [H3 H4].
  unfold solveTail, solveTail_unbounded. auto.
Qed.

Lemma memo_transparent_witness :
  (pat_ok (buildTable W4) 4 /\ valid_cands 4 (seq 0 4) /\ 4 <= 4 /\ memo_ok (buildTable W4) []) /\
  fst (solveTail (buildTable W4) 1 (1#10) 4 (seq 0 4) []) =
    solveTail_nomemo (buildTable W4) 4 (seq 0 4).
Proof.
  assert (HP : pat_ok (buildTable W4) 4) by (apply pat_okb_spec; vm_compute; reflexivity).
  assert (Hm : memo_ok (buildTable W4) []) by (intros k v []).
  split; [split; [exact HP|split; [apply valid_seq|split; [lia|exact Hm]]]|].
  exact (proj1 (memo_transparent (buildTable W4) 4 HP 1 (1#10) 4 (seq 0 4) [] (valid_seq 4)
                  (le_n 4) Hm)).
Defined.

(* ------------------------------------------------------------------ *)
(** ** Bounds on the expected number of steps *)

Lemma Qnat_le a b : a <= b -> (inject_Z (Z.of_nat a) <= inject_Z (Z.of_nat b))%Q.
Proof. intro H. unfold Qle. simpl. lia. Qed.

Lemma Qnat_add a b :
  inject_Z (Z.of_nat (a + b)) = (inject_Z (Z.of_nat a) + inject_Z (Z.of_nat b))%Q.
Proof. rewrite Nat2Z.inj_add. apply inject_Z_plus. Qed.

Lemma prob_pos k n : 0 < k -> 0 < n -> (0 < prob k n)%Q.
Proof.
  intros H1 H2. unfold prob. apply Qlt_shift_div_l.
  - unfold Qlt. simpl. lia.
  - rewrite Qmult_0_l. unfold Qlt. simpl. lia.
Qed.

Lemma list_sum_ge {A : Type} (f : A -> nat) l x : In x l -> f x <= list_sum (map f l).
Proof.
  induction l as [|y l IH]; simpl; [tauto|]. intros [->|H]; [lia|]. specialize (IH H). lia.
Qed.

Lemma map_get_Some_In {A : Type} (m : list (string * list A)) k b :
  map_get m k = Some b -> In (k, b) m.
Proof.
  induction m as [|[k' b'] m IH]; simpl; [discriminate|].
  destruct (String.eqb_spec k' k) as [->|]; [intro H; inversion H; left; reflexivity|].
  intro H; right; auto.
Qed.

Lemma buckets_total (key : nat -> string) c :
  list_sum (map (@List.length nat) (map snd (partitionBy key c))) = List.length c.
Proof.
  rewrite map_map. destruct (partitionBy_spec key c) as (_ & _ & _ & _ & H & _). exact H.
Qed.

Lemma bucketSum_bounds s n bs a (M : Q) :
  (forall b, In b bs -> exists q, s b = Fin q /\ (1 <= q)%Q /\ (q <= M)%Q) ->
  exists t, bucketSum s n (Fin a) bs = Fin t /\
    (a + prob (list_sum (map (@List.length nat) bs)) n <= t)%Q /\
    (t <= a + prob (list_sum (map (@List.length nat) bs)) n * M)%Q.
Proof.
  revert a. induction bs as [|b bs IH]; intros a H; cbn [bucketSum map].
  - exists a. rewrite prob_0. split; [reflexivity|lra].
  - destruct (H b (or_introl eq_refl)) as [q [Eq [Hq1 HqM]]]. rewrite Eq.
    destruct (IH (a + prob (List.length b) n * q)%Q) as [t [Et [Hlo Hhi]]];
      [intros; apply H; right; assumption|].
    exists t. split; [exact Et|].
    change (list_sum (List.length b :: map (@List.length nat) bs))
      with (List.length b + list_sum (map (@List.length nat) bs)).
    rewrite prob_add.
    pose proof (prob_nonneg (List.length b) n) as Hp.
    pose proof (prob_nonneg (list_sum (map (@List.length nat) bs)) n) as Hp'.
    assert (prob (List.length b) n * 1 <= prob (List.length b) n * q)%Q
      by (rewrite !(Qmult_comm (prob _ n)); apply Qmult_le_compat_r; assumption).
    assert (prob (List.length b) n * q <= prob (List.length b) n * M)%Q
      by (rewrite !(Qmult_comm (prob _ n)); apply Qmult_le_compat_r; assumption).
    split; lra.
Qed.

Lemma list_sum_cons x l : list_sum (x :: l) = x + list_sum l.
Proof. reflexivity. Qed.

Lemma bucketSum2_bounds s n bs a (M : Q) :
  (0 <= M)%Q ->
  (forall k b, In (k, b) bs -> k <> allCorrect ->
     exists q, s b = Fin q /\ (1 <= q)%Q /\ (q <= M)%Q) ->
  exists t, bucketSum2 s n (Fin a) bs = Fin t /\
    (a + prob (list_sum (map (fun kb => List.length (snd kb)) bs)) n
       + prob (list_sum (map (fun kb => if String.eqb (fst kb) allCorrect then 0%nat
                                        else List.length (snd kb)) bs)) n <= t)%Q /\
    (t <= a + prob (list_sum (map (fun kb => List.length (snd kb)) bs)) n * (1 + M))%Q.
Proof.
  intro HM. revert a. induction bs as [|[k b] bs IH]; intros a H; cbn [bucketSum2 map].
  - exists a. rewrite !prob_0. split; [reflexivity|lra].
  - rewrite !list_sum_cons. cbn [fst snd].
    pose proof (prob_nonneg (List.length b) n) as Hp.
    pose proof (prob_nonneg (list_sum (map (fun kb => List.length (snd kb)) bs)) n) as Hp'.
    destruct (String.eqb_spec k allCorrect) as [Ek|Ek].
    + destruct (IH (a + prob (List.length b) n * 1)%Q) as [t [Et [Hlo Hhi]]];
        [intros k' b' Hin Hk'; apply (H k' b'); [right|]; assumption|].
      exists t. split; [exact Et|]. rewrite !prob_add, prob_0.
      assert (prob (List.length b) n * 1 <= prob (List.length b) n * (1 + M))%Q
        by (rewrite !(Qmult_comm (prob _ n)); apply Qmult_le_compat_r; lra).
      split; lra.
    + destruct (H k b (or_introl eq_refl) Ek) as [q [Eq [Hq1 HqM]]]. rewrite Eq.
      cbn [nadd nscale].
      destruct (IH (a + prob (List.length b) n * (1 + q))%Q) as [t [Et [Hlo Hhi]]];
        [intros k' b' Hin Hk'; apply (H k' b'); [right|]; assumption|].
      exists t. split; [exact Et|]. rewrite !prob_add.
      assert (prob (List.length b) n * 2 <= prob (List.length b) n * (1 + q))%Q
        by (rewrite !(Qmult_comm (prob _ n)); apply Qmult_le_compat_r; lra).
      assert (prob (List.length b) n * (1 + q) <= prob (List.length b) n * (1 + M))%Q
        by (rewrite !(Qmult_comm (prob _ n)); apply Qmult_le_compat_r; lra).
      split; lra.
Qed.

Lemma Qnat_pred n : 0 < n ->
  inject_Z (Z.of_nat n) = (1 + inject_Z (Z.of_nat (n - 1)))%Q.
Proof.
  intro H. replace n with (1 + (n - 1)) at 1 by lia. rewrite Qnat_add. reflexivity.
Qed.

Section Bounds.
Variable PAT : nat -> nat -> string.
Variable N : nat.
Hypothesis HPAT : pat_ok PAT N.

Lemma guessLoop_noprune_range s cands gs best bg (P : Q -> Prop) :
  (forall g, In g gs -> exists q,
     nadd (Fin 1) (bucketSum s (List.length cands) (Fin 0)
                     (map snd (partitionBy (PAT g) cands))) = Fin q /\ P q) ->
  (best = Infinity \/ exists q, best = Fin q /\ P q) ->
  (gs <> [] \/ best <> Infinity) ->
  exists q, fst (guessLoop_noprune PAT s cands gs best bg) = Fin q /\ P q.
Proof.
  revert best bg. induction gs as [|g gs IH]; intros best bg Hg Hb Hne;
    cbn [guessLoop_noprune fst].
  - destruct Hne as [H|H]; [congruence|]. destruct Hb as [->|Hb]; [congruence|exact Hb].
  - destruct (Hg g (or_introl eq_refl)) as [q [Eq Pq]]. rewrite Eq.
    destruct (nlt (Fin q) best) eqn:El; apply IH.
    + intros; apply Hg; right; assumption.
    + right; exists q; auto.
    + right; discriminate.
    + intros; apply Hg; right; assumption.
    + exact Hb.
    + right. intro Hi. subst best. discriminate El.
Qed.

Lemma guessLoop2_noprune_range s cands gs best bg (P : Q -> Prop) :
  (forall g, In g gs -> exists q,
     bucketSum2 s (List.length cands) (Fin 0) (partitionBy (PAT g) cands) = Fin q /\ P q) ->
  (best = Infinity \/ exists q, best = Fin q /\ P q) ->
  (gs <> [] \/ best <> Infinity) ->
  exists q, fst (guessLoop2_noprune PAT s cands gs best bg) = Fin q /\ P q.
Proof.
  revert best bg. induction gs as [|g gs IH]; intros best bg Hg Hb Hne;
    cbn [guessLoop2_noprune fst].
  - destruct Hne as [H|H]; [congruence|]. destruct Hb as [->|Hb]; [congruence|exact Hb].
  - destruct (Hg g (or_introl eq_refl)) as [q [Eq Pq]]. rewrite Eq.
    destruct (nlt (Fin q) best) eqn:El; apply IH.
    + intros; apply Hg; right; assumption.
    + right; exists q; auto.
    + right; discriminate.
    + intros; apply Hg; right; assumption.
    + exact Hb.
    + right. intro Hi. subst best. discriminate El.
Qed.

Lemma in_valid c x : valid_cands N c -> In x c -> x < N.
Proof. intros [_ H] Hx. rewrite Forall_forall in H. auto. Qed.

(** main.js: [E(S) = 1] on singletons, [2 <= E(S) <= |S|] otherwise. *)
Lemma solveState_noprune_bounds f c :
  valid_cands N c -> c <> [] -> List.length c <= f ->
  exists q, solveState_noprune PAT f c = Fin q /\ (1 <= q)%Q /\
    (q <= inject_Z (Z.of_nat (List.length c)))%Q /\
    (List.length c = 1 -> q == 1) /\ (2 <= List.length c -> (2 <= q)%Q).
Proof.
  revert c. induction f as [|f IH]; intros c Hv Hne Hf;
    (destruct c as [|x [|y c']]; [congruence| |]).
  1, 3: exists 1%Q; split; [reflexivity|]; split; [lra|];
        split; [unfold Qle; simpl; lia|]; split; [intros; reflexivity|simpl; lia].
  - simpl in Hf; lia.
  - set (c := x :: y :: c') in *. set (n := List.length c) in *.
    assert (Hn : 2 <= n) by (unfold n, c; simpl; lia).
    rewrite solveState_noprune_S by exact Hn.
    destruct (guessLoop_noprune_range (solveState_noprune PAT f) c c Infinity (-1)%Z
                (fun q => 2 <= q /\ q <= inject_Z (Z.of_nat n))%Q) as [q [Eq [Hq1 Hq2]]].
    + intros g Hg. fold n.
      destruct (bucketSum_bounds (solveState_noprune PAT f) n
                  (map snd (partitionBy (PAT g) c)) 0 (inject_Z (Z.of_nat (n - 1))))
        as [t [Et [Hlo Hhi]]].
      { intros b Hb. pose proof (bucket_smaller PAT N HPAT c g b Hv Hg Hn Hb) as Hlt.
        destruct (bucket_valid PAT N c g b Hv Hb) as [Hvb [Hneb _]].
        destruct (IH b Hvb Hneb ltac:(fold n in Hlt; lia)) as [qb [Eb [Hb1 [Hb2 _]]]].
        exists qb. split; [exact Eb|]. split; [exact Hb1|].
        eapply Qle_trans; [exact Hb2|]. apply Qnat_le. fold n in Hlt. lia. }
      rewrite buckets_total in Hlo, Hhi. fold n in Hlo, Hhi.
      rewrite prob_diag in Hlo, Hhi by lia.
      exists (1 + t)%Q. split; [rewrite Et; reflexivity|].
      rewrite (Qnat_pred n) by lia. split; lra.
    + left; reflexivity.
    + left; discriminate.
    + exists q. split; [exact Eq|]. split; [lra|]. split; [exact Hq2|].
      split; [intro; lia|intros; exact Hq1].
Qed.

(** dp_solver_2: [E(S) = 1] on singletons, [1 < E(S) <= |S|] otherwise. *)
Lemma solveState_d2_noprune_bounds f c :
  valid_cands N c -> c <> [] -> List.length c <= f ->
  exists q, solveState_d2_noprune PAT f c = Fin q /\ (1 <= q)%Q /\
    (q <= inject_Z (Z.of_nat (List.length c)))%Q /\
    (List.length c = 1 -> q == 1) /\ (2 <= List.length c -> (1 < q)%Q).
Proof.
  revert c. induction f as [|f IH]; intros c Hv Hne Hf;
    (destruct c as [|x [|y c']]; [congruence| |]).
  1, 3: exists 1%Q; split; [reflexivity|]; split; [lra|];
        split; [unfold Qle; simpl; lia|]; split; [intros; reflexivity|simpl; lia].
  - simpl in Hf; lia.
  - set (c := x :: y :: c') in *. set (n := List.length c) in *.
    assert (Hn : 2 <= n) by (unfold n, c; simpl; lia).
    rewrite solveState_d2_noprune_S by exact Hn.
    destruct (guessLoop2_noprune_range (solveState_d2_noprune PAT f) c c Infinity (-1)%Z
                (fun q => 1 < q /\ q <= inject_Z (Z.of_nat n))%Q) as [q [Eq [Hq1 Hq2]]].
    + intros g Hg. fold n.
      destruct (bucketSum2_bounds (solveState_d2_noprune PAT f) n
                  (partitionBy (PAT g) c) 0 (inject_Z (Z.of_nat (n - 1))))
        as [t [Et [Hlo Hhi]]].
      { unfold Qle. simpl. lia. }
      { intros k b Hkb _. assert (Hb : In b (map snd (partitionBy (PAT g) c)))
          by (change b with (snd (k, b)); apply in_map, Hkb).
        pose proof (bucket_smaller PAT N HPAT c g b Hv Hg Hn Hb) as Hlt.
        destruct (bucket_valid PAT N c g b Hv Hb) as [Hvb [Hneb _]].
        destruct (IH b Hvb Hneb ltac:(fold n in Hlt; lia)) as [qb [Eb [Hb1 [Hb2 _]]]].
        exists qb. split; [exact Eb|]. split; [exact Hb1|].
        eapply Qle_trans; [exact Hb2|]. apply Qnat_le. fold n in Hlt. lia. }
      destruct (partitionBy_spec (PAT g) c) as (_ & _ & _ & Hcov & Htot & _).
      rewrite Htot in Hlo, Hhi. fold n in Hlo, Hhi.
      rewrite prob_diag in Hlo, Hhi by lia.
      (* a second candidate [z <> g] lands in a bucket other than the all-correct one *)
      assert (Hz : exists z, In z c /\ z <> g).
      { destruct Hv as [Hnd _]. inversion Hnd as [|? ? Hxn _]; subst.
        destruct (Nat.eq_dec g x) as [->|Hgx].
        - exists y. split; [right; left; reflexivity|]. intros ->. apply Hxn. left. reflexivity.
        - exists x. split; [left; reflexivity|]. intros ->. congruence. }
      destruct Hz as [z [Hzc Hzg]].
      destruct (Hcov z Hzc) as [bz [Ebz Hzb]].
      pose proof (list_sum_ge (fun kb => if String.eqb (fst kb) allCorrect then 0
                                         else List.length (snd kb))
                    (partitionBy (PAT g) c) _ (map_get_Some_In _ _ _ Ebz)) as Hge.
      cbn [fst snd] in Hge.
      destruct (String.eqb_spec (PAT g z) allCorrect) as [Eac|_].
      { exfalso. apply Hzg. symmetry. apply (HPAT g z); auto; eapply in_valid; eauto. }
      assert (Hbz : 1 <= List.length bz) by (destruct bz; [destruct Hzb|simpl; lia]).
      assert (Hpos : (0 < prob 1 n)%Q) by (apply prob_pos; lia).
      pose proof (prob_mono 1 _ n (Nat.le_trans _ _ _ Hbz Hge)) as Hm.
      exists t. split; [exact Et|].
      rewrite (Qnat_pred n) by lia. rewrite Qmult_1_l in Hhi. split; lra.
    + left; reflexivity.
    + left; discriminate.
    + exists q. split; [exact Eq|]. split; [lra|]. split; [exact Hq2|].
      split; [intro; lia|intros; exact Hq1].
Qed.

End Bounds.

(** ** C8: range of the expected number of steps *)

(** C8: for a pattern table whose all-correct code is exactly the diagonal and
    a non-empty duplicate-free candidate set [S] (with enough fuel), the exact
    solvers main.js [solveState] and dp_solver_2 [solveState] return a finite
    value [E] with [E = 1] iff [|S| = 1], [E > 1] when [|S| > 1], and
    [E <= |S|]. *)
Theorem expected_steps_bounds :
  forall (PAT : nat -> nat -> string) (N : nat), pat_ok PAT N ->
  forall (fuel : nat) (cands : list nat),
  valid_cands N cands -> cands <> [] -> List.length cands <= fuel ->
  (exists q, solveState PAT fuel cands = Fin q /\
     (q == 1 <-> List.length cands = 1) /\ (1 < List.length cands -> (1 < q)%Q) /\
     (q <= inject_Z (Z.of_nat (List.length cands)))%Q) /\
  (exists q, solveState_d2 PAT fuel cands = Fin q /\
     (q == 1 <-> List.length cands = 1) /\ (1 < List.length cands -> (1 < q)%Q) /\
     (q <= inject_Z (Z.of_nat (List.length cands)))%Q).
Proof.
  intros PAT N HPAT fuel cands Hv Hne Hf.
  assert (H1 : 1 <= List.length cands) by (destruct cands; [congruence|simpl; lia]).
  split.
  - rewrite solveState_eq_noprune.
    destruct (solveState_noprune_bounds PAT N HPAT fuel cands Hv Hne Hf)
      as [q [Eq [Hq1 [Hqn [Hone Htwo]]]]].
    exists q. split; [exact Eq|]. split; [split|split].
    + intro Hq. destruct (Nat.eq_dec (List.length cands) 1) as [E|E]; [exact E|].
      specialize (Htwo ltac:(lia)). lra.
    + exact Hone.
    + intro H. specialize (Htwo H). lra.
    + exact Hqn.
  - rewrite solveState_d2_eq_noprune.
    destruct (solveState_d2_noprune_bounds PAT N HPAT fuel cands Hv Hne Hf)
      as [q [Eq [Hq1 [Hqn [Hone Hgt]]]]].
    exists q. split; [exact Eq|]. split; [split|split].
    + intro Hq. destruct (Nat.eq_dec (List.length cands) 1) as [E|E]; [exact E|].
      specialize (Hgt ltac:(lia)). lra.
    + exact Hone.
    + intro H. apply Hgt. lia.
    + exact Hqn.
Qed.

Lemma expected_steps_bounds_witness :
  (pat_ok (buildTable W4) 4 /\ valid_cands 4 (seq 0 4) /\ seq 0 4 <> [] /\ 4 <= 4) /\
  (exists q, solveState (buildTable W4) 4 (seq 0 4) = Fin q /\
     (q == 1 <-> 4 = 1) /\ (1 < 4 -> (1 < q)%Q) /\ (q <= inject_Z (Z.of_nat 4))%Q).
Proof.
  assert (HP : pat_ok (buildTable W4) 4) by (apply pat_okb_spec; vm_compute; reflexivity).
  assert (Hne : seq 0 4 <> []) by discriminate.
  split; [split; [exact HP|split; [apply valid_seq|split; [exact Hne|lia]]]|].
  exact (proj1 (expected_steps_bounds (buildTable W4) 4 HP 4 (seq 0 4) (valid_seq 4) Hne
                  (le_n 4))).
Defined.

(* ------------------------------------------------------------------ *)
(** ** Two candidates *)

Lemma partitionBy_two (key : nat -> string) a b :
  key a <> key b -> partitionBy key [a; b] = [(key a, [a]); (key b, [b])].
Proof.
  intro H. unfold partitionBy. simpl.
  destruct (String.eqb_spec (key a) (key b)); [contradiction|reflexivity].
Qed.

Lemma solveState_single PAT f x : solveState PAT f [x] = Fin 1.
Proof. destruct f; reflexivity. Qed.

Lemma solveState_d2_single PAT f x : solveState_d2 PAT f [x] = Fin 1.
Proof. destruct f; reflexivity. Qed.

Lemma solveState_p1_single PAT f x : solveState_p1 PAT f [x] = Fin 1.
Proof. destruct f; reflexivity. Qed.

Section TwoCandidates.
Variable PAT : nat -> nat -> string.
Variable N : nat.
Hypothesis HPAT : pat_ok PAT N.
Variables a b : nat.
Hypothesis Ha : a < N.
Hypothesis Hb : b < N.
Hypothesis Hab : a <> b.

Lemma two_codes :
  PAT a a = allCorrect /\ PAT b b = allCorrect /\
  String.eqb (PAT a b) allCorrect = false /\ String.eqb (PAT b a) allCorrect = false.
Proof.
  split; [apply HPAT; auto|]. split; [apply HPAT; auto|].
  split; apply String.eqb_neq; intro H; apply HPAT in H; auto.
Qed.

Lemma two_partitions :
  partitionBy (PAT a) [a; b] = [(allCorrect, [a]); (PAT a b, [b])] /\
  partitionBy (PAT b) [a; b] = [(PAT b a, [a]); (allCorrect, [b])].
Proof.
  destruct two_codes as (Eaa & Ebb & Eab & Eba).
  apply String.eqb_neq in Eab, Eba.
  split; rewrite partitionBy_two; try rewrite Eaa; try rewrite Ebb; auto.
Qed.

End TwoCandidates.

(** ** C1: two candidates *)

(** C1 (main.js disagrees with the spec): for two distinct candidates [a], [b]
    of a table whose all-correct code is exactly the diagonal, main.js
    [solveState] (and part_000's memo-free [solveTail], the same recurrence)
    returns 2, because it recurses into the all-correct bucket [{g}] and adds
    [1/2 * E({g}) = 1/2] inside [1 + Σ]; dp_solver_2 [solveState] and part_001
    [solveState] return 3/2, the value the spec states. *)
Theorem two_candidates_expected_steps :
  forall (PAT : nat -> nat -> string) (N : nat), pat_ok PAT N ->
  forall (a b fuel : nat), a < N -> b < N -> a <> b ->
  num_eq (solveState PAT (S fuel) [a; b]) (Fin 2) /\
  num_eq (solveTail_nomemo PAT (S fuel) [a; b]) (Fin 2) /\
  num_eq (solveState_d2 PAT (S fuel) [a; b]) (Fin (3 # 2)) /\
  num_eq (solveState_p1 PAT (S fuel) [a; b]) (Fin (3 # 2)).
Proof.
  intros PAT N HPAT a b fuel Ha Hb Hab.
  destruct (two_codes PAT N HPAT a b Ha Hb Hab) as (Eaa & Ebb & Eab & Eba).
  destruct (two_partitions PAT N HPAT a b Ha Hb Hab) as [Pa Pb].
  assert (Hmain : num_eq (solveState PAT (S fuel) [a; b]) (Fin 2)).
  { rewrite solveState_S by (simpl; lia).
    cbn [guessLoop]. rewrite Pa, Pb. cbn [map snd List.length bucketLoop].
    rewrite !solveState_single. vm_compute. reflexivity. }
  split; [exact Hmain|]. split.
  { destruct (branch_and_bound_preserves_optimum PAT (S fuel) [a; b]) as (E1 & _ & E3 & _).
    rewrite E3, <- E1. exact Hmain. }
  split.
  - rewrite solveState_d2_S by (simpl; lia).
    cbn [guessLoop2]. rewrite Pa, Pb. cbn [map snd List.length bucketLoop2].
    rewrite !solveState_d2_single, Eab, Eba. vm_compute. reflexivity.
  - rewrite solveState_p1_S by (simpl; lia).
    cbn [guessLoop1]. rewrite Pa, Pb. cbn [map snd List.length bucketLoop1].
    rewrite !solveState_p1_single, Eab, Eba. vm_compute. reflexivity.
Qed.

Lemma two_candidates_expected_steps_witness :
  (pat_ok (buildTable W2) 2 /\ 0 < 2 /\ 1 < 2 /\ 0 <> 1) /\
  num_eq (solveState (buildTable W2) 1 [0; 1]) (Fin 2) /\
  num_eq (solveState_d2 (buildTable W2) 1 [0; 1]) (Fin (3 # 2)).
Proof.
  assert (HP : pat_ok (buildTable W2) 2) by (apply pat_okb_spec; vm_compute; reflexivity).
  destruct (two_candidates_expected_steps (buildTable W2) 2 HP 0 1 0 ltac:(lia) ltac:(lia)
              ltac:(lia)) as (H1 & _ & H3 & _).
  split; [split; [exact HP|lia]|]. split; assumption.
Defined.

(* ------------------------------------------------------------------ *)
(** ** [num_eq] is a congruence for [nadd] *)

Lemma num_eq_refl x : num_eq x x.
Proof. destruct x; simpl; [reflexivity|exact I]. Qed.

Lemma num_eq_sym x y : num_eq x y -> num_eq y x.
Proof. destruct x, y; simpl; auto. intro H. symmetry. exact H. Qed.

Lemma num_eq_trans x y z : num_eq x y -> num_eq y z -> num_eq x z.
Proof.
  destruct x, y, z; simpl; try tauto. intros H1 H2. rewrite H1. exact H2.
Qed.

#[local] Instance num_eq_Equivalence : Equivalence num_eq.
Proof. split; [exact num_eq_refl|exact num_eq_sym|exact num_eq_trans]. Qed.

#[local] Instance nadd_Proper : Proper (num_eq ==> num_eq ==> num_eq) nadd.
Proof.
  intros [a|] [a'|] Ha [b|] [b'|] Hb; simpl in *; try tauto. rewrite Ha, Hb. reflexivity.
Qed.

#[local] Instance Fin_Proper : Proper (Qeq ==> num_eq) Fin.
Proof. intros a b H. exact H. Qed.

Lemma nadd_assoc x y z : num_eq (nadd (nadd x y) z) (nadd x (nadd y z)).
Proof. destruct x, y, z; simpl; auto. symmetry. apply Qplus_assoc. Qed.

Lemma nadd_comm x y : num_eq (nadd x y) (nadd y x).
Proof. destruct x, y; simpl; auto. apply Qplus_comm. Qed.

Lemma nadd_0_r x : num_eq (nadd x (Fin 0)) x.
Proof. destruct x; simpl; auto. apply Qplus_0_r. Qed.

(* ------------------------------------------------------------------ *)
(** ** Root sums against the spec's root cost *)

(** Summing every bucket, the all-correct one evaluated to 1. *)
Lemma bucketSum_specRootSum s n acc P :
  (forall k b, In (k, b) P -> k = allCorrect -> s b = Fin 1) ->
  num_eq (bucketSum s n acc (map snd P)) (nadd acc (specRootSum s n P)).
Proof.
  revert acc. induction P as [|[k b] P IH]; intros acc H; cbn [map snd bucketSum specRootSum].
  - symmetry. apply nadd_0_r.
  - rewrite IH by (intros; eapply H; [right|]; eauto).
    rewrite nadd_assoc. apply nadd_Proper; [reflexivity|]. apply nadd_Proper; [|reflexivity].
    destruct (String.eqb_spec k allCorrect) as [Ek|Ek]; [|reflexivity].
    rewrite (H k b (or_introl eq_refl) Ek). reflexivity.
Qed.

(** Skipping a bucket-free all-correct code. *)
Lemma rootSum1_specRootSum_none s n acc P :
  map_get P allCorrect = None ->
  num_eq (rootSum1 s n acc P) (nadd acc (specRootSum s n P)).
Proof.
  revert acc. induction P as [|[k b] P IH]; intros acc H; cbn [rootSum1 specRootSum].
  - symmetry. apply nadd_0_r.
  - simpl in H. destruct (String.eqb_spec k allCorrect) as [->|Ek]; [discriminate|].
    rewrite IH by exact H. apply nadd_assoc.
Qed.

Lemma map_get_Some_key {A : Type} (m : list (string * list A)) k b :
  map_get m k = Some b -> In k (map fst m).
Proof. intro H. change k with (fst (k, b)). apply in_map, map_get_Some_In, H. Qed.

(** Skipping the all-correct bucket loses exactly its [p * 1]. *)
Lemma rootSum1_specRootSum s n acc P bAC :
  NoDup (map fst P) -> map_get P allCorrect = Some bAC ->
  num_eq (nadd (rootSum1 s n acc P) (Fin (prob (List.length bAC) n)))
         (nadd acc (specRootSum s n P)).
Proof.
  revert acc. induction P as [|[k b] P IH]; intros acc Hnd H; [discriminate|].
  cbn [rootSum1 specRootSum]. inversion Hnd as [|? ? Hk Hnd']; subst.
  simpl in H. destruct (String.eqb_spec k allCorrect) as [->|Ek].
  - inversion H; subst bAC.
    assert (Hn : map_get P allCorrect = None).
    { destruct (map_get P allCorrect) eqn:E; [|reflexivity].
      exfalso. apply Hk. eapply map_get_Some_key, E. }
    rewrite (rootSum1_specRootSum_none s n acc P Hn).
    rewrite Qmult_1_r. rewrite nadd_assoc, (nadd_comm (specRootSum s n P)). reflexivity.
  - rewrite (IH _ Hnd' H). apply nadd_assoc.
Qed.

Lemma filter_nil_all {A : Type} (f : A -> bool) l :
  (forall x, In x l -> f x = false) -> filter f l = [].
Proof.
  induction l as [|x l IH]; simpl; [reflexivity|]. intro H.
  rewrite (H x (or_introl eq_refl)). apply IH. intros; apply H; right; assumption.
Qed.

Lemma filter_singleton_nat (f : nat -> bool) l g :
  NoDup l -> In g l -> (forall x, In x l -> (f x = true <-> x = g)) -> filter f l = [g].
Proof.
  induction l as [|x l IH]; intros Hnd Hg Hf; [destruct Hg|].
  inversion Hnd as [|? ? Hx Hnd']; subst. simpl.
  destruct (Nat.eq_dec x g) as [->|Hxg].
  - rewrite (proj2 (Hf g (or_introl eq_refl)) eq_refl). f_equal.
    apply filter_nil_all. intros y Hy. destruct (f y) eqn:E; [|reflexivity].
    exfalso. apply (Hf y (or_intror Hy)) in E. subst. contradiction.
  - destruct (f x) eqn:E.
    + exfalso. apply (Hf x (or_introl eq_refl)) in E. contradiction.
    + apply IH; [exact Hnd'|destruct Hg; [congruence|assumption]|].
      intros; apply Hf; right; assumption.
Qed.

Section RootBuckets.
Variable PAT : nat -> nat -> string.
Variable N : nat.
Hypothesis HPAT : pat_ok PAT N.

(** The all-correct bucket of a guess in the set is [[g]] (C10 on indices). *)
Lemma allCorrect_bucket U g :
  valid_cands N U -> In g U -> map_get (partitionBy (PAT g) U) allCorrect = Some [g].
Proof.
  intros Hv Hg. rewrite map_get_partitionBy.
  rewrite (filter_singleton_nat _ U g (proj1 Hv) Hg); [reflexivity|].
  intros x Hx. rewrite String.eqb_eq. split.
  - intro H. symmetry. apply HPAT; [eapply in_valid; eauto..|exact H].
  - intros ->. apply HPAT; [eapply in_valid; eauto..|reflexivity].
Qed.

Lemma allCorrect_bucket_In U g k b :
  valid_cands N U -> In g U -> In (k, b) (partitionBy (PAT g) U) -> k = allCorrect -> b = [g].
Proof.
  intros Hv Hg Hin ->.
  pose proof (map_get_In _ _ _ (NoDup_keys_partitionBy (PAT g) U) Hin) as E.
  rewrite allCorrect_bucket in E by assumption. inversion E. reflexivity.
Qed.

End RootBuckets.

Lemma rootSumT_sim PAT (sm : list nat -> memo_t -> num * memo_t) (s : list nat -> num)
  n acc bs m :
  (forall b m, In b bs -> memo_ok PAT m -> fst (sm b m) = s b /\ memo_ok PAT (snd (sm b m))) ->
  memo_ok PAT m ->
  fst (rootSumT sm n acc bs m) = bucketSum s n acc bs /\ memo_ok PAT (snd (rootSumT sm n acc bs m)).
Proof.
  revert acc m. induction bs as [|b bs IH]; intros acc m Hsim Hm;
    cbn [rootSumT bucketSum]; [split; [reflexivity|exact Hm]|].
  destruct (sm b m) as [subE m1] eqn:E.
  destruct (Hsim b m (or_introl eq_refl) Hm) as [H1 H2]. rewrite E in H1, H2.
  simpl in H1, H2. subst subE.
  apply IH; [|exact H2]. intros; apply Hsim; [right|]; assumption.
Qed.

Lemma solveTail_nomemo_single PAT f x : solveTail_nomemo PAT f [x] = Fin 1.
Proof. destruct f; reflexivity. Qed.

(** ** C3: the root cost of a forced first guess *)

(** C3, counterexample: on the universe [crane, slate] with root [crane],
    part_001 [expectedWithRoot] returns 3/2, while the root cost the claim
    describes (all-correct bucket contributing [p * 1]) is 2. *)
Lemma forced_root_cost_counterexample :
  num_eq (expectedWithRoot (buildTable W2) 2 [0; 1] 0) (Fin (3 # 2)) /\
  num_eq (forcedFirstGuessCost (buildTable W2) 0 [0; 1] (solveState_p1 (buildTable W2) 2))
         (Fin 2).
Proof. split; vm_compute; reflexivity. Qed.

(** C3, amended: for a guess [g] of a duplicate-free universe [U] (pattern
    table with the all-correct code exactly on the diagonal), main.js
    [expectedGivenFirstGuess] and part_000 [solveWithFixedRoot] equal the
    claim's root cost [1 + Σ p_bucket * cost] with the all-correct bucket
    [{g}] contributing [p * 1] (they pass it to the solver, whose base case
    returns 1); part_001 [expectedWithRoot] skips that bucket, which
    contributes 0, so its value is exactly [1/|U|] below that root cost. *)
Theorem forced_root_cost_sources :
  forall (PAT : nat -> nat -> string) (N : nat), pat_ok PAT N ->
  forall (fuel : nat) (U : list nat) (g : nat), valid_cands N U -> In g U ->
  num_eq (expectedGivenFirstGuess PAT fuel g U)
         (forcedFirstGuessCost PAT g U (solveState PAT fuel)) /\
  num_eq (nadd (expectedWithRoot PAT fuel U g) (Fin (prob 1 (List.length U))))
         (forcedFirstGuessCost PAT g U (solveState_p1 PAT fuel)) /\
  (forall (MAX_MEMO_ENTRIES : nat) (EVICT_FRACTION : Q) (memo : memo_t),
     U = seq 0 N -> N <= fuel -> memo_ok PAT memo ->
     num_eq (fst (solveWithFixedRoot PAT MAX_MEMO_ENTRIES EVICT_FRACTION fuel N g memo))
            (forcedFirstGuessCost PAT g U (solveTail_nomemo PAT fuel))).
Proof.
  intros PAT N HPAT fuel U g Hv Hg.
  assert (Hsingle : forall (s : list nat -> num), (forall x, s [x] = Fin 1) ->
            forall k b, In (k, b) (partitionBy (PAT g) U) -> k = allCorrect -> s b = Fin 1).
  { intros s Hs k b Hin Hk. rewrite (allCorrect_bucket_In PAT N HPAT U g k b Hv Hg Hin Hk).
    apply Hs. }
  assert (Hfirst : forall s, (forall x, s [x] = Fin 1) ->
            num_eq (nadd (Fin 1) (bucketSum s (List.length U) (Fin 0)
                                    (map snd (partitionBy (PAT g) U))))
                   (forcedFirstGuessCost PAT g U s)).
  { intros s Hs. unfold forcedFirstGuessCost. apply nadd_Proper; [reflexivity|].
    rewrite bucketSum_specRootSum by (apply Hsingle, Hs).
    rewrite nadd_comm. apply nadd_0_r. }
  split; [apply Hfirst; intro; apply solveState_single|].
  split.
  - unfold expectedWithRoot, forcedFirstGuessCost. rewrite nadd_assoc.
    apply nadd_Proper; [reflexivity|].
    rewrite (rootSum1_specRootSum _ _ _ _ [g] (NoDup_keys_partitionBy _ _)
               (allCorrect_bucket PAT N HPAT U g Hv Hg)).
    rewrite nadd_comm. apply nadd_0_r.
  - intros MAX FRAC memo HU Hf Hm. subst U.
    unfold solveWithFixedRoot.
    destruct (rootSumT_sim PAT (fun arr m => solveTail PAT MAX FRAC fuel arr m)
                (solveTail_nomemo PAT fuel) N (Fin 0)
                (map snd (partitionBy (PAT g) (seq 0 N))) memo) as [H1 _]; [|exact Hm|].
    { intros b m Hb Hm'. destruct (bucket_valid PAT N (seq 0 N) g b (valid_seq N) Hb)
        as [Hvb [_ Hinc]].
      apply (solveTailWith_sim PAT N HPAT); [exact (memoStore_In MAX FRAC)|exact Hvb| |exact Hm'].
      apply Nat.le_trans with (List.length (seq 0 N));
        [apply NoDup_incl_length; [apply Hvb|exact Hinc]|rewrite length_seq; exact Hf]. }
    destruct (rootSumT _ _ _ _ _) as [eT m1]. cbn [fst] in H1 |- *. subst eT.
    pose proof (Hfirst (solveTail_nomemo PAT fuel) (solveTail_nomemo_single PAT fuel)) as Hx.
    rewrite length_seq in Hx. exact Hx.
Qed.

Lemma forced_root_cost_sources_witness :
  (pat_ok (buildTable W2) 2 /\ valid_cands 2 [0; 1] /\ In 0 [0; 1]) /\
  num_eq (nadd (expectedWithRoot (buildTable W2) 2 [0; 1] 0) (Fin (prob 1 (List.length [0; 1]))))
         (forcedFirstGuessCost (buildTable W2) 0 [0; 1] (solveState_p1 (buildTable W2) 2)).
Proof.
  assert (HP : pat_ok (buildTable W2) 2) by (apply pat_okb_spec; vm_compute; reflexivity).
  assert (Hv : valid_cands 2 [0; 1]) by apply (valid_seq 2).
  assert (Hg : In 0 [0; 1]) by (left; reflexivity).
  split; [split; [exact HP|split; [exact Hv|exact Hg]]|].
  exact (proj1 (proj2 (forced_root_cost_sources (buildTable W2) 2 HP 2 [0; 1] 0 Hv Hg))).
Defined.

(** ** C7: the empty candidate set *)

(** C7, counterexample: on the empty candidate set main.js [solveState] and
    part_000 [solveTail] return the ordinary value 0 (no failure). *)
Lemma empty_candidates_counterexample :
  solveState (buildTable W2) 2 [] = Fin 0 /\
  solveTail (buildTable W2) 1 (1 # 10) 2 [] [] = (Fin 0, []).
Proof. split; reflexivity. Qed.

(** C7, amended: the solvers do not fail on an empty candidate set: main.js
    [solveState], dp_solver_2 [solveState] and part_000 [solveTail] return
    the value 0 (the latter leaving its memo untouched), dp_solver_2 with
    [bestGuess = -1], for every table and fuel, and the partition of the
    empty set is the empty Map. *)
Theorem empty_candidates_value_zero :
  forall (PAT : nat -> nat -> string) (fuel : nat) (MAX_MEMO_ENTRIES : nat)
         (EVICT_FRACTION : Q) (memo : memo_t) (g : nat),
  solveState PAT fuel [] = Fin 0 /\
  solveState_d2 PAT fuel [] = Fin 0 /\
  solveState_d2_result PAT fuel [] = (Fin 0, (-1)%Z) /\
  solveTail PAT MAX_MEMO_ENTRIES EVICT_FRACTION fuel [] memo = (Fin 0, memo) /\
  partitionState PAT [] g = [].
Proof. intros PAT [|fuel] MAX FRAC memo g; repeat split. Qed.

(* ================================================================== *)
(** * Further properties of the code *)

(* ------------------------------------------------------------------ *)
(** ** Order of [num] up to [num_eq] *)

Lemma nle_total_false x y : nle x y = false -> nle y x = true.
Proof.
  destruct x as [a|], y as [b|]; simpl; try discriminate; try reflexivity.
  intro H. apply Qle_bool_iff. destruct (Qlt_le_dec b a) as [Hl|Hl]; [lra|].
  apply Qle_bool_iff in Hl. congruence.
Qed.


Lemma Qle_bool_eq a a' b b' : a == a' -> b == b' -> Qle_bool a b = Qle_bool a' b'.
Proof.
  intros Ha Hb. destruct (Qle_bool a b) eqn:E1, (Qle_bool a' b') eqn:E2; try reflexivity.
  - apply Qle_bool_iff in E1. rewrite Ha, Hb in E1. apply Qle_bool_iff in E1. congruence.
  - apply Qle_bool_iff in E2. rewrite <- Ha, <- Hb in E2. apply Qle_bool_iff in E2. congruence.
Qed.

Lemma nle_eq_l x x' y : num_eq x x' -> nle x y = nle x' y.
Proof.
  destruct x as [a|], x' as [a'|], y as [b|]; simpl; try tauto; try reflexivity.
  intro H. apply Qle_bool_eq; [exact H|reflexivity].
Qed.


Lemma nle_Infinity_l x : nle Infinity x = true -> x = Infinity.
Proof. destruct x; simpl; [discriminate|reflexivity]. Qed.

(* ------------------------------------------------------------------ *)
(** ** The guess loops select a minimum *)

Section ArgMin.
Variable PAT : nat -> nat -> string.
Variable solve : list nat -> num.

(** main.js: the loop value is below its start and below every guess's
    [1 + Σ] and is one of them (or the start). *)
Lemma guessLoop_noprune_argmin cands gs best bg :
  let cost g := nadd (Fin 1) (bucketSum solve (List.length cands) (Fin 0)
                                (map snd (partitionBy (PAT g) cands))) in
  let r := fst (guessLoop_noprune PAT solve cands gs best bg) in
  nle r best = true /\ (forall g, In g gs -> nle r (cost g) = true) /\
  (r = best \/ exists g, In g gs /\ r = cost g).
Proof.
  intros cost. revert best bg. induction gs as [|g gs IH]; intros best bg;
    cbn [guessLoop_noprune fst].
  - split; [apply nle_refl|]. split; [intros _ []|left; reflexivity].
  - fold (cost g). destruct (nlt (cost g) best) eqn:El.
    + destruct (IH (cost g) (Z.of_nat g)) as (H1 & H2 & H3).
      unfold nlt in El. apply negb_true_iff, nle_total_false in El.
      split; [eapply nle_trans; eauto|]. split.
      * intros g' [<-|Hg']; [exact H1|auto].
      * right. destruct H3 as [->|[g' [Hg' ->]]]; [exists g; split; [left|]; reflexivity|exists g'; split; [right; exact Hg'|reflexivity]].
    + destruct (IH best bg) as (H1 & H2 & H3).
      unfold nlt in El. apply negb_false_iff in El.
      split; [exact H1|]. split.
      * intros g' [<-|Hg']; [eapply nle_trans; eauto|auto].
      * destruct H3 as [->|[g' [Hg' ->]]]; [left; reflexivity|right; exists g'; split; [right; exact Hg'|reflexivity]].
Qed.


Hypothesis solve_nonneg : forall b, nonneg (solve b).

(** part_001: the bucket loop with its [break] against the full sum. *)
Lemma rootSum1_ge n acc bs : nle acc (rootSum1 solve n acc bs) = true.
Proof.
  revert acc. induction bs as [|[pat b] bs IH]; intro acc; cbn [rootSum1];
    [apply nle_refl|].
  destruct (String.eqb pat allCorrect); [apply IH|].
  eapply nle_trans; [|apply IH]. apply nle_nadd_r. auto with numdb.
Qed.

Lemma bucketLoop1_cases n best acc bs :
  bucketLoop1 solve n best acc bs = rootSum1 solve n acc bs \/
  (nle best (nadd (Fin 1) (bucketLoop1 solve n best acc bs)) = true /\
   nle best (nadd (Fin 1) (rootSum1 solve n acc bs)) = true).
Proof.
  revert acc. induction bs as [|[pat b] bs IH]; intro acc; cbn [bucketLoop1 rootSum1];
    [left; reflexivity|].
  destruct (String.eqb pat allCorrect); [apply IH|].
  match goal with |- context [if nle best ?e then _ else _] =>
    destruct (nle best e) eqn:E end; [right; split; [exact E|]|apply IH].
  eapply nle_trans; [exact E|]. apply nle_add1, rootSum1_ge.
Qed.

Lemma guessLoop1_argmin cands gs best bg :
  let cost g := nadd (Fin 1) (rootSum1 solve (List.length cands) (Fin 0)
                                (partitionBy (PAT g) cands)) in
  let r := fst (guessLoop1 PAT solve cands gs best bg) in
  nle r best = true /\ (forall g, In g gs -> nle r (cost g) = true) /\
  (r = best \/ exists g, In g gs /\ r = cost g).
Proof.
  intros cost. revert best bg. induction gs as [|g gs IH]; intros best bg;
    cbn [guessLoop1 fst].
  - split; [apply nle_refl|]. split; [intros _ []|left; reflexivity].
  - destruct (bucketLoop1_cases (List.length cands) best (Fin 0) (partitionBy (PAT g) cands))
      as [E|[E1 E2]].
    + rewrite E. fold (cost g). destruct (nlt (cost g) best) eqn:El.
      * destruct (IH (cost g) (Z.of_nat g)) as (H1 & H2 & H3).
        unfold nlt in El. apply negb_true_iff, nle_total_false in El.
        split; [eapply nle_trans; eauto|]. split.
        -- intros g' [<-|Hg']; [exact H1|auto].
        -- right. destruct H3 as [->|[g' [Hg' ->]]]; [exists g; split; [left|]; reflexivity|exists g'; split; [right; exact Hg'|reflexivity]].
      * destruct (IH best bg) as (H1 & H2 & H3).
        unfold nlt in El. apply negb_false_iff in El.
        split; [exact H1|]. split.
        -- intros g' [<-|Hg']; [eapply nle_trans; eauto|auto].
        -- destruct H3 as [->|[g' [Hg' ->]]]; [left; reflexivity|right; exists g'; split; [right; exact Hg'|reflexivity]].
    + unfold nlt. rewrite E1. cbn [negb].
      destruct (IH best bg) as (H1 & H2 & H3).
      split; [exact H1|]. split.
      * intros g' [<-|Hg']; [eapply nle_trans; eauto|auto].
      * destruct H3 as [->|[g' [Hg' ->]]]; [left; reflexivity|right; exists g'; split; [right; exact Hg'|reflexivity]].
Qed.

Lemma guessLoop1_nonneg cands gs best bg :
  nonneg best -> nonneg (fst (guessLoop1 PAT solve cands gs best bg)).
Proof.
  intro Hb. destruct (guessLoop1_argmin cands gs best bg) as (_ & _ & [->|[g [_ ->]]]);
    [exact Hb|].
  apply nonneg_nadd; [simpl; lra|]. apply nonneg_of_nle.
  eapply nle_trans; [|apply rootSum1_ge]. apply nle_refl.
Qed.

End ArgMin.

Lemma solveState_p1_nonneg PAT f c : nonneg (solveState_p1 PAT f c).
Proof.
  revert c. induction f as [|f IH]; intro c; destruct c as [|x [|y c']];
    try (simpl; lra); try exact I.
  rewrite solveState_p1_S by (simpl; lia). apply guessLoop1_nonneg; [exact IH|exact I].
Qed.


Lemma solveState_nonneg PAT f c : nonneg (solveState PAT f c).
Proof. rewrite solveState_eq_noprune. apply solveState_noprune_nonneg. Qed.


(* ------------------------------------------------------------------ *)
(** ** part_001 and dp_solver_2 compute the same recurrence *)













(* ------------------------------------------------------------------ *)
(** ** Forcing the first guess never beats the optimum *)

(** Extra: for a candidate list of at least two indices, main.js
    [solveState(S)] is at most [expectedGivenFirstGuess(g, S)] for every
    [g] in [S] and equal to it for some [g] in [S]; the same holds for
    part_001 [solveState(S)] and [expectedWithRoot(g)] over [allCands = S].
    (The forced-root cost calls the solver on the buckets at the recursion
    depth [fuel] that [solveState] itself uses one level down.) *)
Theorem optimum_is_min_forced_root :
  forall (PAT : nat -> nat -> string) (fuel : nat) (cands : list nat),
  2 <= List.length cands ->
  (forall g, In g cands ->
     nle (solveState PAT (S fuel) cands) (expectedGivenFirstGuess PAT fuel g cands) = true) /\
  (exists g, In g cands /\
     solveState PAT (S fuel) cands = expectedGivenFirstGuess PAT fuel g cands) /\
  (forall g, In g cands ->
     nle (solveState_p1 PAT (S fuel) cands) (expectedWithRoot PAT fuel cands g) = true) /\
  (exists g, In g cands /\
     solveState_p1 PAT (S fuel) cands = expectedWithRoot PAT fuel cands g).
Proof.
  intros PAT f c Hc.
  assert (Hg0 : exists g0, In g0 c) by (destruct c as [|g0 c]; [simpl in Hc; lia|exists g0; left; reflexivity]).
  destruct Hg0 as [g0 Hg0].
  rewrite solveState_S, solveState_p1_S by exact Hc.
  rewrite guessLoop_noprune_eq by apply solveState_nonneg.
  destruct (guessLoop_noprune_argmin PAT (solveState PAT f) c c Infinity (-1)%Z)
    as (_ & H1 & H1').
  destruct (guessLoop1_argmin PAT (solveState_p1 PAT f) (solveState_p1_nonneg PAT f) c c
              Infinity (-1)%Z) as (_ & H2 & H2').
  cbv zeta in H1, H1', H2, H2'.
  split; [exact H1|]. split.
  - destruct H1' as [E|[g [Hg E]]]; [|exists g; split; [exact Hg|exact E]].
    exists g0. split; [exact Hg0|]. rewrite E. symmetry. apply nle_Infinity_l.
    rewrite <- E. apply H1, Hg0.
  - split; [exact H2|].
    destruct H2' as [E|[g [Hg E]]]; [|exists g; split; [exact Hg|exact E]].
    exists g0. split; [exact Hg0|]. rewrite E. symmetry. apply nle_Infinity_l.
    rewrite <- E. apply H2, Hg0.
Qed.

Lemma optimum_is_min_forced_root_witness :
  2 <= List.length [0; 1; 2; 3] /\
  (exists g, In g [0; 1; 2; 3] /\
     solveState (buildTable W4) 4 [0; 1; 2; 3] =
       expectedGivenFirstGuess (buildTable W4) 3 g [0; 1; 2; 3]).
Proof.
  split; [simpl; lia|].
  exact (proj1 (proj2 (optimum_is_min_forced_root (buildTable W4) 3 [0; 1; 2; 3]
                         ltac:(simpl; lia)))).
Defined.

(* ------------------------------------------------------------------ *)
(** ** main.js against dp_solver_2: a gap between [1/|S|] and [1] *)




Section Gap.
Variable PAT : nat -> nat -> string.
Variable N : nat.
Hypothesis HPAT : pat_ok PAT N.



End Gap.



(* ------------------------------------------------------------------ *)
(** ** part_000 [memoStore]: lookups and the size bound *)

Lemma memo_set_get_same m k v : memo_get (memo_set m k v) k = Some v.
Proof.
  induction m as [|[k' v'] m IH]; simpl.
  - destruct (list_eq_dec Nat.eq_dec k k); [reflexivity|congruence].
  - destruct (list_eq_dec Nat.eq_dec k' k) as [->|Hne]; simpl.
    + destruct (list_eq_dec Nat.eq_dec k k); [reflexivity|congruence].
    + destruct (list_eq_dec Nat.eq_dec k' k); [contradiction|exact IH].
Qed.

Lemma memo_set_get_other m k v k' : k' <> k -> memo_get (memo_set m k v) k' = memo_get m k'.
Proof.
  intro Hk. induction m as [|[k0 v0] m IH]; simpl.
  - destruct (list_eq_dec Nat.eq_dec k k'); [congruence|reflexivity].
  - destruct (list_eq_dec Nat.eq_dec k0 k) as [->|Hne]; simpl.
    + destruct (list_eq_dec Nat.eq_dec k k'); [congruence|reflexivity].
    + destruct (list_eq_dec Nat.eq_dec k0 k'); [reflexivity|exact IH].
Qed.

Lemma memo_set_length m k v : List.length (memo_set m k v) <= S (List.length m).
Proof.
  induction m as [|[k' v'] m IH]; simpl; [lia|].
  destruct (list_eq_dec Nat.eq_dec k' k); simpl; lia.
Qed.

Lemma memo_set_keys m k v : map fst (memo_set m k v) = map fst m \/
  map fst (memo_set m k v) = map fst m ++ [k] /\ ~ In k (map fst m).
Proof.
  induction m as [|[k' v'] m IH]; simpl; [right; split; [reflexivity|intros []]|].
  destruct (list_eq_dec Nat.eq_dec k' k) as [->|Hne]; simpl; [left; reflexivity|].
  destruct IH as [->|[-> Hn]]; [left; reflexivity|right; split; [reflexivity|]].
  intros [H|H]; [congruence|contradiction].
Qed.

Lemma memo_set_NoDup m k v : NoDup (map fst m) -> NoDup (map fst (memo_set m k v)).
Proof.
  intro H. destruct (memo_set_keys m k v) as [->|[-> Hn]]; [exact H|].
  apply NoDup_app; [exact H|constructor; [intros []|constructor]|].
  intros x Hx [<-|[]]. contradiction.
Qed.

Lemma skipn_map_fst (t : nat) (m : memo_t) : map fst (skipn t m) = skipn t (map fst m).
Proof.
  revert m. induction t as [|t IH]; intros [|x m]; simpl; try reflexivity. apply IH.
Qed.

Lemma NoDup_skipn {A : Type} t (l : list A) : NoDup l -> NoDup (skipn t l).
Proof.
  revert l. induction t as [|t IH]; intros [|x l] H; simpl; try exact H.
  apply IH. inversion H; assumption.
Qed.

Lemma memo_get_None m k : ~ In k (map fst m) -> memo_get m k = None.
Proof.
  induction m as [|[k' v'] m IH]; simpl; [reflexivity|].
  intro H. destruct (list_eq_dec Nat.eq_dec k' k); [tauto|]. apply IH. tauto.
Qed.

Lemma memo_get_skipn t m k : NoDup (map fst m) ->
  memo_get (skipn t m) k = None \/ memo_get (skipn t m) k = memo_get m k.
Proof.
  revert m. induction t as [|t IH]; intros [|[k' v'] m] H; simpl; try (right; reflexivity).
  inversion H as [|? ? Hk Hnd]; subst.
  destruct (list_eq_dec Nat.eq_dec k' k) as [->|Hne].
  - left. apply memo_get_None. rewrite skipn_map_fst. intro Hin. apply Hk.
    eapply In_skipn, Hin.
  - apply IH, Hnd.
Qed.

Lemma toRemove_pos MAX FRAC : 1 <= toRemove MAX FRAC.
Proof. unfold toRemove. lia. Qed.

(** Extra: part_000 [memoStore] on a memo with distinct keys never changes
    the value of another key: after the store its lookup is the old one, or
    it is gone, and it can only be gone when the memo was full
    ([memo.size >= MAX_MEMO_ENTRIES]) and the key was evicted. *)
Theorem memoStore_get_other :
  forall (MAX_MEMO_ENTRIES : nat) (EVICT_FRACTION : Q) (memo : memo_t) (key key' : list nat) (value : num),
  NoDup (map fst memo) -> key' <> key ->
  memo_get (memoStore MAX_MEMO_ENTRIES EVICT_FRACTION memo key value) key' = memo_get memo key' \/
  (MAX_MEMO_ENTRIES <= List.length memo /\
   memo_get (memoStore MAX_MEMO_ENTRIES EVICT_FRACTION memo key value) key' = None).
Proof.
  intros MAX FRAC m k k' v Hnd Hk. unfold memoStore.
  rewrite memo_set_get_other by exact Hk.
  destruct (Nat.leb_spec MAX (List.length m)) as [Hf|Hf]; [|left; reflexivity].
  destruct (memo_get_skipn (toRemove MAX FRAC) m k' Hnd) as [E|E]; [right; split; assumption|].
  left; exact E.
Qed.

Lemma memoStore_get_other_witness :
  (NoDup (map fst [([0], Fin 1); ([1], Fin 2)]) /\ [0] <> [2]) /\
  (memo_get (memoStore 2 (1 # 10) [([0], Fin 1); ([1], Fin 2)] [2] (Fin 3)) [0] =
     memo_get [([0], Fin 1); ([1], Fin 2)] [0] \/
   (2 <= List.length [([0], Fin 1); ([1], Fin 2)] /\
    memo_get (memoStore 2 (1 # 10) [([0], Fin 1); ([1], Fin 2)] [2] (Fin 3)) [0] = None)).
Proof.
  assert (H1 : NoDup (map fst [([0], Fin 1); ([1], Fin 2)])).
  { simpl. constructor; [intros [H|[]]; discriminate|constructor; [intros []|constructor]]. }
  assert (H2 : [0] <> [2]) by discriminate.
  split; [split; [exact H1|exact H2]|].
  exact (memoStore_get_other 2 (1 # 10) _ [2] [0] (Fin 3) H1 H2).
Defined.

(** Extra: part_000 [memoStore] keeps the memo within [MAX_MEMO_ENTRIES]
    entries (for a capacity of at least one) and its keys distinct, so the
    bound holds through any sequence of stores. *)
Theorem memoStore_bounded :
  forall (MAX_MEMO_ENTRIES : nat) (EVICT_FRACTION : Q) (memo : memo_t) (key : list nat) (value : num),
  1 <= MAX_MEMO_ENTRIES -> List.length memo <= MAX_MEMO_ENTRIES -> NoDup (map fst memo) ->
  List.length (memoStore MAX_MEMO_ENTRIES EVICT_FRACTION memo key value) <= MAX_MEMO_ENTRIES /\
  NoDup (map fst (memoStore MAX_MEMO_ENTRIES EVICT_FRACTION memo key value)).
Proof.
  intros MAX FRAC m k v H1 Hl Hnd. unfold memoStore.
  destruct (Nat.leb_spec MAX (List.length m)) as [Hf|Hf]; split.
  - pose proof (memo_set_length (skipn (toRemove MAX FRAC) m) k v).
    rewrite length_skipn in H. pose proof (toRemove_pos MAX FRAC). lia.
  - apply memo_set_NoDup. rewrite skipn_map_fst. apply NoDup_skipn, Hnd.
  - pose proof (memo_set_length m k v). lia.
  - apply memo_set_NoDup, Hnd.
Qed.

Lemma memoStore_bounded_witness :
  (1 <= 2 /\ List.length [([0], Fin 1); ([1], Fin 2)] <= 2 /\
   NoDup (map fst [([0], Fin 1); ([1], Fin 2)])) /\
  List.length (memoStore 2 (1 # 10) [([0], Fin 1); ([1], Fin 2)] [2] (Fin 3)) <= 2 /\
  NoDup (map fst (memoStore 2 (1 # 10) [([0], Fin 1); ([1], Fin 2)] [2] (Fin 3))).
Proof.
  assert (H1 : NoDup (map fst [([0], Fin 1); ([1], Fin 2)])).
  { simpl. constructor; [intros [H|[]]; discriminate|constructor; [intros []|constructor]]. }
  split; [split; [lia|split; [simpl; lia|exact H1]]|].
  exact (memoStore_bounded 2 (1 # 10) [([0], Fin 1); ([1], Fin 2)] [2] (Fin 3) ltac:(lia) ltac:(simpl; lia) H1).
Defined.

(* ------------------------------------------------------------------ *)
(** ** main.js keyboards: the click handler keeps the filter state consistent *)

Lemma set_has_In s x : set_has s x = true <-> In x s.
Proof.
  unfold set_has. rewrite existsb_exists. split.
  - intros [y [Hy E]]. apply Ascii.eqb_eq in E. subst. exact Hy.
  - intro H. exists x. split; [exact H|apply Ascii.eqb_refl].
Qed.

Lemma set_has_false s x : set_has s x = false <-> ~ In x s.
Proof. rewrite <- set_has_In. destruct (set_has s x); split; congruence. Qed.

Lemma set_add_In s x y : In y (set_add s x) <-> y = x \/ In y s.
Proof.
  unfold set_add. destruct (set_has s x) eqn:E.
  - apply set_has_In in E. split; [tauto|intros [->|H]; assumption].
  - rewrite in_app_iff. simpl. split; [intros [H|[H|[]]]; auto|intros [H|H]; auto].
Qed.

Lemma set_delete_In s x y : In y (snd (set_delete s x)) <-> In y s /\ y <> x.
Proof.
  unfold set_delete. simpl. rewrite filter_In, negb_true_iff.
  destruct (Ascii.eqb_spec y x); split; intros [H1 H2]; try discriminate; auto; contradiction.
Qed.

Lemma set_delete_length s x : List.length (snd (set_delete s x)) <= List.length s.
Proof. apply filter_length_le. Qed.

Lemma set_add_nil x : set_add [] x = [x].
Proof. reflexivity. Qed.

Lemma cond_delete_In s x y :
  In y (if set_has s x then snd (set_delete s x) else s) <-> In y s /\ y <> x.
Proof.
  destruct (set_has s x) eqn:E; [apply set_delete_In|].
  apply set_has_false in E. split; [intro H; split; [exact H|intros ->; contradiction]|tauto].
Qed.

Lemma cond_delete_length s x :
  List.length (if set_has s x then snd (set_delete s x) else s) <= List.length s.
Proof. destruct (set_has s x); [apply set_delete_length|lia]. Qed.

Lemma set_nth_length {A : Type} (l : list A) i x : List.length (set_nth l i x) = List.length l.
Proof. revert i; induction l as [|y l IH]; intros [|i]; simpl; auto. Qed.

Lemma set_nth_In {A : Type} (l : list A) i x y : In y (set_nth l i x) -> y = x \/ In y l.
Proof.
  revert i; induction l as [|z l IH]; intros [|i]; simpl; try tauto;
    intros [H|H]; subst; auto; destruct (IH i H); auto.
Qed.

Lemma Forall_set_nth {A : Type} (P : A -> Prop) l i x :
  Forall P l -> P x -> Forall P (set_nth l i x).
Proof.
  intros H Hx. apply Forall_forall. intros y Hy.
  destruct (set_nth_In l i x y Hy) as [->|Hy']; [exact Hx|]. rewrite Forall_forall in H. auto.
Qed.

Lemma nth_error_set_nth {A : Type} (l : list A) i x :
  i < List.length l -> nth_error (set_nth l i x) i = Some x.
Proof.
  revert i; induction l as [|y l IH]; intros [|i] H; simpl in *; try lia; auto.
  all: apply IH; lia.
Qed.

Lemma nth_error_set_nth_other {A : Type} (l : list A) i j x :
  j <> i -> nth_error (set_nth l i x) j = nth_error l j.
Proof.
  revert i j; induction l as [|y l IH]; intros [|i] [|j] H; simpl; auto; try lia.
  all: apply IH; lia.
Qed.

Lemma skipn_nth_error {A : Type} (l : list A) i s :
  nth_error l i = Some s -> skipn i l = s :: skipn (S i) l.
Proof.
  revert i; induction l as [|y l IH]; intros [|i] H; simpl in *; try discriminate.
  - inversion H; reflexivity.
  - apply IH, H.
Qed.

Lemma firstn_set_nth {A : Type} (l : list A) i x :
  i < List.length l -> firstn (S i) (set_nth l i x) = firstn i l ++ [x].
Proof.
  revert i; induction l as [|y l IH]; intros [|i] H; simpl in *; try lia; [reflexivity|].
  f_equal. apply IH. lia.
Qed.

Lemma skipn_set_nth {A : Type} (l : list A) i x :
  skipn (S i) (set_nth l i x) = skipn (S i) l.
Proof.
  revert i; induction l as [|y l IH]; intros [|i]; try reflexivity.
  change (skipn (S i) (set_nth l i x) = skipn (S i) l). apply IH.
Qed.

Lemma nth_error_lt {A : Type} (l : list A) i : i < List.length l -> exists s, nth_error l i = Some s.
Proof.
  intro H. destruct (nth_error l i) eqn:E; [eauto|].
  apply nth_error_None in E. lia.
Qed.


Lemma stillUsedLoop_spec ps letter i n :
  i + n <= List.length ps ->
  stillUsedLoop ps letter i n = Some (existsb (slot_used letter) (firstn n (skipn i ps))).
Proof.
  revert i; induction n as [|n IH]; intros i H; [reflexivity|].
  destruct (nth_error_lt ps i ltac:(lia)) as [s Hs].
  simpl. rewrite Hs, (skipn_nth_error ps i s Hs). simpl. unfold slot_used.
  destruct (set_has (include s) letter || set_has (exclude s) letter); [reflexivity|].
  apply IH. lia.
Qed.

Lemma stillUsedLoop_5 ps letter :
  List.length ps = 5 -> stillUsedLoop ps letter 0 5 = Some (existsb (slot_used letter) ps).
Proof.
  intro H. rewrite stillUsedLoop_spec by lia. simpl skipn. rewrite firstn_all2 by lia.
  reflexivity.
Qed.


Lemma grayLoop_spec ps letter i n :
  i + n = List.length ps ->
  grayLoop ps letter i n = Some (firstn i ps ++ map (gray_clear letter) (skipn i ps)).
Proof.
  revert i ps; induction n as [|n IH]; intros i ps H.
  - simpl. rewrite skipn_all2 by lia. rewrite firstn_all2 by lia. rewrite app_nil_r.
    reflexivity.
  - destruct (nth_error_lt ps i ltac:(lia)) as [s Hs].
    simpl. rewrite Hs. rewrite IH by (rewrite set_nth_length; lia).
    rewrite firstn_set_nth by lia. rewrite skipn_set_nth, (skipn_nth_error ps i s Hs).
    rewrite <- app_assoc. reflexivity.
Qed.

Lemma grayLoop_5 ps letter :
  List.length ps = 5 -> grayLoop ps letter 0 5 = Some (map (gray_clear letter) ps).
Proof. intro H. rewrite grayLoop_spec by lia. reflexivity. Qed.

Lemma slot_ok_mono gE gE' s : (forall a, In a gE' -> In a gE) -> slot_ok gE s -> slot_ok gE' s.
Proof. intros Hs [H1 H2]. split; [exact H1|]. intros a Ha. specialize (H2 a Ha). firstorder. Qed.

Lemma Forall_slot_ok_mono gE gE' ps :
  (forall a, In a gE' -> In a gE) -> Forall (slot_ok gE) ps -> Forall (slot_ok gE') ps.
Proof. intros Hs H. eapply Forall_impl; [|exact H]. intros s. apply slot_ok_mono, Hs. Qed.

Lemma slot_set_one gE ex l :
  ~ In l gE -> slot_ok gE (mkSlot (set_add [] l) (snd (set_delete ex l))).
Proof.
  intro H. rewrite set_add_nil. split; [simpl; lia|]. cbn [include exclude]. intros a [<-|[]].
  rewrite set_delete_In. split; [tauto|exact H].
Qed.

Lemma set_delete_sub s x a : In a (snd (set_delete s x)) -> In a s.
Proof. rewrite set_delete_In. tauto. Qed.

Lemma green_on_one inc l : (Nat.eqb (List.length inc) 1 && set_has inc l = true) <-> inc = [l].
Proof.
  rewrite andb_true_iff, Nat.eqb_eq, set_has_In. split.
  - intros [H1 H2]. destruct inc as [|x [|y inc]]; simpl in *; try lia.
    destruct H2 as [->|[]]. reflexivity.
  - intros ->. simpl. tauto.
Qed.

(** One click of any keyboard, from a consistent state. *)
Lemma onclick_step kind l st :
  kb_inv st -> exists st', onclick kind l st = Some st' /\ kb_inv st'.
Proof.
  destruct st as [gI gE ps ap]. unfold kb_inv. cbn [pos activePos globalInclude globalExclude].
  intros (Hlen & Hap & Hg & Hps).
  destruct (nth_error_lt ps ap ltac:(lia)) as [s Hs].
  assert (Hso : slot_ok gE s) by (rewrite Forall_forall in Hps; eapply Hps, nth_error_In, Hs).
  destruct Hso as [Hs1 Hs2].
  destruct kind; unfold onclick; cbn [pos activePos globalInclude globalExclude]; try rewrite Hs.
  - (* gInc *)
    unfold toggle. destruct (set_has gI l) eqn:E.
    + eexists; split; [reflexivity|]. cbn [pos activePos globalInclude globalExclude negb andb]. split; [exact Hlen|split; [exact Hap|split]].
      * intros a Ha. apply set_delete_In in Ha. apply Hg, Ha.
      * exact Hps.
    + eexists; split; [reflexivity|]. cbn [pos activePos globalInclude globalExclude negb andb]. split; [exact Hlen|split; [exact Hap|split]].
      * intros a Ha. rewrite set_delete_In. apply set_add_In in Ha as [->|Ha]; [tauto|].
        intros [H _]. exact (Hg a Ha H).
      * eapply Forall_slot_ok_mono; [|exact Hps]. apply set_delete_sub.
  - (* gExc *)
    unfold toggle. destruct (set_has gE l) eqn:E.
    + assert (E' : set_has (snd (set_delete gE l)) l = false)
        by (apply set_has_false; rewrite set_delete_In; tauto).
      rewrite E'. eexists; split; [reflexivity|]. cbn [pos activePos globalInclude globalExclude negb andb]. split; [exact Hlen|split; [exact Hap|split]].
      * intros a Ha H. apply set_delete_In in H. exact (Hg a Ha (proj1 H)).
      * eapply Forall_slot_ok_mono; [|exact Hps]. apply set_delete_sub.
    + assert (E' : set_has (set_add gE l) l = true)
        by (apply set_has_In, set_add_In; left; reflexivity).
      rewrite E'. eexists; split; [reflexivity|]. cbn [pos activePos globalInclude globalExclude negb andb].
      split; [rewrite length_map; exact Hlen|split; [exact Hap|split]].
      * intros a Ha. apply set_delete_In in Ha as [Ha Hal]. rewrite set_add_In.
        intros [H|H]; [contradiction|exact (Hg a Ha H)].
      * apply Forall_map. eapply Forall_impl; [|exact Hps]. intros s' [H1 H2].
        split; [cbn [include exclude]; pose proof (set_delete_length (include s') l); lia|].
        cbn [include exclude]. intros a Ha. apply set_delete_In in Ha as [Ha Hal].
        rewrite set_add_In. specialize (H2 a Ha). intuition.
  - (* pInc *)
    destruct (Nat.eqb (List.length (include s)) 1 && set_has (include s) l) eqn:E.
    + eexists; split; [reflexivity|]. cbn [pos activePos globalInclude globalExclude negb andb]. split; [rewrite set_nth_length; exact Hlen|].
      split; [exact Hap|split; [exact Hg|]].
      apply Forall_set_nth; [exact Hps|]. split; [simpl; lia|intros _ []].
    + eexists; split; [reflexivity|]. cbn [pos activePos globalInclude globalExclude negb andb]. split; [rewrite set_nth_length; exact Hlen|].
      split; [exact Hap|split].
      * intros a Ha H. apply set_delete_In in H. exact (Hg a Ha (proj1 H)).
      * apply Forall_set_nth.
        -- eapply Forall_slot_ok_mono; [|exact Hps]. apply set_delete_sub.
        -- apply slot_set_one. rewrite set_delete_In. tauto.
  - (* pExc *)
    unfold toggle. destruct (set_has (exclude s) l) eqn:E.
    + eexists; split; [reflexivity|]. cbn [pos activePos globalInclude globalExclude negb andb]. split; [rewrite set_nth_length; exact Hlen|].
      split; [exact Hap|split; [exact Hg|]].
      apply Forall_set_nth; [exact Hps|]. split; [exact Hs1|].
      cbn [include exclude]. intros a Ha. rewrite set_delete_In. specialize (Hs2 a Ha). tauto.
    + eexists; split; [reflexivity|]. cbn [pos activePos globalInclude globalExclude negb andb]. split; [rewrite set_nth_length; exact Hlen|].
      split; [exact Hap|split; [exact Hg|]].
      apply Forall_set_nth; [exact Hps|].
      split; [cbn [include exclude]; pose proof (set_delete_length (include s) l); lia|].
      cbn [include exclude]. intros a Ha. apply set_delete_In in Ha as [Ha Hal]. rewrite set_add_In.
      specialize (Hs2 a Ha). intuition.
  - (* basicGreen *)
    destruct (Nat.eqb (List.length (include s)) 1 && set_has (include s) l) eqn:E.
    + rewrite stillUsedLoop_5 by (rewrite set_nth_length; exact Hlen).
      eexists; split; [reflexivity|]. cbn [pos activePos globalInclude globalExclude negb andb]. split; [rewrite set_nth_length; exact Hlen|].
      split; [exact Hap|split].
      * intros a Ha. destruct (existsb _ _); [exact (Hg a Ha)|].
        apply set_delete_In in Ha. exact (Hg a (proj1 Ha)).
      * apply Forall_set_nth; [exact Hps|]. split; [simpl; lia|intros _ []].
    + eexists; split; [reflexivity|]. cbn [pos activePos globalInclude globalExclude negb andb]. split; [rewrite set_nth_length; exact Hlen|].
      split; [exact Hap|split].
      * intros a Ha H. apply set_delete_In in H as [H Hal].
        apply set_add_In in Ha as [->|Ha]; [contradiction|exact (Hg a Ha H)].
      * apply Forall_set_nth.
        -- eapply Forall_slot_ok_mono; [|exact Hps]. apply set_delete_sub.
        -- apply slot_set_one. rewrite set_delete_In. tauto.
  - (* basicYellow *)
    destruct (set_has (exclude s) l) eqn:E.
    + rewrite stillUsedLoop_5 by (rewrite set_nth_length; exact Hlen).
      eexists; split; [reflexivity|]. cbn [pos activePos globalInclude globalExclude negb andb]. split; [rewrite set_nth_length; exact Hlen|].
      split; [exact Hap|split].
      * intros a Ha. destruct (existsb _ _); [exact (Hg a Ha)|].
        apply set_delete_In in Ha. exact (Hg a (proj1 Ha)).
      * apply Forall_set_nth; [exact Hps|]. split; [exact Hs1|].
        cbn [include exclude]. intros a Ha. rewrite set_delete_In. specialize (Hs2 a Ha). tauto.
    + eexists; split; [reflexivity|]. cbn [pos activePos globalInclude globalExclude negb andb]. split; [rewrite set_nth_length; exact Hlen|].
      split; [exact Hap|split].
      * intros a Ha H. apply cond_delete_In in H as [H Hal].
        apply set_add_In in Ha as [->|Ha]; [contradiction|exact (Hg a Ha H)].
      * apply Forall_set_nth.
        -- eapply Forall_slot_ok_mono; [|exact Hps]. intros a Ha. apply cond_delete_In in Ha. tauto.
        -- split; [cbn [include exclude]; pose proof (cond_delete_length (include s) l); lia|].
           cbn [include exclude]. intros a Ha. apply cond_delete_In in Ha as [Ha Hal].
           rewrite set_add_In, cond_delete_In. specialize (Hs2 a Ha). intuition.
  - (* basicGray *)
    unfold toggle. destruct (set_has gE l) eqn:E.
    + assert (E' : set_has (snd (set_delete gE l)) l = false)
        by (apply set_has_false; rewrite set_delete_In; tauto).
      rewrite E'. eexists; split; [reflexivity|]. cbn [pos activePos globalInclude globalExclude negb andb]. split; [exact Hlen|split; [exact Hap|split]].
      * intros a Ha H. apply set_delete_In in H. exact (Hg a Ha (proj1 H)).
      * eapply Forall_slot_ok_mono; [|exact Hps]. apply set_delete_sub.
    + assert (E' : set_has (set_add gE l) l = true)
        by (apply set_has_In, set_add_In; left; reflexivity).
      rewrite E', grayLoop_5 by exact Hlen. eexists; split; [reflexivity|]. cbn [pos activePos globalInclude globalExclude negb andb].
      split; [rewrite length_map; exact Hlen|split; [exact Hap|split]].
      * intros a Ha. apply set_delete_In in Ha as [Ha Hal]. rewrite set_add_In.
        intros [H|H]; [contradiction|exact (Hg a Ha H)].
      * apply Forall_map. eapply Forall_impl; [|exact Hps]. intros s' [H1 H2]. unfold gray_clear.
        split; [cbn [include exclude]; pose proof (set_delete_length (include s') l); lia|].
        cbn [include exclude]. intros a Ha. apply set_delete_In in Ha as [Ha Hal].
        rewrite set_add_In, set_delete_In. specialize (H2 a Ha). intuition.
Qed.

Lemma marks_in_mono gI gI' s : (forall a, In a gI -> In a gI') -> marks_in gI s -> marks_in gI' s.
Proof. unfold marks_in. auto. Qed.

Lemma marks_unused ps gI l :
  Forall (marks_in gI) ps -> existsb (slot_used l) ps = false ->
  Forall (marks_in (snd (set_delete gI l))) ps.
Proof.
  intros H Hu. rewrite Forall_forall in *. intros s Hs a Ha. rewrite set_delete_In.
  split; [exact (H s Hs a Ha)|]. intros ->.
  assert (existsb (slot_used l) ps = true); [|congruence].
  apply existsb_exists. exists s. split; [exact Hs|]. unfold slot_used.
  apply orb_true_iff. destruct Ha as [Ha|Ha]; [left|right]; apply set_has_In, Ha.
Qed.

(** One click of a basic-mode key keeps [basic_inv]. *)
Lemma basic_step kind l st :
  basic_inv st -> kind = basicGreen \/ kind = basicYellow \/ kind = basicGray ->
  exists st', onclick kind l st = Some st' /\ basic_inv st'.
Proof.
  intros [Hk Hu] Hkind.
  destruct (onclick_step kind l st Hk) as [st' [E Hk']].
  exists st'. split; [exact E|split; [exact Hk'|]].
  destruct st as [gI gE ps ap]. destruct Hk as (Hlen & Hap & Hg & Hps).
  cbn [pos activePos globalInclude globalExclude] in *.
  destruct (nth_error_lt ps ap ltac:(lia)) as [s Hs].
  assert (Hus : marks_in gI s) by (rewrite Forall_forall in Hu; eapply Hu, nth_error_In, Hs).
  assert (Hsub : forall a, In a gI -> In a (set_add gI l)) by (intros; apply set_add_In; auto).
  destruct Hkind as [ -> | [ -> | -> ] ]; unfold onclick in E;
    cbn [pos activePos globalInclude globalExclude] in E; try rewrite Hs in E.
  - destruct (Nat.eqb (List.length (include s)) 1 && set_has (include s) l) eqn:Eon.
    + rewrite stillUsedLoop_5 in E by (rewrite set_nth_length; exact Hlen).
      injection E as <-. cbn [pos globalInclude].
      assert (H1 : Forall (marks_in gI) (set_nth ps ap (mkSlot [] (exclude s)))).
      { apply Forall_set_nth; [exact Hu|]. intros a [[]|Ha]. apply Hus. right; exact Ha. }
      destruct (existsb _ _) eqn:Eu; [exact H1|apply marks_unused; assumption].
    + injection E as <-. cbn [pos globalInclude].
      apply Forall_set_nth.
      * eapply Forall_impl; [|exact Hu]. intros s'. apply marks_in_mono, Hsub.
      * rewrite set_add_nil. intros a [[<-|[]]|Ha]; [apply set_add_In; auto|].
        apply Hsub, Hus. right. eapply set_delete_sub, Ha.
  - destruct (set_has (exclude s) l) eqn:Eon.
    + rewrite stillUsedLoop_5 in E by (rewrite set_nth_length; exact Hlen).
      injection E as <-. cbn [pos globalInclude].
      assert (H1 : Forall (marks_in gI)
                     (set_nth ps ap (mkSlot (include s) (snd (set_delete (exclude s) l))))).
      { apply Forall_set_nth; [exact Hu|]. intros a [Ha|Ha]; apply Hus; [left; exact Ha|].
        right. eapply set_delete_sub, Ha. }
      destruct (existsb _ _) eqn:Eu; [exact H1|apply marks_unused; assumption].
    + injection E as <-. cbn [pos globalInclude].
      apply Forall_set_nth.
      * eapply Forall_impl; [|exact Hu]. intros s'. apply marks_in_mono, Hsub.
      * intros a [Ha|Ha]; cbn [include exclude] in Ha.
        -- apply cond_delete_In in Ha. apply Hsub, Hus. left. tauto.
        -- apply set_add_In in Ha as [->|Ha]; [apply set_add_In; auto|].
           apply Hsub, Hus. right. exact Ha.
  - unfold toggle in E. destruct (set_has gE l) eqn:Eon.
    + assert (E' : set_has (snd (set_delete gE l)) l = false)
        by (apply set_has_false; rewrite set_delete_In; tauto).
      rewrite E' in E. injection E as <-. exact Hu.
    + assert (E' : set_has (set_add gE l) l = true)
        by (apply set_has_In, set_add_In; left; reflexivity).
      rewrite E', grayLoop_5 in E by exact Hlen. injection E as <-. cbn [pos globalInclude].
      apply Forall_map. rewrite Forall_forall in *. intros s' Hs' a Ha.
      unfold gray_clear in Ha. cbn [include exclude] in Ha. rewrite !set_delete_In in Ha.
      apply (proj2 (set_delete_In gI l a)). split; [apply (Hu s' Hs')|]; tauto.
Qed.

Lemma includes_In w a : includes w a = true <-> In a (list_ascii_of_string w).
Proof. apply set_has_In. Qed.


Lemma slot_cond_dec w j s :
  (negb (Nat.eqb (List.length (include s)) 0) && negb (set_has_opt (include s) (String.get j w))
   = false /\ set_has_opt (exclude s) (String.get j w) = false) <-> slot_cond w j s.
Proof.
  unfold slot_cond. rewrite andb_false_iff, !negb_false_iff, Nat.eqb_eq, length_zero_iff_nil.
  destruct (String.get j w) as [c|]; cbn [set_has_opt].
  - rewrite set_has_In, set_has_false. split.
    + intros [[H|H] H2]; split; try (intros c' E; inversion E; subst; exact H2).
      * intro; contradiction.
      * intros _. exists c. split; [reflexivity|exact H].
    + intros [H1 H2]. split; [|apply H2; reflexivity].
      destruct (include s) eqn:Ei; [left; reflexivity|right].
      destruct (H1 ltac:(discriminate)) as [c' [E Hc]]. inversion E; subst. exact Hc.
  - split.
    + intros [[H|H] _]; [|discriminate]. split; [intro; contradiction|intros c' E; discriminate].
    + intros [H1 _]. split; [|reflexivity]. left.
      destruct (include s); [reflexivity|]. destruct (H1 ltac:(discriminate)) as [c' [E _]].
      discriminate.
Qed.

Lemma posLoop_spec ps w i n :
  i + n <= List.length ps ->
  exists b, posLoop ps w i n = Some b /\
    (b = true <-> forall j s, i <= j < i + n -> nth_error ps j = Some s -> slot_cond w j s).
Proof.
  revert i; induction n as [|n IH]; intros i H.
  - exists true. split; [reflexivity|]. split; [intros _ j s Hj; lia|reflexivity].
  - destruct (nth_error_lt ps i ltac:(lia)) as [s Hs].
    cbn [posLoop]. rewrite Hs.
    pose proof (slot_cond_dec w i s) as Hd.
    destruct (negb (Nat.eqb (List.length (include s)) 0) &&
              negb (set_has_opt (include s) (String.get i w))) eqn:E1.
    { exists false. split; [reflexivity|]. split; [discriminate|]. intro Hall.
      assert (slot_cond w i s) as Hc by (apply (Hall i s); [lia|exact Hs]).
      apply Hd in Hc. destruct Hc as [Hc _]. congruence. }
    destruct (set_has_opt (exclude s) (String.get i w)) eqn:E2.
    { exists false. split; [reflexivity|]. split; [discriminate|]. intro Hall.
      assert (slot_cond w i s) as Hc by (apply (Hall i s); [lia|exact Hs]).
      apply Hd in Hc. destruct Hc as [_ Hc]. congruence. }
    destruct (IH (S i) ltac:(lia)) as [b [Eb Hb]]. exists b. split; [exact Eb|].
    rewrite Hb. split.
    + intros Hall j s' Hj Hs'. destruct (Nat.eq_dec j i) as [->|Hji].
      * rewrite Hs in Hs'. inversion Hs'; subst. apply Hd. split; reflexivity.
      * apply (Hall j s'); [lia|exact Hs'].
    + intros Hall j s' Hj Hs'. apply (Hall j s'); [lia|exact Hs'].
Qed.

Lemma keepWord_spec tester st w :
  List.length (pos st) = 5 ->
  exists b, keepWord tester st w = Some b /\ (b = true <-> word_ok tester st w).
Proof.
  intro Hlen. unfold keepWord, word_ok.
  destruct (posLoop_spec (pos st) w 0 5 ltac:(lia)) as [b [Eb Hb]].
  assert (Hpos : b = true <-> forall i s, i < 5 -> nth_error (pos st) i = Some s -> slot_cond w i s).
  { rewrite Hb. split; intros H j s Hj; apply H; lia. }
  destruct (match tester with Some t => negb (t w) | None => false end) eqn:Et.
  { exists false. split; [reflexivity|]. split; [discriminate|]. intros [Ht _].
    destruct tester as [t|]; [|discriminate]. rewrite Ht in Et. discriminate. }
  destruct (existsb (includes w) (globalExclude st)) eqn:Ee.
  { exists false. split; [reflexivity|]. split; [discriminate|]. intros [_ [He _]].
    apply existsb_exists in Ee as [a [Ha Hi]]. apply includes_In in Hi. destruct (He a Ha Hi). }
  destruct (negb (forallb (includes w) (globalInclude st))) eqn:Ei.
  { exists false. split; [reflexivity|]. split; [discriminate|]. intros [_ [_ [Hi _]]].
    apply negb_true_iff in Ei. assert (forallb (includes w) (globalInclude st) = true); [|congruence].
    apply forallb_forall. intros a Ha. apply includes_In, Hi, Ha. }
  exists b. split; [exact Eb|]. rewrite Hpos. split.
  - intro H. split; [destruct tester as [t|]; [apply negb_false_iff, Et|exact I]|].
    split; [|split].
    + intros a Ha Hin. assert (existsb (includes w) (globalExclude st) = true); [|congruence].
      apply existsb_exists. exists a. split; [exact Ha|]. apply includes_In, Hin.
    + intros a Ha. apply negb_false_iff in Ei. rewrite forallb_forall in Ei.
      apply includes_In, Ei, Ha.
    + exact H.
  - intros (_ & _ & _ & H). exact H.
Qed.

Lemma apply_filter_spec tester st words :
  List.length (pos st) = 5 ->
  exists out, apply_filter tester st words = Some out /\
    forall w, In w out <-> In w words /\ word_ok tester st w.
Proof.
  intro Hlen. induction words as [|w ws IH].
  - exists []. split; [reflexivity|]. intros w. simpl. tauto.
  - destruct IH as [out [Eo Ho]].
    destruct (keepWord_spec tester st w Hlen) as [b [Eb Hb]].
    exists (if b then w :: out else out). cbn [apply_filter]. rewrite Eb, Eo.
    split; [reflexivity|]. intro w'. destruct b.
    + cbn [In]. rewrite Ho. split.
      * intros [<-|H]; [split; [left; reflexivity|apply Hb; reflexivity]|tauto].
      * intros [[<-|H] Hok]; [left; reflexivity|right; tauto].
    + rewrite Ho. cbn [In]. split; [tauto|].
      intros [[<-|H] Hok]; [|tauto]. apply Hb in Hok. discriminate.
Qed.

Lemma clearLoop_spec ps i n :
  i + n = List.length ps ->
  clearLoop ps i n = Some (firstn i ps ++ repeat (mkSlot [] []) n).
Proof.
  revert i ps; induction n as [|n IH]; intros i ps H.
  - simpl. rewrite firstn_all2 by lia. rewrite app_nil_r. reflexivity.
  - destruct (nth_error_lt ps i ltac:(lia)) as [s Hs].
    simpl. rewrite Hs. rewrite IH by (rewrite set_nth_length; lia).
    rewrite firstn_set_nth by lia. rewrite <- app_assoc. reflexivity.
Qed.

Lemma apply_filter_In tester st words out w :
  apply_filter tester st words = Some out -> In w out ->
  In w words /\ keepWord tester st w = Some true.
Proof.
  revert out. induction words as [|w0 ws IH]; intros out E Hw; cbn [apply_filter] in E.
  - inversion E; subst. destruct Hw.
  - destruct (keepWord tester st w0) as [[|]|] eqn:Ek; [| |discriminate];
      (destruct (apply_filter tester st ws) as [out'|] eqn:Eo; [|discriminate]);
      injection E as <-.
    + destruct Hw as [<-|Hw]; [split; [left; reflexivity|exact Ek]|].
      destruct (IH out' eq_refl Hw). split; [right|]; assumption.
    + destruct (IH out' eq_refl Hw). split; [right|]; assumption.
Qed.

Lemma keepWord_gE tester st w a :
  keepWord tester st w = Some true -> In a (globalExclude st) -> ~ In a (list_ascii_of_string w).
Proof.
  unfold keepWord. intros E Ha Hin.
  destruct (match tester with Some t => negb (t w) | None => false end); [discriminate|].
  assert (existsb (includes w) (globalExclude st) = true) as Ee.
  { apply existsb_exists. exists a. split; [exact Ha|]. apply includes_In, Hin. }
  rewrite Ee in E. discriminate.
Qed.

Lemma keepWord_gI tester st w a :
  keepWord tester st w = Some true -> In a (globalInclude st) -> In a (list_ascii_of_string w).
Proof.
  unfold keepWord. intros E Ha.
  destruct (match tester with Some t => negb (t w) | None => false end); [discriminate|].
  destruct (existsb (includes w) (globalExclude st)); [discriminate|].
  destruct (forallb (includes w) (globalInclude st)) eqn:Ei; [|discriminate].
  rewrite forallb_forall in Ei. apply includes_In, Ei, Ha.
Qed.

Lemma keepWord_slot tester st w j s :
  List.length (pos st) = 5 -> keepWord tester st w = Some true -> j < 5 ->
  nth_error (pos st) j = Some s -> slot_cond w j s.
Proof.
  intros Hlen E Hj Hs.
  destruct (keepWord_spec tester st w Hlen) as [b [Eb Hb]]. rewrite E in Eb.
  injection Eb as <-. destruct (proj1 Hb eq_refl) as (_ & _ & _ & H). exact (H j s Hj Hs).
Qed.

Lemma posLoop_empty w i n m :
  i + n <= m -> posLoop (repeat (mkSlot [] []) m) w i n = Some true.
Proof.
  revert i; induction n as [|n IH]; intros i H; [reflexivity|].
  cbn [posLoop]. rewrite nth_error_repeat by lia. cbn [include exclude List.length Nat.eqb negb andb].
  destruct (String.get i w); cbn [set_has_opt set_has existsb]; apply IH; lia.
Qed.

Lemma initState_basic_inv : basic_inv initState.
Proof.
  split.
  - split; [reflexivity|]. split; [cbn; lia|]. split; [intros a []|].
    apply Forall_forall. intros s Hs. apply repeat_spec in Hs. subst.
    split; [cbn; lia|intros a []].
  - apply Forall_forall. intros s Hs. apply repeat_spec in Hs. subst. intros a [[]|[]].
Qed.

(** Extra: main.js keyboards: from a consistent filter state, a click on any
    key of any of the seven keyboards never throws and leaves a consistent
    state: five slots, no letter both globally included and excluded, at most
    one included letter per slot, and an included letter neither excluded at
    its slot nor globally. *)
Theorem onclick_keeps_kb_inv :
  forall (kind : kbKind) (letter : ascii) (st : kstate),
  kb_inv st -> exists st', onclick kind letter st = Some st' /\ kb_inv st'.
Proof. intros kind letter st H. exact (onclick_step kind letter st H). Qed.

Lemma onclick_keeps_kb_inv_witness :
  kb_inv initState /\
  exists st', onclick basicGreen "a"%char initState = Some st' /\ kb_inv st'.
Proof.
  split; [exact (proj1 initState_basic_inv)|].
  exact (onclick_keeps_kb_inv basicGreen "a"%char initState (proj1 initState_basic_inv)).
Defined.

(** Extra: main.js basic mode: the green, yellow and gray keys keep every
    letter marked at some position (green or yellow) in the global include
    set. *)
Theorem basic_keys_keep_basic_inv :
  forall (letter : ascii) (st : kstate), basic_inv st ->
  (exists st', onclick basicGreen letter st = Some st' /\ basic_inv st') /\
  (exists st', onclick basicYellow letter st = Some st' /\ basic_inv st') /\
  (exists st', onclick basicGray letter st = Some st' /\ basic_inv st').
Proof.
  intros letter st H. split; [|split]; apply basic_step; auto.
Qed.

Lemma basic_keys_keep_basic_inv_witness :
  basic_inv initState /\
  (exists st', onclick basicGreen "e"%char initState = Some st' /\ basic_inv st') /\
  (exists st', onclick basicYellow "e"%char initState = Some st' /\ basic_inv st') /\
  (exists st', onclick basicGray "e"%char initState = Some st' /\ basic_inv st').
Proof.
  split; [exact initState_basic_inv|].
  exact (basic_keys_keep_basic_inv "e"%char initState initState_basic_inv).
Defined.

(** Extra: main.js [apply()] never throws on five slots, and keeps exactly
    the words of [state.all] that the search tester accepts, that contain no
    globally excluded and every globally included letter, and that match
    each slot's included and excluded letters. *)
Theorem apply_keeps_exactly :
  forall (tester : option (string -> bool)) (st : kstate) (words : list string),
  List.length (pos st) = 5 ->
  exists out, apply_filter tester st words = Some out /\
    forall w, In w out <-> In w words /\ word_ok tester st w.
Proof. intros tester st words H. exact (apply_filter_spec tester st words H). Qed.

Lemma apply_keeps_exactly_witness :
  List.length (pos initState) = 5 /\
  exists out, apply_filter None initState ["crane"; "slate"]%string = Some out /\
    forall w, In w out <-> In w ["crane"; "slate"]%string /\ word_ok None initState w.
Proof.
  split; [reflexivity|].
  exact (apply_keeps_exactly None initState ["crane"; "slate"]%string eq_refl).
Defined.

(** Extra: main.js basic mode, click then [apply()]: after a green key turns
    a letter on at the active position, every word left in the list has that
    letter at that position. *)
Theorem green_then_apply :
  forall (tester : option (string -> bool)) (letter : ascii) (st st' : kstate) (s : slot)
         (words out : list string),
  kb_inv st -> nth_error (pos st) (activePos st) = Some s -> include s <> [letter] ->
  onclick basicGreen letter st = Some st' -> apply_filter tester st' words = Some out ->
  forall w, In w out -> String.get (activePos st) w = Some letter.
Proof.
  intros tester l st st' s words out Hk Hs Hon E Ea w Hw.
  destruct st as [gI gE ps ap]. destruct Hk as (Hlen & Hap & _ & _).
  cbn [pos activePos globalInclude globalExclude] in *.
  unfold onclick in E. cbn [pos activePos globalInclude globalExclude] in E. rewrite Hs in E.
  destruct (Nat.eqb (List.length (include s)) 1 && set_has (include s) l) eqn:Eon.
  { apply green_on_one in Eon. contradiction. }
  injection E as <-.
  destruct (apply_filter_In _ _ _ _ _ Ea Hw) as [_ Hkw].
  pose proof (fun H1 H2 => keepWord_slot _ _ w ap
    (mkSlot (set_add [] l) (snd (set_delete (exclude s) l))) H1 Hkw Hap H2) as K.
  cbn [pos] in K. rewrite set_nth_length in K.
  destruct (K Hlen ltac:(apply nth_error_set_nth; lia)) as [Hi _].
  rewrite set_add_nil in Hi. cbn [include] in Hi.
  destruct (Hi ltac:(discriminate)) as [c [Ec [<-|[]]]]. exact Ec.
Qed.

Lemma green_then_apply_witness :
  (kb_inv initState /\ nth_error (pos initState) 0 = Some (mkSlot [] []) /\
   include (mkSlot [] []) <> ["a"%char] /\
   onclick basicGreen "a"%char initState =
     Some (mkK ["a"%char] [] (mkSlot ["a"%char] [] :: repeat (mkSlot [] []) 4) 0) /\
   apply_filter None (mkK ["a"%char] [] (mkSlot ["a"%char] [] :: repeat (mkSlot [] []) 4) 0)
     ["about"; "crane"; "adieu"]%string = Some ["about"; "adieu"]%string) /\
  forall w, In w ["about"; "adieu"]%string -> String.get 0 w = Some "a"%char.
Proof.
  split; [split; [exact (proj1 initState_basic_inv)|split; [reflexivity|split; [discriminate|split; reflexivity]]]|].
  exact (green_then_apply None "a"%char initState _ (mkSlot [] []) ["about"; "crane"; "adieu"]%string _
           (proj1 initState_basic_inv) eq_refl ltac:(discriminate) eq_refl eq_refl).
Defined.

(** Extra: main.js basic mode, click then [apply()]: after a yellow key turns
    a letter on at the active position, every word left in the list contains
    the letter, but not at that position. *)
Theorem yellow_then_apply :
  forall (tester : option (string -> bool)) (letter : ascii) (st st' : kstate) (s : slot)
         (words out : list string),
  kb_inv st -> nth_error (pos st) (activePos st) = Some s -> ~ In letter (exclude s) ->
  onclick basicYellow letter st = Some st' -> apply_filter tester st' words = Some out ->
  forall w, In w out ->
    In letter (list_ascii_of_string w) /\ String.get (activePos st) w <> Some letter.
Proof.
  intros tester l st st' s words out Hk Hs Hoff E Ea w Hw.
  destruct st as [gI gE ps ap]. destruct Hk as (Hlen & Hap & _ & _).
  cbn [pos activePos globalInclude globalExclude] in *.
  unfold onclick in E. cbn [pos activePos globalInclude globalExclude] in E. rewrite Hs in E.
  destruct (set_has (exclude s) l) eqn:Eon.
  { apply set_has_In in Eon. contradiction. }
  injection E as <-.
  destruct (apply_filter_In _ _ _ _ _ Ea Hw) as [_ Hkw].
  split.
  - eapply keepWord_gI; [exact Hkw|]. cbn [globalInclude]. apply set_add_In. left; reflexivity.
  - pose proof (fun H1 H2 => keepWord_slot _ _ w ap
      (mkSlot (if set_has (include s) l then snd (set_delete (include s) l) else include s)
              (set_add (exclude s) l)) H1 Hkw Hap H2) as K.
    cbn [pos] in K. rewrite set_nth_length in K.
    destruct (K Hlen ltac:(apply nth_error_set_nth; lia)) as [_ He].
    intro Ec. apply (He l Ec). cbn [exclude]. apply set_add_In. left; reflexivity.
Qed.

Lemma yellow_then_apply_witness :
  (kb_inv initState /\ nth_error (pos initState) 0 = Some (mkSlot [] []) /\
   ~ In "a"%char (exclude (mkSlot [] [])) /\
   onclick basicYellow "a"%char initState =
     Some (mkK ["a"%char] [] (mkSlot [] ["a"%char] :: repeat (mkSlot [] []) 4) 0) /\
   apply_filter None (mkK ["a"%char] [] (mkSlot [] ["a"%char] :: repeat (mkSlot [] []) 4) 0)
     ["about"; "crane"; "pious"]%string = Some ["crane"]%string) /\
  forall w, In w ["crane"]%string ->
    In "a"%char (list_ascii_of_string w) /\ String.get 0 w <> Some "a"%char.
Proof.
  split; [split; [exact (proj1 initState_basic_inv)|split; [reflexivity|split; [intros []|split; reflexivity]]]|].
  exact (yellow_then_apply None "a"%char initState _ (mkSlot [] []) ["about"; "crane"; "pious"]%string _
           (proj1 initState_basic_inv) eq_refl (fun H => H) eq_refl eq_refl).
Defined.

(** Extra: main.js basic mode, click then [apply()]: after a gray key turns a
    letter gray (it was not excluded before), no word left in the list
    contains it. *)
Theorem gray_then_apply :
  forall (tester : option (string -> bool)) (letter : ascii) (st st' : kstate)
         (words out : list string),
  ~ In letter (globalExclude st) ->
  onclick basicGray letter st = Some st' -> apply_filter tester st' words = Some out ->
  forall w, In w out -> ~ In letter (list_ascii_of_string w).
Proof.
  intros tester l st st' words out Hoff E Ea w Hw.
  destruct st as [gI gE ps ap]. cbn [globalExclude] in Hoff.
  unfold onclick, toggle in E. cbn [pos activePos globalInclude globalExclude] in E.
  apply set_has_false in Hoff. rewrite Hoff in E.
  assert (E' : set_has (set_add gE l) l = true)
    by (apply set_has_In, set_add_In; left; reflexivity).
  rewrite E' in E. destruct (grayLoop ps l 0 5) as [ps'|]; [|discriminate].
  injection E as <-.
  destruct (apply_filter_In _ _ _ _ _ Ea Hw) as [_ Hkw].
  eapply keepWord_gE; [exact Hkw|]. cbn [globalExclude]. apply set_add_In. left; reflexivity.
Qed.

Lemma gray_then_apply_witness :
  (~ In "e"%char (globalExclude initState) /\
   onclick basicGray "e"%char initState =
     Some (mkK [] ["e"%char] (repeat (mkSlot [] []) 5) 0) /\
   apply_filter None (mkK [] ["e"%char] (repeat (mkSlot [] []) 5) 0)
     ["about"; "crane"; "pious"]%string = Some ["about"; "pious"]%string) /\
  forall w, In w ["about"; "pious"]%string -> ~ In "e"%char (list_ascii_of_string w).
Proof.
  split; [split; [intros []|split; reflexivity]|].
  exact (gray_then_apply None "e"%char initState _ ["about"; "crane"; "pious"]%string _
           (fun H => H) eq_refl eq_refl).
Defined.

(** Extra: main.js [clearAll]: on five slots it never throws, leaves a
    consistent basic-mode state, and the following [apply()] (with the
    search tester reset to [null]) keeps every word of [state.all], in
    order. *)
Theorem clearAll_shows_all :
  forall (st : kstate) (words : list string),
  kb_inv st ->
  exists st', clearAll st = Some st' /\ basic_inv st' /\ apply_filter None st' words = Some words.
Proof.
  intros st words Hk. destruct Hk as (Hlen & Hap & _ & _).
  unfold clearAll. rewrite clearLoop_spec by lia. cbn [firstn app].
  eexists; split; [reflexivity|]. split.
  - split.
    + split; [reflexivity|]. split; [exact Hap|]. split; [intros a []|].
      apply Forall_forall. intros s Hs. apply repeat_spec in Hs. subst.
      split; [cbn; lia|intros a []].
    + apply Forall_forall. intros s Hs. apply repeat_spec in Hs. subst. intros a [[]|[]].
  - induction words as [|w ws IH]; [reflexivity|]. cbn [apply_filter].
    unfold keepWord. cbn [pos globalInclude globalExclude existsb forallb negb].
    rewrite posLoop_empty by lia. rewrite IH. reflexivity.
Qed.

Lemma clearAll_shows_all_witness :
  kb_inv (mkK ["a"%char] ["e"%char] (mkSlot ["a"%char] [] :: repeat (mkSlot [] []) 4) 2) /\
  exists st', clearAll (mkK ["a"%char] ["e"%char] (mkSlot ["a"%char] [] :: repeat (mkSlot [] []) 4) 2)
    = Some st' /\ basic_inv st' /\ apply_filter None st' ["about"; "crane"]%string = Some ["about"; "crane"]%string.
Proof.
  assert (H : kb_inv (mkK ["a"%char] ["e"%char] (mkSlot ["a"%char] [] :: repeat (mkSlot [] []) 4) 2)).
  { split; [reflexivity|]. split; [cbn; lia|]. split.
    - cbn. intros a [<-|[]] [H|[]]. discriminate.
    - constructor.
      + split; [cbn; lia|]. cbn [include exclude globalExclude]. intros a [<-|[]].
        split; [intros []|intros [H|[]]; discriminate].
      + apply Forall_forall. intros s Hs. apply repeat_spec in Hs. subst.
        split; [cbn; lia|intros a []]. }
  split; [exact H|]. exact (clearAll_shows_all _ ["about"; "crane"]%string H).
Defined.

(* ------------------------------------------------------------------ *)
(** ** main.js search box *)


Lemma popOps_spec t st out :
  exists pre, st = pre ++ fst (popOps t st out) /\ snd (popOps t st out) = out ++ pre /\
    Forall (fun x => is_op_tok x = true) pre.
Proof.
  revert out; induction st as [|top st IH]; intro out; cbn [popOps].
  - exists []. split; [reflexivity|split; [cbn; rewrite app_nil_r; reflexivity|constructor]].
  - destruct (is_op_tok top && (prec t <=? prec top)) eqn:E.
    + destruct (IH (out ++ [top])) as [pre [H1 [H2 H3]]].
      exists (top :: pre). split; [cbn; f_equal; exact H1|].
      split; [rewrite H2, <- app_assoc; reflexivity|].
      constructor; [apply andb_true_iff in E; tauto|exact H3].
    + exists []. rewrite app_nil_r. split; [reflexivity|split; [reflexivity|constructor]].
Qed.

Lemma popToParen_spec st out :
  stack_ok st ->
  exists pre, snd (popToParen st out) = out ++ pre /\
    Forall (fun x => is_op_tok x = true) pre /\ stack_ok (fst (popToParen st out)).
Proof.
  revert out; induction st as [|top st IH]; intros out H; cbn [popToParen].
  - exists []. split; [cbn; rewrite app_nil_r; reflexivity|split; constructor].
  - inversion H as [|? ? Ht Hst]; subst.
    destruct top; try (destruct Ht as [Ht|Ht]; discriminate).
    + exists []. split; [cbn; rewrite app_nil_r; reflexivity|split; [constructor|exact Hst]].
    + destruct (IH (out ++ [TOr]) Hst) as [pre [H1 [H2 H3]]].
      exists (TOr :: pre). split; [rewrite H1, <- app_assoc; reflexivity|].
      split; [constructor; [reflexivity|exact H2]|exact H3].
    + destruct (IH (out ++ [TAnd]) Hst) as [pre [H1 [H2 H3]]].
      exists (TAnd :: pre). split; [rewrite H1, <- app_assoc; reflexivity|].
      split; [constructor; [reflexivity|exact H2]|exact H3].
Qed.

Lemma Forall_op_no_pat pre :
  Forall (fun x => is_op_tok x = true) pre -> filter is_pat pre = [].
Proof.
  induction 1 as [|x pre Hx _ IH]; [reflexivity|]. cbn. destruct x; try discriminate; exact IH.
Qed.

Lemma Forall_op_no_paren pre :
  Forall (fun x => is_op_tok x = true) pre -> Forall (fun x => is_paren x = false) pre.
Proof. intro H. eapply Forall_impl; [|exact H]. intros [] Hx; try discriminate; reflexivity. Qed.

Lemma rpn_fold_spec ts st out :
  stack_ok st ->
  let r := fold_left rpnStep ts (st, out) in
  stack_ok (fst r) /\
  filter is_pat (snd r) = filter is_pat out ++ filter is_pat ts /\
  (Forall (fun x => is_paren x = false) out -> Forall (fun x => is_paren x = false) (snd r)).
Proof.
  revert st out; induction ts as [|t ts IH]; intros st out Hst; cbn [fold_left].
  - rewrite app_nil_r. split; [exact Hst|split; [reflexivity|auto]].
  - destruct t as [| | | |v]; cbn [rpnStep].
    + destruct (IH (TLParen :: st) out) as (H1 & H2 & H3); [constructor; auto|].
      split; [exact H1|split; [exact H2|exact H3]].
    + destruct (popToParen_spec st out Hst) as [pre [E1 [E2 E3]]].
      destruct (popToParen st out) as [st' out'] eqn:Ep. cbn [fst snd] in *. subst out'.
      destruct (IH st' (out ++ pre) E3) as (H1 & H2 & H3).
      split; [exact H1|split].
      * rewrite H2, filter_app, (Forall_op_no_pat pre E2), app_nil_r. reflexivity.
      * intro Ho. apply H3, Forall_app. split; [exact Ho|apply Forall_op_no_paren, E2].
    + destruct (popOps_spec TOr st out) as [pre [E1 [E2 E3]]].
      destruct (popOps TOr st out) as [st' out'] eqn:Ep. cbn [fst snd] in *. subst out'.
      assert (Hst' : stack_ok (TOr :: st')).
      { constructor; [right; reflexivity|]. rewrite E1 in Hst. apply Forall_app in Hst. tauto. }
      destruct (IH (TOr :: st') (out ++ pre) Hst') as (H1 & H2 & H3).
      split; [exact H1|split].
      * rewrite H2, filter_app, (Forall_op_no_pat pre E3), app_nil_r. reflexivity.
      * intro Ho. apply H3, Forall_app. split; [exact Ho|apply Forall_op_no_paren, E3].
    + destruct (popOps_spec TAnd st out) as [pre [E1 [E2 E3]]].
      destruct (popOps TAnd st out) as [st' out'] eqn:Ep. cbn [fst snd] in *. subst out'.
      assert (Hst' : stack_ok (TAnd :: st')).
      { constructor; [right; reflexivity|]. rewrite E1 in Hst. apply Forall_app in Hst. tauto. }
      destruct (IH (TAnd :: st') (out ++ pre) Hst') as (H1 & H2 & H3).
      split; [exact H1|split].
      * rewrite H2, filter_app, (Forall_op_no_pat pre E3), app_nil_r. reflexivity.
      * intro Ho. apply H3, Forall_app. split; [exact Ho|apply Forall_op_no_paren, E3].
    + destruct (IH st (out ++ [TPat v]) Hst) as (H1 & H2 & H3).
      split; [exact H1|split].
      * rewrite H2, filter_app, <- app_assoc. reflexivity.
      * intro Ho. apply H3, Forall_app. split; [exact Ho|constructor; [reflexivity|constructor]].
Qed.

Lemma stack_ok_filter st :
  stack_ok st -> filter is_pat (filter (fun x => negb (is_paren x)) st) = [].
Proof.
  induction 1 as [|x st Hx _ IH]; [reflexivity|].
  destruct Hx as [->|Hx]; [exact IH|]. destruct x; try discriminate; exact IH.
Qed.

(** Extra: main.js [toRPN] keeps the pattern tokens of any token list, in
    their order, and its output has no parenthesis. *)
Theorem toRPN_keeps_patterns :
  forall tokens : list token,
  filter is_pat (toRPN tokens) = filter is_pat tokens /\
  Forall (fun t => is_paren t = false) (toRPN tokens).
Proof.
  intro ts. unfold toRPN.
  destruct (rpn_fold_spec ts [] [] (Forall_nil _)) as (H1 & H2 & H3).
  destruct (fold_left rpnStep ts ([], [])) as [st out]. cbn [fst snd] in *.
  split.
  - rewrite filter_app, H2, stack_ok_filter by exact H1. rewrite app_nil_r. reflexivity.
  - apply Forall_app. split; [apply H3, Forall_nil|].
    apply Forall_forall. intros x Hx. apply filter_In in Hx as [_ Hx].
    apply negb_true_iff, Hx.
Qed.

Lemma readPat_length f cs : List.length (snd (readPat f cs)) <= List.length cs.
Proof.
  revert cs; induction f as [|f IH]; intros [|ch cs]; cbn [readPat]; try (simpl; lia).
  destruct (is_stop ch); [cbn; lia|].
  assert (Hsc : forall l inner after, split_at_close l = Some (inner, after) ->
                List.length after < S (List.length l)).
  { induction l as [|c l IHl]; intros inner after E; cbn in E; [discriminate|].
    destruct (c =? "]")%char; [inversion E; subst; simpl; lia|].
    destruct (split_at_close l) as [[i a]|]; [|discriminate]. inversion E; subst.
    specialize (IHl i after eq_refl). simpl; lia. }
  destruct (ch =? "[")%char.
  - destruct (split_at_close cs) as [[inner after]|] eqn:E.
    + specialize (Hsc cs inner after E). specialize (IH after).
      destruct (readPat f after) as [b r]. cbn in *. lia.
    + specialize (IH cs). destruct (readPat f cs) as [b r]. cbn in *. lia.
  - specialize (IH cs). destruct (readPat f cs) as [b r]. cbn in *. lia.
Qed.

Lemma readPat_consumes f ch cs :
  is_stop ch = false -> List.length (snd (readPat (S f) (ch :: cs))) < S (List.length cs).
Proof.
  intro Hs. cbn [readPat]. rewrite Hs.
  assert (Hsc : forall l inner after, split_at_close l = Some (inner, after) ->
                List.length after < S (List.length l)).
  { induction l as [|c l IHl]; intros inner after E; cbn in E; [discriminate|].
    destruct (c =? "]")%char; [inversion E; subst; simpl; lia|].
    destruct (split_at_close l) as [[i a]|]; [|discriminate]. inversion E; subst.
    specialize (IHl i after eq_refl). simpl; lia. }
  destruct (ch =? "[")%char.
  - destruct (split_at_close cs) as [[inner after]|] eqn:E.
    + specialize (Hsc cs inner after E). pose proof (readPat_length f after).
      destruct (readPat f after) as [b r]. cbn in *. lia.
    + pose proof (readPat_length f cs). destruct (readPat f cs) as [b r]. cbn in *. lia.
  - pose proof (readPat_length f cs). destruct (readPat f cs) as [b r]. cbn in *. lia.
Qed.

(** [tokenize]'s loop with enough fuel. *)

Lemma tokLoop_fuel2 f1 f2 cs :
  List.length cs < f1 -> List.length cs < f2 -> tokLoop f1 cs = tokLoop f2 cs.
Proof.
  revert f2 cs; induction f1 as [|f1 IH]; intros f2 cs H1 H2; [lia|].
  destruct f2 as [|f2]; [lia|].
  destruct cs as [|c cs]; [reflexivity|]. cbn [List.length] in H1, H2.
  cbn [tokLoop].
  destruct (c =? " ")%char eqn:Es; [apply IH; lia|].
  destruct (c =? "(")%char eqn:Eo; [f_equal; apply IH; lia|].
  destruct (c =? ")")%char eqn:Ec; [f_equal; apply IH; lia|].
  destruct (c =? "|")%char eqn:Ep; [f_equal; apply IH; lia|].
  destruct (c =? "&")%char eqn:Ea; [f_equal; apply IH; lia|].
  assert (Hst : is_stop c = false)
    by (unfold is_stop, is_op_char; rewrite Es, Eo, Ec, Ep, Ea; reflexivity).
  pose proof (readPat_consumes (List.length cs) c cs Hst) as Hl.
  cbn [List.length]. destruct (readPat (S (List.length cs)) (c :: cs)) as [buf rest].
  cbn [snd] in Hl. f_equal. apply IH; lia.
Qed.

Lemma tokLoop_fuel f cs : List.length cs < f -> tokLoop f cs = tl cs.
Proof. intro H. unfold tl. apply tokLoop_fuel2; lia. Qed.

Lemma tl_nil : tl [] = [].
Proof. reflexivity. Qed.

Lemma tl_space cs : tl (" "%char :: cs) = tl cs.
Proof. reflexivity. Qed.

Lemma tl_lparen cs : tl ("("%char :: cs) = TLParen :: tl cs.
Proof. reflexivity. Qed.

Lemma tl_rparen cs : tl (")"%char :: cs) = TRParen :: tl cs.
Proof. reflexivity. Qed.

Lemma tl_or cs : tl ("|"%char :: cs) = TOr :: tl cs.
Proof. reflexivity. Qed.

Lemma tl_and cs : tl ("&"%char :: cs) = TAnd :: tl cs.
Proof. reflexivity. Qed.


(** The rest after a pattern: empty, or starting with a character that ends it. *)

Lemma readPat_plain f w rest :
  Forall plain_char w -> List.length w <= f -> stop_rest rest ->
  readPat f (w ++ rest) = (w, rest).
Proof.
  revert f; induction w as [|c w IH]; intros f Hw Hf Hr.
  - destruct f as [|f]; [reflexivity|]. destruct rest as [|c rest]; [reflexivity|].
    cbn [app readPat]. cbn [stop_rest] in Hr. rewrite Hr. reflexivity.
  - inversion Hw as [|? ? [Hs [Hb _]] Hw']; subst.
    destruct f as [|f]; [simpl in Hf; lia|].
    cbn [app readPat]. rewrite Hs, Hb. rewrite IH by (simpl in Hf; lia || assumption). reflexivity.
Qed.

Lemma tokLoop_pat f c cs :
  is_stop c = false ->
  tokLoop (S f) (c :: cs) =
  let '(buf, rest) := readPat (S (List.length cs)) (c :: cs) in
  TPat (string_of_list_ascii buf) :: tokLoop f rest.
Proof.
  intro Hs.
  assert (Hc : (c =? " ")%char = false /\ (c =? "(")%char = false /\ (c =? ")")%char = false /\ (c =? "|")%char = false /\ (c =? "&")%char = false).
  { unfold is_stop, is_op_char in Hs. repeat rewrite orb_false_iff in Hs. tauto. }
  destruct Hc as (E1 & E2 & E3 & E4 & E5).
  cbn [tokLoop]. rewrite E1, E2, E3, E4, E5. reflexivity.
Qed.

Lemma tl_plain w rest :
  w <> [] -> Forall plain_char w -> stop_rest rest ->
  tl (w ++ rest) = TPat (string_of_list_ascii w) :: tl rest.
Proof.
  intros Hne Hw Hr. destruct w as [|c w']; [congruence|].
  inversion Hw as [|? ? [Hs [Hb _]] Hw']; subst.
  unfold tl at 1. change ((c :: w') ++ rest) with (c :: (w' ++ rest)).
  rewrite (tokLoop_pat _ c (w' ++ rest) Hs).
  change (c :: w' ++ rest) with ((c :: w') ++ rest).
  rewrite readPat_plain; [|exact Hw|cbn [List.length]; rewrite length_app; lia|exact Hr].
  f_equal. apply tokLoop_fuel. rewrite length_app. cbn [List.length]. lia.
Qed.

Lemma list_ascii_of_string_app s1 s2 :
  list_ascii_of_string (s1 ++ s2) = list_ascii_of_string s1 ++ list_ascii_of_string s2.
Proof. induction s1 as [|c s1 IH]; simpl; [reflexivity|]. f_equal. exact IH. Qed.

Lemma plain_word_chars p : plain_word p -> list_ascii_of_string p <> [] /\ Forall plain_char (list_ascii_of_string p).
Proof.
  intros [Hne Hf]. split; [destruct p; [congruence|discriminate]|exact Hf].
Qed.

Lemma map_lower_plain w : Forall plain_char w -> map lower_ascii w = w.
Proof.
  induction 1 as [|c w [_ [_ Hl]] _ IH]; [reflexivity|]. cbn. rewrite Hl, IH. reflexivity.
Qed.

Lemma sexpr_print_chars e :
  sexpr_plain e ->
  map lower_ascii (list_ascii_of_string (sexpr_print e)) = list_ascii_of_string (sexpr_print e).
Proof.
  induction e as [p|a IHa b IHb|a IHa b IHb]; cbn [sexpr_plain sexpr_print].
  - intro H. apply map_lower_plain, plain_word_chars, H.
  - intros [Ha Hb]. rewrite !list_ascii_of_string_app, !map_app. cbn.
    rewrite IHa, IHb by assumption. reflexivity.
  - intros [Ha Hb]. rewrite !list_ascii_of_string_app, !map_app. cbn.
    rewrite IHa, IHb by assumption. reflexivity.
Qed.

Lemma tl_sexpr e rest :
  sexpr_plain e -> stop_rest rest ->
  tl (list_ascii_of_string (sexpr_print e) ++ rest) = sexpr_toks e ++ tl rest.
Proof.
  revert rest. induction e as [p|a IHa b IHb|a IHa b IHb]; intros rest He Hr;
    cbn [sexpr_plain sexpr_print sexpr_toks] in *.
  - destruct (plain_word_chars p He) as [Hne Hw].
    rewrite tl_plain by assumption. rewrite string_of_list_ascii_of_string. reflexivity.
  - destruct He as [Ha Hb].
    rewrite !list_ascii_of_string_app. cbn [list_ascii_of_string app].
    rewrite <- !app_assoc. cbn [app].
    rewrite tl_lparen, IHa by (assumption || reflexivity).
    rewrite tl_rparen, tl_and, tl_lparen, <- app_assoc. rewrite IHb by (assumption || reflexivity).
    cbn [app]. rewrite tl_rparen. rewrite <- !app_assoc. reflexivity.
  - destruct He as [Ha Hb].
    rewrite !list_ascii_of_string_app. cbn [list_ascii_of_string app].
    rewrite <- !app_assoc. cbn [app].
    rewrite tl_lparen, IHa by (assumption || reflexivity).
    rewrite tl_rparen, tl_or, tl_lparen, <- app_assoc. rewrite IHb by (assumption || reflexivity).
    cbn [app]. rewrite tl_rparen. rewrite <- !app_assoc. reflexivity.
Qed.

Lemma tokenize_sexpr e : sexpr_plain e -> tokenize (sexpr_print e) = sexpr_toks e.
Proof.
  intro He. unfold tokenize. rewrite sexpr_print_chars by exact He.
  fold (tl (list_ascii_of_string (sexpr_print e))).
  rewrite <- (app_nil_r (list_ascii_of_string (sexpr_print e))).
  rewrite tl_sexpr by (exact He || exact I). rewrite tl_nil, !app_nil_r. reflexivity.
Qed.

Lemma sexpr_rpn_split e : sexpr_rpn e = sexpr_core e ++ sexpr_pend e.
Proof. destruct e; cbn [sexpr_rpn sexpr_core sexpr_pend]; rewrite ?app_nil_r, ?app_assoc; reflexivity. Qed.

Lemma popOps_top_ok t st out : top_ok st -> popOps t st out = (st, out).
Proof. intros [-> | [st' ->]]; reflexivity. Qed.

Lemma popToParen_pend e st out :
  popToParen (sexpr_pend e ++ TLParen :: st) out = (st, out ++ sexpr_pend e).
Proof. destruct e; cbn; rewrite ?app_nil_r; reflexivity. Qed.

Lemma rpn_fold_sexpr e ts st out :
  top_ok st ->
  fold_left rpnStep (sexpr_toks e ++ ts) (st, out) =
  fold_left rpnStep ts (sexpr_pend e ++ st, out ++ sexpr_core e).
Proof.
  revert ts st out.
  induction e as [p|a IHa b IHb|a IHa b IHb]; intros ts st out Hst.
  - reflexivity.
  - cbn [sexpr_toks app]. rewrite <- !app_assoc. cbn [app fold_left rpnStep].
    rewrite IHa by (right; eexists; reflexivity). cbn [app fold_left].
    cbn [rpnStep]. rewrite popToParen_pend. cbn [rpnStep].
    rewrite popOps_top_ok by exact Hst. cbn [fold_left rpnStep].
    rewrite <- app_assoc, IHb by (right; eexists; reflexivity). cbn [app fold_left rpnStep].
    rewrite popToParen_pend. cbn [sexpr_pend sexpr_core app].
    rewrite (sexpr_rpn_split a), (sexpr_rpn_split b), <- !app_assoc. reflexivity.
  - cbn [sexpr_toks app]. rewrite <- !app_assoc. cbn [app fold_left rpnStep].
    rewrite IHa by (right; eexists; reflexivity). cbn [app fold_left].
    cbn [rpnStep]. rewrite popToParen_pend. cbn [rpnStep].
    rewrite popOps_top_ok by exact Hst. cbn [fold_left rpnStep].
    rewrite <- app_assoc, IHb by (right; eexists; reflexivity). cbn [app fold_left rpnStep].
    rewrite popToParen_pend. cbn [sexpr_pend sexpr_core app].
    rewrite (sexpr_rpn_split a), (sexpr_rpn_split b), <- !app_assoc. reflexivity.
Qed.

Lemma toRPN_sexpr e : toRPN (sexpr_toks e) = sexpr_rpn e.
Proof.
  unfold toRPN. rewrite <- (app_nil_r (sexpr_toks e)).
  rewrite rpn_fold_sexpr by (left; reflexivity). cbn [fold_left].
  rewrite app_nil_r, sexpr_rpn_split. destruct e; reflexivity.
Qed.

Lemma testerLoop_sexpr compile e rest st :
  testerLoop compile (sexpr_rpn e ++ rest) st =
  match sexpr_eval compile e with
  | Some f => testerLoop compile rest (f :: st)
  | None => None
  end.
Proof.
  revert rest st.
  induction e as [p|a IHa b IHb|a IHa b IHb]; intros rest st.
  - cbn. destruct (compile p); reflexivity.
  - cbn [sexpr_rpn sexpr_eval]. rewrite <- !app_assoc. rewrite IHa.
    destruct (sexpr_eval compile a) as [fa|]; [|reflexivity].
    rewrite IHb. destruct (sexpr_eval compile b) as [fb|]; reflexivity.
  - cbn [sexpr_rpn sexpr_eval]. rewrite <- !app_assoc. rewrite IHa.
    destruct (sexpr_eval compile a) as [fa|]; [|reflexivity].
    rewrite IHb. destruct (sexpr_eval compile b) as [fb|]; reflexivity.
Qed.

Lemma sexpr_toks_has_pat e : existsb is_pat (sexpr_toks e) = true.
Proof.
  induction e as [p|a IHa b IHb|a IHa b IHb]; cbn [sexpr_toks]; [reflexivity| |];
    cbn [existsb is_pat orb]; rewrite existsb_app, IHa; reflexivity.
Qed.

Lemma tokenize_tl s :
  map lower_ascii (list_ascii_of_string s) = list_ascii_of_string s ->
  tokenize s = tl (list_ascii_of_string s).
Proof. intro H. unfold tokenize. cbv zeta. rewrite H. reflexivity. Qed.

Lemma tl_op b cs : tl (op_char b :: cs) = op_tok b :: tl cs.
Proof. destruct b; [apply tl_and|apply tl_or]. Qed.

Lemma flat_rest_chars rest :
  Forall (fun bw => plain_word (snd bw)) rest ->
  map lower_ascii (list_ascii_of_string (flat_print_rest rest)) =
  list_ascii_of_string (flat_print_rest rest).
Proof.
  induction 1 as [|[b w] r Hw _ IH]; [reflexivity|].
  cbn [flat_print_rest list_ascii_of_string map snd] in *.
  rewrite list_ascii_of_string_app, map_app, IH.
  rewrite (map_lower_plain _ (proj2 (plain_word_chars w Hw))).
  destruct b; reflexivity.
Qed.

Lemma flat_chars w0 rest :
  plain_word w0 -> Forall (fun bw => plain_word (snd bw)) rest ->
  map lower_ascii (list_ascii_of_string (flat_print w0 rest)) =
  list_ascii_of_string (flat_print w0 rest).
Proof.
  intros H0 Hr. unfold flat_print.
  rewrite list_ascii_of_string_app, map_app, flat_rest_chars by exact Hr.
  rewrite (map_lower_plain _ (proj2 (plain_word_chars w0 H0))). reflexivity.
Qed.

Lemma stop_rest_flat rest : stop_rest (list_ascii_of_string (flat_print_rest rest)).
Proof. destruct rest as [|[[|] w] r]; [exact I|reflexivity|reflexivity]. Qed.

Lemma tl_flat_rest rest :
  Forall (fun bw => plain_word (snd bw)) rest ->
  tl (list_ascii_of_string (flat_print_rest rest)) = flat_toks_rest rest.
Proof.
  induction 1 as [|[b w] r Hw _ IH]; [reflexivity|].
  cbn [flat_print_rest list_ascii_of_string flat_toks_rest snd] in *.
  rewrite tl_op, list_ascii_of_string_app.
  destruct (plain_word_chars w Hw) as [Hne Hc].
  rewrite tl_plain by (exact Hne || exact Hc || apply stop_rest_flat).
  rewrite string_of_list_ascii_of_string, IH. reflexivity.
Qed.

Lemma tokenize_flat w0 rest :
  plain_word w0 -> Forall (fun bw => plain_word (snd bw)) rest ->
  tokenize (flat_print w0 rest) = TPat w0 :: flat_toks_rest rest.
Proof.
  intros H0 Hr. rewrite tokenize_tl by (apply flat_chars; assumption).
  unfold flat_print. rewrite list_ascii_of_string_app.
  destruct (plain_word_chars w0 H0) as [Hne Hc].
  rewrite tl_plain by (exact Hne || exact Hc || apply stop_rest_flat).
  rewrite string_of_list_ascii_of_string, tl_flat_rest by exact Hr. reflexivity.
Qed.

Lemma flat_step_and ao aa w :
  not_or aa ->
  rpnStep (rpnStep (flat_state ao aa) TAnd) (TPat w) = flat_state ao (SAnd aa (SPat w)).
Proof.
  intro H. destruct aa as [p|x y|x y]; [| |contradiction];
    destruct ao as [o|]; unfold flat_state; cbn; rewrite <- ?app_assoc; reflexivity.
Qed.

Lemma flat_step_or ao aa w :
  not_or aa ->
  rpnStep (rpnStep (flat_state ao aa) TOr) (TPat w) = flat_state (Some (flat_close ao aa)) (SPat w).
Proof.
  intro H. destruct aa as [p|x y|x y]; [| |contradiction];
    destruct ao as [o|]; unfold flat_state; cbn; rewrite <- ?app_assoc; reflexivity.
Qed.

Lemma flat_fold rest ao aa :
  not_or aa ->
  (let '(st, out) := fold_left rpnStep (flat_toks_rest rest) (flat_state ao aa) in
   out ++ filter (fun x => negb (is_paren x)) st) = sexpr_rpn (flat_go ao aa rest).
Proof.
  revert ao aa. induction rest as [|[[|] w] r IH]; intros ao aa H.
  - destruct aa as [p|x y|x y]; [| |contradiction];
      destruct ao as [o|]; unfold flat_state; cbn; rewrite <- ?app_assoc; reflexivity.
  - cbn [flat_toks_rest op_tok fold_left flat_go]. rewrite flat_step_and by exact H.
    apply IH. exact I.
  - cbn [flat_toks_rest op_tok fold_left flat_go]. rewrite flat_step_or by exact H.
    apply IH. exact I.
Qed.

Lemma toRPN_flat w0 rest :
  toRPN (TPat w0 :: flat_toks_rest rest) = sexpr_rpn (flat_sexpr w0 rest).
Proof.
  unfold toRPN, flat_sexpr. cbn [fold_left].
  change (rpnStep ([], []) (TPat w0)) with (flat_state None (SPat w0)).
  apply flat_fold. exact I.
Qed.

(** On an expression written with every operand in parentheses, and pattern
    words without spaces, brackets or capitals, [buildSearchTester] returns
    exactly the boolean combination of the pattern testers; it throws
    (None) exactly when building one of the pattern regular expressions throws. *)
Theorem buildSearchTester_sexpr compile e :
  sexpr_plain e ->
  buildSearchTester compile (sexpr_print e) = option_map Some (sexpr_eval compile e).
Proof.
  intro He. unfold buildSearchTester.
  rewrite tokenize_sexpr, sexpr_toks_has_pat by exact He. cbn [negb].
  unfold buildTesterFromRPN. rewrite toRPN_sexpr, <- (app_nil_r (sexpr_rpn e)), testerLoop_sexpr.
  destruct (sexpr_eval compile e); reflexivity.
Qed.

Lemma buildSearchTester_sexpr_witness :
  sexpr_plain (SOr (SPat "cr") (SAnd (SPat "sl") (SPat "e"))) /\
  buildSearchTester (fun p => Some (String.prefix p)) (sexpr_print (SOr (SPat "cr") (SAnd (SPat "sl") (SPat "e"))))
  = option_map Some (sexpr_eval (fun p => Some (String.prefix p)) (SOr (SPat "cr") (SAnd (SPat "sl") (SPat "e")))).
Proof.
  assert (H : sexpr_plain (SOr (SPat "cr") (SAnd (SPat "sl") (SPat "e")))).
  { cbn [sexpr_plain]. repeat split; try discriminate; repeat constructor. }
  split; [exact H|]. apply (buildSearchTester_sexpr (fun p => Some (String.prefix p)) _ H).
Defined.

(** Without parentheses, [&] binds tighter than [|] and both group to the
    left: [buildSearchTester] on [w0 op1 w1 ... opn wn] (pattern words as
    above) returns the boolean combination of the conventional reading. *)
Theorem buildSearchTester_flat compile w0 rest :
  plain_word w0 -> Forall (fun bw => plain_word (snd bw)) rest ->
  buildSearchTester compile (flat_print w0 rest) =
  option_map Some (sexpr_eval compile (flat_sexpr w0 rest)).
Proof.
  intros H0 Hr. unfold buildSearchTester.
  rewrite tokenize_flat by assumption. cbn [existsb is_pat orb negb].
  unfold buildTesterFromRPN. rewrite toRPN_flat.
  rewrite <- (app_nil_r (sexpr_rpn (flat_sexpr w0 rest))), testerLoop_sexpr.
  destruct (sexpr_eval compile (flat_sexpr w0 rest)); reflexivity.
Qed.

Lemma buildSearchTester_flat_witness :
  (plain_word "a" /\ Forall (fun bw => plain_word (snd bw)) [(false, "b"%string); (true, "c"%string)]) /\
  buildSearchTester (fun p => Some (String.prefix p)) (flat_print "a" [(false, "b"%string); (true, "c"%string)]) =
  option_map Some (sexpr_eval (fun p => Some (String.prefix p)) (flat_sexpr "a" [(false, "b"%string); (true, "c"%string)])).
Proof.
  assert (H0 : plain_word "a") by (split; [discriminate|repeat constructor]).
  assert (Hr : Forall (fun bw => plain_word (snd bw)) [(false, "b"%string); (true, "c"%string)]).
  { repeat (apply Forall_cons; [cbn [snd]; split; [discriminate|repeat constructor]|]). apply Forall_nil. }
  split; [split; assumption|]. apply (buildSearchTester_flat _ "a" _ H0 Hr).
Defined.



(** Two operands separated by a space and no operator (a word, then an
    expression as above) give a null tester, so the search filter is off,
    unless building a pattern's regular expression throws. *)
Theorem buildSearchTester_space compile p e :
  plain_word p -> sexpr_plain e ->
  buildSearchTester compile (p ++ String " " (sexpr_print e)) =
  match compile p, sexpr_eval compile e with
  | Some _, Some _ => Some None
  | _, _ => None
  end.
Proof.
  intros Hp He. destruct (plain_word_chars p Hp) as [Hne Hc].
  unfold buildSearchTester.
  assert (Ht : tokenize (p ++ String " " (sexpr_print e)) = TPat p :: sexpr_toks e).
  { rewrite tokenize_tl.
    - rewrite list_ascii_of_string_app. cbn [list_ascii_of_string].
      rewrite tl_plain by (exact Hne || exact Hc || reflexivity).
      rewrite tl_space, string_of_list_ascii_of_string.
      rewrite <- (app_nil_r (list_ascii_of_string (sexpr_print e))).
      rewrite tl_sexpr by (exact He || exact I). rewrite tl_nil, app_nil_r. reflexivity.
    - rewrite list_ascii_of_string_app, map_app, (map_lower_plain _ Hc). cbn [list_ascii_of_string map].
      rewrite sexpr_print_chars by exact He. reflexivity. }
  rewrite Ht. cbn [existsb is_pat orb negb].
  unfold buildTesterFromRPN, toRPN. cbn [fold_left].
  rewrite <- (app_nil_r (sexpr_toks e)).
  change (rpnStep ([], []) (TPat p)) with (@nil token, [TPat p]).
  rewrite rpn_fold_sexpr by (left; reflexivity). cbn [fold_left].
  rewrite app_nil_r.
  assert (Hf : filter (fun x => negb (is_paren x)) (sexpr_pend e) = sexpr_pend e) by (destruct e; reflexivity).
  rewrite Hf, <- app_assoc, <- sexpr_rpn_split. cbn [app testerLoop].
  destruct (compile p); [|reflexivity].
  rewrite <- (app_nil_r (sexpr_rpn e)), testerLoop_sexpr.
  destruct (sexpr_eval compile e); reflexivity.
Qed.

Lemma buildSearchTester_space_witness :
  (plain_word "cr" /\ sexpr_plain (SPat "e")) /\
  buildSearchTester (fun p => Some (String.prefix p)) ("cr" ++ String " " (sexpr_print (SPat "e")))
  = Some None.
Proof.
  assert (Hp : plain_word "cr") by (split; [discriminate|repeat constructor]).
  assert (He : sexpr_plain (SPat "e")) by (split; [discriminate|repeat constructor]).
  split; [split; assumption|]. exact (buildSearchTester_space _ "cr" (SPat "e") Hp He).
Defined.

(* ------------------------------------------------------------------ *)
(** ** [entropyAndExpectedSize] and [EstepsOneLookaheadLocal]: bounds *)



Section EBounds.





End EBounds.







(* ------------------------------------------------------------------ *)
(** ** Word lists: [loadWordsFromArray] and [parseWordsFromCsvText] *)

Lemma existsb_eqb_In w seen : existsb (String.eqb w) seen = true <-> In w seen.
Proof.
  rewrite existsb_exists. split.
  - intros (x & Hx & E). apply String.eqb_eq in E. subst. exact Hx.
  - intro H. exists w. split; [exact H|apply String.eqb_refl].
Qed.

Lemma keepFirst_spec ws seen :
  NoDup (keepFirst ws seen) /\
  (forall w, In w (keepFirst ws seen) <-> In w ws /\ is_word5 w = true /\ ~ In w seen).
Proof.
  revert seen. induction ws as [|w ws IH]; intro seen; cbn [keepFirst].
  - split; [constructor|]. intro x. simpl. tauto.
  - destruct (is_word5 w) eqn:Ev; destruct (existsb (String.eqb w) seen) eqn:Es; cbn [andb negb].
    + apply existsb_eqb_In in Es. destruct (IH seen) as [Hnd Hin]. split; [exact Hnd|].
      intro x. rewrite Hin. simpl. split; [tauto|].
      intros ([->|H1] & H2 & H3); [contradiction|tauto].
    + destruct (IH (w :: seen)) as [Hnd Hin]. split.
      * constructor; [|exact Hnd]. rewrite Hin. simpl. tauto.
      * intro x. simpl. rewrite Hin. simpl.
        assert (~ In w seen) by (intro H; apply existsb_eqb_In in H; congruence).
        split; [intros [<-|(H1 & H2 & H3)]; [tauto|tauto]|].
        intros ([<-|H1] & H2 & H3); [left; reflexivity|].
        destruct (String.eqb_spec w x) as [->|Hne]; [left; reflexivity|right].
        split; [exact H1|split; [exact H2|]]. intros [E|E]; [congruence|contradiction].
    + destruct (IH seen) as [Hnd Hin]. split; [exact Hnd|].
      intro x. rewrite Hin. simpl. split; [tauto|].
      intros ([<-|H1] & H2 & H3); [congruence|tauto].
    + destruct (IH seen) as [Hnd Hin]. split; [exact Hnd|].
      intro x. rewrite Hin. simpl. split; [tauto|].
      intros ([<-|H1] & H2 & H3); [congruence|tauto].
Qed.

Lemma insert_str_perm w l : Permutation (insert_str w l) (w :: l).
Proof.
  induction l as [|x l IH]; simpl; [reflexivity|].
  destruct (String.leb w x); [reflexivity|].
  rewrite IH. apply perm_swap.
Qed.

Lemma leb_flip x w : String.leb w x = false -> String.leb x w = true.
Proof. intro E. destruct (String.leb_total w x) as [H|H]; [congruence|exact H]. Qed.

Lemma insert_str_sorted w l :
  Sorted (fun x y => String.leb x y = true) l ->
  Sorted (fun x y => String.leb x y = true) (insert_str w l).
Proof.
  induction l as [|x l IH]; intro H; simpl.
  - constructor; constructor.
  - destruct (String.leb w x) eqn:E.
    + constructor; [exact H|constructor; exact E].
    + apply Sorted_inv in H as [Hl Hh]. constructor; [apply IH, Hl|].
      destruct l as [|y l']; simpl.
      * constructor. apply leb_flip, E.
      * destruct (String.leb w y); constructor; [apply leb_flip, E|].
        apply HdRel_inv in Hh. exact Hh.
Qed.

Lemma sort_str_spec l :
  Sorted (fun x y => String.leb x y = true) (sort_str l) /\ Permutation (sort_str l) l.
Proof.
  induction l as [|w l [Hs Hp]]; simpl; [split; constructor|].
  split; [apply insert_str_sorted, Hs|].
  rewrite insert_str_perm. apply perm_skip, Hp.
Qed.

(** The separator-free runs of a text. *)
Lemma wordsGo_app_sep a c b cur :
  is_sep c = true -> wordsGo (a ++ c :: b) cur = wordsGo a cur ++ wordsGo b [].
Proof.
  intro Hc. revert cur. induction a as [|x a IH]; intro cur; cbn [app wordsGo].
  - rewrite Hc. reflexivity.
  - destruct (is_sep x); [rewrite IH, app_assoc; reflexivity|apply IH].
Qed.

Lemma wordsGo_snoc_sep cs c cur :
  is_sep c = true -> wordsGo (cs ++ [c]) cur = wordsGo cs cur.
Proof. intro Hc. rewrite wordsGo_app_sep by exact Hc. apply app_nil_r. Qed.

Lemma is_ws_sep c : is_ws c = true -> is_sep c = true.
Proof. intro H. unfold is_sep. rewrite H. apply orb_true_r. Qed.

Lemma wordsGo_drop_ws cs : wordsGo (drop_ws cs) [] = wordsGo cs [].
Proof.
  induction cs as [|c cs IH]; [reflexivity|]. cbn [drop_ws].
  destruct (is_ws c) eqn:E; [|reflexivity].
  rewrite IH. cbn [wordsGo]. rewrite (is_ws_sep c E). reflexivity.
Qed.

Lemma wordsGo_rev_drop_ws l cur : wordsGo (rev (drop_ws l)) cur = wordsGo (rev l) cur.
Proof.
  induction l as [|c l IH]; [reflexivity|]. cbn [drop_ws].
  destruct (is_ws c) eqn:E; [|reflexivity].
  rewrite IH. cbn [rev]. rewrite wordsGo_snoc_sep by exact (is_ws_sep c E). reflexivity.
Qed.

Lemma wordsGo_trim cs : wordsGo (trim cs) [] = wordsGo cs [].
Proof.
  unfold trim. rewrite wordsGo_rev_drop_ws, rev_involutive. apply wordsGo_drop_ws.
Qed.

Lemma filter_nonnil_rev cur : filter nonnil [rev cur] = flush cur.
Proof.
  destruct cur as [|x cur]; [reflexivity|]. cbn [flush filter].
  assert (E : nonnil (rev (x :: cur)) = true) by (simpl; destruct (rev cur); reflexivity).
  rewrite E. reflexivity.
Qed.

Lemma splitCells_words cs cur b :
  (b = true -> cur = []) -> filter nonnil (splitCells cs cur b) = wordsGo cs cur.
Proof.
  revert cur b. induction cs as [|c cs IH]; intros cur b Hb; cbn [splitCells wordsGo].
  - apply filter_nonnil_rev.
  - unfold is_sep. destruct (c =? ",")%char; cbn [orb].
    + change (rev cur :: splitCells cs [] false) with ([rev cur] ++ splitCells cs [] false).
      rewrite filter_app, filter_nonnil_rev, IH by discriminate. reflexivity.
    + destruct (is_ws c).
      * destruct b.
        -- rewrite (Hb eq_refl). rewrite IH by reflexivity. reflexivity.
        -- change (rev cur :: splitCells cs [] true) with ([rev cur] ++ splitCells cs [] true).
           rewrite filter_app, filter_nonnil_rev, IH by reflexivity. reflexivity.
      * apply IH. discriminate.
Qed.

Lemma lineCells_words raw : filter nonnil (lineCells raw) = wordsGo raw [].
Proof.
  unfold lineCells. rewrite <- wordsGo_trim.
  destruct (trim raw) as [|c l]; [reflexivity|].
  apply splitCells_words. discriminate.
Qed.

Lemma drop_cr_words cur : wordsGo (rev (drop_cr cur)) [] = wordsGo (rev cur) [].
Proof.
  destruct cur as [|x cur]; [reflexivity|]. cbn [drop_cr].
  destruct (Ascii.eqb_spec x "013"%char) as [->|]; [|reflexivity].
  cbn [rev]. rewrite wordsGo_snoc_sep by reflexivity. reflexivity.
Qed.

Lemma splitLines_words cs cur :
  List.concat (map (fun L => wordsGo L []) (splitLines cs cur)) = wordsGo (rev cur ++ cs) [].
Proof.
  revert cur. induction cs as [|c cs IH]; intro cur; cbn [splitLines].
  - cbn [map List.concat]. rewrite !app_nil_r. reflexivity.
  - destruct (Ascii.eqb_spec c "010"%char) as [->|Hc].
    + cbn [map List.concat]. rewrite IH, drop_cr_words.
      rewrite wordsGo_app_sep by reflexivity. reflexivity.
    + rewrite IH. cbn [rev]. rewrite <- app_assoc. reflexivity.
Qed.

Lemma filter_concat {A : Type} (f : A -> bool) (L : list (list A)) :
  filter f (List.concat L) = List.concat (map (filter f) L).
Proof.
  induction L as [|l L IH]; [reflexivity|]. cbn [List.concat map].
  rewrite filter_app, IH. reflexivity.
Qed.

Lemma text_words cs :
  filter nonnil (List.concat (map lineCells (splitLines cs []))) = wordsGo cs [].
Proof.
  rewrite filter_concat, map_map.
  rewrite (map_ext _ (fun L => wordsGo L []) lineCells_words).
  apply splitLines_words.
Qed.

Lemma splitCells_nosep cs cur b :
  nosep cur = true -> Forall (fun c => nosep c = true) (splitCells cs cur b).
Proof.
  assert (Hr : forall l, nosep l = true -> nosep (rev l) = true).
  { intros l H. unfold nosep in *. rewrite forallb_forall in *. intros x Hx.
    apply H, in_rev, Hx. }
  revert cur b. induction cs as [|c cs IH]; intros cur b H; cbn [splitCells].
  - constructor; [apply Hr, H|constructor].
  - destruct (c =? ",")%char eqn:Ec; [constructor; [apply Hr, H|apply IH; reflexivity]|].
    destruct (is_ws c) eqn:Ew.
    + destruct b; [apply IH; reflexivity|constructor; [apply Hr, H|apply IH; reflexivity]].
    + apply IH. cbn [nosep forallb]. unfold nosep in H. rewrite H.
      unfold is_sep. rewrite Ec, Ew. reflexivity.
Qed.

Lemma lineCells_nosep raw : Forall (fun c => nosep c = true) (lineCells raw).
Proof.
  unfold lineCells. destruct (trim raw); [constructor|apply splitCells_nosep; reflexivity].
Qed.

Lemma drop_ws_nosep cs : nosep cs = true -> drop_ws cs = cs.
Proof.
  destruct cs as [|c cs]; [reflexivity|]. cbn [nosep forallb drop_ws].
  intro H. apply andb_true_iff in H as [H _].
  destruct (is_ws c) eqn:E; [|reflexivity].
  rewrite (is_ws_sep c E) in H. discriminate.
Qed.

Lemma trim_nosep cs : nosep cs = true -> trim cs = cs.
Proof.
  intro H. unfold trim. rewrite (drop_ws_nosep cs H).
  rewrite drop_ws_nosep; [apply rev_involutive|].
  unfold nosep in *. rewrite forallb_forall in *. intros x Hx. apply H, in_rev, Hx.
Qed.

Lemma is_word5_empty : is_word5 EmptyString = false.
Proof. reflexivity. Qed.

Lemma keepFirst_filter_nonnil L seen :
  keepFirst (map (fun c => string_of_list_ascii (map lower_ascii c)) (filter nonnil L)) seen =
  keepFirst (map (fun c => string_of_list_ascii (map lower_ascii c)) L) seen.
Proof.
  revert seen. induction L as [|c L IH]; intro seen; [reflexivity|].
  destruct c as [|x c]; cbn [filter nonnil map keepFirst]; [apply IH|].
  destruct (_ && _); [f_equal; apply IH|apply IH].
Qed.

Lemma keepFirst_cellWord L seen :
  Forall (fun c => nosep c = true) L ->
  keepFirst (map cellWord L) seen =
  keepFirst (map (fun c => string_of_list_ascii (map lower_ascii c)) L) seen.
Proof.
  intro H. f_equal. apply map_ext_in. intros c Hc. unfold cellWord.
  rewrite trim_nosep; [reflexivity|]. rewrite Forall_forall in H. apply H, Hc.
Qed.

Lemma wordsGo_nosep_app w rest cur :
  nosep w = true -> wordsGo (w ++ rest) cur = wordsGo rest (rev w ++ cur).
Proof.
  revert cur. induction w as [|c w IH]; intros cur H; [reflexivity|].
  cbn [nosep forallb] in H. apply andb_true_iff in H as [Hc Hw].
  cbn [app wordsGo]. destruct (is_sep c); [discriminate|].
  rewrite IH by exact Hw. cbn [rev]. rewrite <- app_assoc. reflexivity.
Qed.

Lemma wordsGo_sep_app s rest cur :
  s <> [] -> forallb is_sep s = true -> wordsGo (s ++ rest) cur = flush cur ++ wordsGo rest [].
Proof.
  revert cur. induction s as [|c s IH]; intros cur Hne H; [congruence|].
  cbn [forallb] in H. apply andb_true_iff in H as [Hc Hs].
  cbn [app wordsGo]. rewrite Hc. f_equal.
  destruct s as [|c' s']; [reflexivity|]. rewrite IH by (discriminate || exact Hs). reflexivity.
Qed.

Lemma wordsGo_join sep ws :
  list_ascii_of_string sep <> [] -> forallb is_sep (list_ascii_of_string sep) = true ->
  Forall (fun w => nosep (list_ascii_of_string w) = true) ws ->
  wordsGo (list_ascii_of_string (String.concat sep ws)) [] =
  filter nonnil (map list_ascii_of_string ws).
Proof.
  intros Hne Hs. induction 1 as [|w ws Hw Hws IH]; [reflexivity|].
  assert (Hone : wordsGo (list_ascii_of_string w) [] = filter nonnil [list_ascii_of_string w]).
  { replace (wordsGo (list_ascii_of_string w) []) with (wordsGo (list_ascii_of_string w ++ []) [])
      by (rewrite app_nil_r; reflexivity).
    rewrite wordsGo_nosep_app by exact Hw.
    rewrite app_nil_r. cbn [wordsGo]. rewrite <- filter_nonnil_rev, rev_involutive. reflexivity. }
  destruct ws as [|w2 ws]; [exact Hone|].
  change (String.concat sep (w :: w2 :: ws)) with (w ++ sep ++ String.concat sep (w2 :: ws))%string.
  rewrite !list_ascii_of_string_app, wordsGo_nosep_app by exact Hw.
  rewrite app_nil_r, wordsGo_sep_app by assumption. rewrite IH.
  change (map list_ascii_of_string (w :: w2 :: ws))
    with ([list_ascii_of_string w] ++ map list_ascii_of_string (w2 :: ws)).
  rewrite filter_app, <- filter_nonnil_rev, rev_involutive. reflexivity.
Qed.

Lemma parse_join sep ws :
  list_ascii_of_string sep <> [] -> forallb is_sep (list_ascii_of_string sep) = true ->
  Forall (fun w => nosep (list_ascii_of_string w) = true) ws ->
  parseWordsFromCsvText (String.concat sep ws) = keepFirst (map lowercase ws) [].
Proof.
  intros Hne Hs Hws. unfold parseWordsFromCsvText.
  rewrite keepFirst_cellWord.
  2: { apply Forall_forall. intros c Hc. apply in_concat in Hc as (L & HL & Hc).
       apply in_map_iff in HL as (raw & <- & _).
       rewrite Forall_forall in *. exact (proj1 (Forall_forall _ _) (lineCells_nosep raw) c Hc). }
  rewrite <- keepFirst_filter_nonnil, text_words, wordsGo_join by assumption.
  rewrite keepFirst_filter_nonnil, map_map. reflexivity.
Qed.

Lemma lower_ascii_letter c : is_lower_letter c = true -> lower_ascii c = c.
Proof.
  unfold is_lower_letter, lower_ascii. intro H. apply andb_true_iff in H as [H1 H2].
  apply Nat.leb_le in H1. apply Nat.leb_le in H2.
  destruct ((65 <=? nat_of_ascii c) && (nat_of_ascii c <=? 90)) eqn:E1.
  - apply andb_true_iff in E1 as [_ E]. apply Nat.leb_le in E. lia.
  - destruct ((192 <=? nat_of_ascii c) && (nat_of_ascii c <=? 222) && negb (nat_of_ascii c =? 215)) eqn:E2;
      [|reflexivity].
    apply andb_true_iff in E2 as [E2 _]. apply andb_true_iff in E2 as [E _].
    apply Nat.leb_le in E. lia.
Qed.

Lemma lowercase_word5 w : is_word5 w = true -> lowercase w = w.
Proof.
  unfold is_word5, lowercase. intro H. apply andb_true_iff in H as [_ H].
  rewrite forallb_forall in H.
  rewrite map_ext_in with (g := fun c => c) by (intros c Hc; apply lower_ascii_letter, H, Hc).
  rewrite map_id. apply string_of_list_ascii_of_string.
Qed.

Lemma word5_nosep w : is_word5 w = true -> nosep (list_ascii_of_string w) = true.
Proof.
  unfold is_word5, nosep. intro H. apply andb_true_iff in H as [_ H].
  rewrite forallb_forall in *. intros c Hc. specialize (H c Hc).
  unfold is_lower_letter in H. apply andb_true_iff in H as [H1 H2].
  apply Nat.leb_le in H1. apply Nat.leb_le in H2.
  unfold is_sep, is_ws.
  destruct (Ascii.eqb_spec c ","%char) as [->|]; [cbn in H1; lia|].
  cbn [orb negb].
  repeat match goal with |- context [Nat.eqb ?a ?b] =>
    destruct (Nat.eqb_spec a b); [lia|] end.
  reflexivity.
Qed.

Lemma keepFirst_valid ws seen :
  Forall (fun w => is_word5 w = true) ws -> NoDup ws ->
  (forall w, In w ws -> ~ In w seen) -> keepFirst ws seen = ws.
Proof.
  revert seen. induction ws as [|w ws IH]; intros seen Hv Hnd Hs; [reflexivity|].
  inversion Hv as [|? ? Hw Hv']; subst. inversion Hnd as [|? ? Hn Hnd']; subst.
  cbn [keepFirst]. rewrite Hw.
  destruct (existsb (String.eqb w) seen) eqn:E.
  - exfalso. apply existsb_eqb_In in E. exact (Hs w (or_introl eq_refl) E).
  - cbn [andb negb]. f_equal. apply IH; [exact Hv'|exact Hnd'|].
    intros x Hx [<-|Hxs]; [contradiction|exact (Hs x (or_intror Hx) Hxs)].
Qed.

(** main.js [loadWordsFromArray(a)] sets [state.all] to the words of [a]
    made of five letters a-z, each once, in increasing string order. *)
Theorem loadWordsFromArray_spec a :
  Sorted (fun x y => String.leb x y = true) (loadWordsFromArray a) /\
  NoDup (loadWordsFromArray a) /\
  (forall w, In w (loadWordsFromArray a) <-> In w a /\ is_word5 w = true).
Proof.
  unfold loadWordsFromArray.
  destruct (sort_str_spec (keepFirst a [])) as [Hs Hp].
  destruct (keepFirst_spec a []) as [Hnd Hin].
  split; [exact Hs|split].
  - apply (Permutation_NoDup (Permutation_sym Hp) Hnd).
  - intro w. split.
    + intro H. apply (Permutation_in _ Hp), Hin in H. tauto.
    + intros [H1 H2]. apply (Permutation_in _ (Permutation_sym Hp)), Hin. simpl. tauto.
Qed.

(** main.js [parseWordsFromCsvText(t)] on fields joined by a non-empty
    separator of commas and white space (line breaks included): the fields,
    lower-cased, that are five letters a-z, each at its first occurrence. *)
Theorem parseWordsFromCsvText_join sep ws :
  list_ascii_of_string sep <> [] -> forallb is_sep (list_ascii_of_string sep) = true ->
  Forall (fun w => nosep (list_ascii_of_string w) = true) ws ->
  parseWordsFromCsvText (String.concat sep ws) = keepFirst (map lowercase ws) [].
Proof. exact (parse_join sep ws). Qed.

Lemma parseWordsFromCsvText_join_witness :
  (list_ascii_of_string ", " <> [] /\ forallb is_sep (list_ascii_of_string ", ") = true /\
   Forall (fun w => nosep (list_ascii_of_string w) = true) ["Crane"; "SLATE"; "x"; "crane"]%string) /\
  parseWordsFromCsvText (String.concat ", " ["Crane"; "SLATE"; "x"; "crane"]%string)
  = keepFirst (map lowercase ["Crane"; "SLATE"; "x"; "crane"]%string) [].
Proof.
  assert (H1 : list_ascii_of_string ", " <> []) by discriminate.
  assert (H2 : forallb is_sep (list_ascii_of_string ", ") = true) by reflexivity.
  assert (H3 : Forall (fun w => nosep (list_ascii_of_string w) = true) ["Crane"; "SLATE"; "x"; "crane"]%string)
    by repeat constructor.
  split; [split; [exact H1|split; [exact H2|exact H3]]|].
  exact (parseWordsFromCsvText_join ", " _ H1 H2 H3).
Defined.

(** Writing a list of distinct five-letter lower-case words with any
    separator of commas and white space, one word per line for instance, and
    parsing it with [parseWordsFromCsvText] gives the list back. *)
Theorem parseWordsFromCsvText_roundtrip sep ws :
  list_ascii_of_string sep <> [] -> forallb is_sep (list_ascii_of_string sep) = true ->
  Forall (fun w => is_word5 w = true) ws -> NoDup ws ->
  parseWordsFromCsvText (String.concat sep ws) = ws.
Proof.
  intros Hne Hs Hv Hnd.
  rewrite parse_join by (try assumption; apply Forall_forall; intros w Hw;
                          apply word5_nosep; rewrite Forall_forall in Hv; apply Hv, Hw).
  rewrite map_ext_in with (g := fun w => w)
    by (intros w Hw; apply lowercase_word5; rewrite Forall_forall in Hv; apply Hv, Hw).
  rewrite map_id. apply keepFirst_valid; [exact Hv|exact Hnd|intros w _ []].
Qed.

Lemma parseWordsFromCsvText_roundtrip_witness :
  (list_ascii_of_string (String "013" (String "010" EmptyString)) <> [] /\
   forallb is_sep (list_ascii_of_string (String "013" (String "010" EmptyString))) = true /\
   Forall (fun w => is_word5 w = true) ["crane"; "slate"]%string /\ NoDup ["crane"; "slate"]%string) /\
  parseWordsFromCsvText (String.concat (String "013" (String "010" EmptyString)) ["crane"; "slate"]%string)
  = ["crane"; "slate"]%string.
Proof.
  assert (H1 : list_ascii_of_string (String "013" (String "010" EmptyString)) <> []) by discriminate.
  assert (H2 : forallb is_sep (list_ascii_of_string (String "013" (String "010" EmptyString))) = true)
    by reflexivity.
  assert (H3 : Forall (fun w => is_word5 w = true) ["crane"; "slate"]%string) by repeat constructor.
  assert (H4 : NoDup ["crane"; "slate"]%string)
    by (constructor; [intros [E|[]]; discriminate|constructor; [intros []|constructor]]).
  split; [split; [exact H1|split; [exact H2|split; [exact H3|exact H4]]]|].
  exact (parseWordsFromCsvText_roundtrip _ _ H1 H2 H3 H4).
Defined.

(* ------------------------------------------------------------------ *)
(** ** Sorting and the cache keys *)

Lemma str_leb_trans x y z :
  String.leb x y = true -> String.leb y z = true -> String.leb x z = true.
Proof.
  unfold String.leb. revert y z.
  induction x as [|a x IH]; intros [|b y] [|c z] H1 H2; simpl in *; auto; try discriminate.
  revert H1 H2. unfold Ascii.compare.
  destruct (N.compare_spec (N_of_ascii a) (N_of_ascii b)) as [C1|C1|C1];
  destruct (N.compare_spec (N_of_ascii b) (N_of_ascii c)) as [C2|C2|C2];
  destruct (N.compare_spec (N_of_ascii a) (N_of_ascii c)) as [C3|C3|C3];
  intros H1 H2; try discriminate; try lia; eauto.
Qed.

Lemma ssorted_unique {A : Type} (R : A -> A -> Prop)
  (antis : forall x y, R x y -> R y x -> x = y) (l1 l2 : list A) :
  StronglySorted R l1 -> StronglySorted R l2 -> Permutation l1 l2 -> l1 = l2.
Proof.
  revert l2. induction l1 as [|x l1 IH]; intros l2 H1 H2 P.
  - symmetry. apply Permutation_nil, P.
  - destruct l2 as [|y l2]; [apply Permutation_sym, Permutation_nil in P; discriminate|].
    apply StronglySorted_inv in H1 as [H1 F1]. apply StronglySorted_inv in H2 as [H2 F2].
    assert (E : x = y).
    { assert (Iy : In y (x :: l1)) by (apply (Permutation_in _ (Permutation_sym P)); left; reflexivity).
      assert (Ix : In x (y :: l2)) by (apply (Permutation_in _ P); left; reflexivity).
      destruct Iy as [->|Iy]; [reflexivity|]. destruct Ix as [<-|Ix]; [reflexivity|].
      rewrite Forall_forall in F1, F2. apply antis; [apply F1, Iy|apply F2, Ix]. }
    subst y. f_equal. apply IH; [exact H1|exact H2|]. apply Permutation_cons_inv with x. exact P.
Qed.

Lemma sort_str_perm_eq l1 l2 : Permutation l1 l2 -> sort_str l1 = sort_str l2.
Proof.
  intro P. destruct (sort_str_spec l1) as [S1 P1]. destruct (sort_str_spec l2) as [S2 P2].
  apply (ssorted_unique (fun x y => String.leb x y = true) (fun x y => String.leb_antisym x y)).
  - apply Sorted_StronglySorted; [intros x y z; apply str_leb_trans|exact S1].
  - apply Sorted_StronglySorted; [intros x y z; apply str_leb_trans|exact S2].
  - eapply perm_trans; [exact P1|]. eapply perm_trans; [exact P|]. apply Permutation_sym, P2.
Qed.

Lemma insert_num_perm x l : Permutation (insert_num x l) (x :: l).
Proof.
  induction l as [|y l IH]; simpl; [reflexivity|].
  destruct (Nat.leb x y); [reflexivity|].
  eapply perm_trans; [apply perm_skip, IH|apply perm_swap].
Qed.

Lemma insert_num_sorted x l : Sorted Nat.le l -> Sorted Nat.le (insert_num x l).
Proof.
  induction l as [|y l IH]; intro H; simpl.
  - repeat constructor.
  - destruct (Nat.leb_spec x y) as [Hxy|Hxy].
    + constructor; [exact H|constructor; exact Hxy].
    + apply Sorted_inv in H as [H Hh]. constructor; [apply IH, H|].
      destruct l as [|z l]; simpl.
      * constructor. lia.
      * destruct (Nat.leb x z); constructor; apply HdRel_inv in Hh; lia.
Qed.

Lemma sort_num_spec l : Sorted Nat.le (sort_num l) /\ Permutation (sort_num l) l.
Proof.
  induction l as [|x l [Hs Hp]]; simpl; [split; constructor|].
  split; [apply insert_num_sorted, Hs|].
  eapply perm_trans; [apply insert_num_perm|apply perm_skip, Hp].
Qed.

Lemma sort_num_perm_eq l1 l2 : Permutation l1 l2 -> sort_num l1 = sort_num l2.
Proof.
  intro P. destruct (sort_num_spec l1) as [S1 P1]. destruct (sort_num_spec l2) as [S2 P2].
  apply (ssorted_unique Nat.le Nat.le_antisymm).
  - apply Sorted_StronglySorted; [exact Nat.le_trans|exact S1].
  - apply Sorted_StronglySorted; [exact Nat.le_trans|exact S2].
  - eapply perm_trans; [exact P1|]. eapply perm_trans; [exact P|]. apply Permutation_sym, P2.
Qed.

Lemma uint_str_inj d1 d2 : uint_str d1 = uint_str d2 -> d1 = d2.
Proof.
  revert d2. induction d1; intros [] H; simpl in H; try discriminate; try reflexivity;
    injection H as H; f_equal; apply IHd1, H.
Qed.

Lemma num_str_inj a b : num_str a = num_str b -> a = b.
Proof. intro H. apply DecimalNat.Unsigned.to_uint_inj, uint_str_inj, H. Qed.

Lemma num_str_nonempty n : num_str n <> EmptyString.
Proof.
  unfold num_str. destruct (Nat.to_uint n) eqn:E; simpl; try discriminate.
  intros _. pose proof (DecimalNat.Unsigned.of_to n) as H. rewrite E in H. simpl in H.
  subst n. vm_compute in E. discriminate E.
Qed.

Lemma num_str_nocomma n : ~ In ","%char (list_ascii_of_string (num_str n)).
Proof.
  unfold num_str. generalize (Nat.to_uint n) as d.
  induction d; simpl; try tauto; intros [E|E]; try discriminate E; tauto.
Qed.

Lemma comma_split x y r1 r2 :
  ~ In ","%char (list_ascii_of_string x) -> ~ In ","%char (list_ascii_of_string y) ->
  (x ++ String "," r1 = y ++ String "," r2)%string -> x = y /\ r1 = r2.
Proof.
  revert y. induction x as [|a x IH]; intros [|b y] Hx Hy E; simpl in *.
  - injection E as E. split; [reflexivity|exact E].
  - injection E as E1 E2. subst b. exfalso. apply Hy. left. reflexivity.
  - injection E as E1 E2. subst a. exfalso. apply Hx. left. reflexivity.
  - injection E as E1 E2. subst b.
    destruct (IH y) as [-> ->];
      [intro I; apply Hx; right; exact I|intro I; apply Hy; right; exact I|exact E2|].
    split; reflexivity.
Qed.

Lemma comma_no x y r :
  ~ In ","%char (list_ascii_of_string x) -> x <> (y ++ String "," r)%string.
Proof.
  intros Hx E. apply Hx. rewrite E, list_ascii_of_string_app. apply in_app_iff.
  right. simpl. left. reflexivity.
Qed.

Lemma concat_comma_cons2 x y l :
  String.concat "," (x :: y :: l) = (x ++ String "," (String.concat "," (y :: l)))%string.
Proof. reflexivity. Qed.

Lemma concat_comma_inj l1 l2 :
  (forall s, In s l1 -> s <> EmptyString /\ ~ In ","%char (list_ascii_of_string s)) ->
  (forall s, In s l2 -> s <> EmptyString /\ ~ In ","%char (list_ascii_of_string s)) ->
  String.concat "," l1 = String.concat "," l2 -> l1 = l2.
Proof.
  revert l2. induction l1 as [|x l1 IH]; intros l2 H1 H2 E.
  - destruct l2 as [|y l2]; [reflexivity|exfalso].
    destruct l2 as [|z l2].
    + destruct (H2 y (or_introl eq_refl)) as [Hy _]. apply Hy. symmetry. exact E.
    + rewrite concat_comma_cons2 in E. destruct y; discriminate E.
  - destruct l2 as [|y l2].
    + exfalso. destruct l1 as [|z l1].
      * destruct (H1 x (or_introl eq_refl)) as [Hx _]. apply Hx. exact E.
      * rewrite concat_comma_cons2 in E. destruct x; discriminate E.
    + destruct (H1 x (or_introl eq_refl)) as [_ Hx].
      destruct (H2 y (or_introl eq_refl)) as [_ Hy].
      destruct l1 as [|x1 l1], l2 as [|y1 l2].
      * simpl in E. subst y. reflexivity.
      * rewrite concat_comma_cons2 in E. exfalso. exact (comma_no _ _ _ Hx E).
      * rewrite concat_comma_cons2 in E. exfalso. exact (comma_no _ _ _ Hy (eq_sym E)).
      * rewrite !concat_comma_cons2 in E. apply comma_split in E as [-> E]; [|exact Hx|exact Hy].
        f_equal. apply IH; [intros s Hs; apply H1; right; exact Hs|intros s Hs; apply H2; right; exact Hs|exact E].
Qed.

Lemma map_num_str_inj l1 l2 : map num_str l1 = map num_str l2 -> l1 = l2.
Proof.
  revert l2. induction l1 as [|a l1 IH]; intros [|b l2] E; simpl in E; try discriminate; [reflexivity|].
  injection E as E1 E2. f_equal; [apply num_str_inj, E1|apply IH, E2].
Qed.

Lemma num_str_map_ok l s :
  In s (map num_str l) -> s <> EmptyString /\ ~ In ","%char (list_ascii_of_string s).
Proof.
  intro Hs. apply in_map_iff in Hs as (n & <- & _).
  split; [apply num_str_nonempty|apply num_str_nocomma].
Qed.

(** dp_solver_2.js [stateKey]: two index lists get the same [dp] key if and
    only if one is a permutation of the other, so the cache entry of a state
    is shared by exactly its reorderings. *)
Theorem stateKey_eq_iff a b : stateKey a = stateKey b <-> Permutation a b.
Proof.
  unfold stateKey. split.
  - intro E.
    assert (E' : map num_str (sort_num a) = map num_str (sort_num b))
      by (apply concat_comma_inj; [apply num_str_map_ok|apply num_str_map_ok|exact E]).
    apply map_num_str_inj in E'.
    destruct (sort_num_spec a) as [_ Pa]. destruct (sort_num_spec b) as [_ Pb].
    eapply perm_trans; [apply Permutation_sym, Pa|]. rewrite E'. exact Pb.
  - intro P. rewrite (sort_num_perm_eq a b P). reflexivity.
Qed.

(* ------------------------------------------------------------------ *)
(** ** unnamed/part_001 [bestExpected] and [evalStartingGuess] *)

Lemma pattern_self g : pattern g g = allCorrect.
Proof.
  destruct (pattern_passes g g) as (Hp & H2 & _). rewrite Hp. unfold allCorrect.
  change "22222"%string with (join_res (fun _ => "2"%char)).
  apply join_res_ext. intros i Hi. apply H2. auto.
Qed.

Lemma patternFor_counts_self g : patternFor_counts g g = allCorrect.
Proof. rewrite patternFor_counts_eq_pattern. apply pattern_self. Qed.

Lemma length_filter_le' {B : Type} (f : B -> bool) l : List.length (filter f l) <= List.length l.
Proof. induction l as [|x l IH]; simpl; [lia|]. destruct (f x); simpl; lia. Qed.

Lemma length_filter_lt {B : Type} (f : B -> bool) l x :
  In x l -> f x = false -> List.length (filter f l) < List.length l.
Proof.
  induction l as [|y l IH]; simpl; [tauto|]. intros [->|Hx] Hf.
  - rewrite Hf. pose proof (length_filter_le' f l). lia.
  - specialize (IH Hx Hf). destruct (f y); simpl; lia.
Qed.

Lemma fold_left_ext_mem {A B : Type} (f1 f2 : A -> B -> A) (l : list B) (a : A) :
  (forall x b, In b l -> f1 x b = f2 x b) -> fold_left f1 l a = fold_left f2 l a.
Proof.
  revert a. induction l as [|b l IH]; intros a H; simpl; [reflexivity|].
  rewrite (H a b (or_introl eq_refl)). apply IH. intros x b' Hb'. apply H. right. exact Hb'.
Qed.

Lemma estLoopG_ext (s1 s2 : list string -> num) N est parts :
  (forall pat b, In (pat, b) parts -> pat <> allCorrect -> s1 b = s2 b) ->
  estLoopG s1 N est parts = estLoopG s2 N est parts.
Proof.
  revert est. induction parts as [|[pat b] parts IH]; intros est H; simpl; [reflexivity|].
  destruct (String.eqb_spec pat allCorrect) as [E|E].
  - apply IH. intros pat' b' Hin Hp. apply (H pat' b'); [right; exact Hin|exact Hp].
  - rewrite (H pat b (or_introl eq_refl) E). apply IH.
    intros pat' b' Hin Hp. apply (H pat' b'); [right; exact Hin|exact Hp].
Qed.

Lemma nonAC_bucket_short (S : list string) g pat b :
  In g S -> In (pat, b) (partitionByPattern_p1 S g) -> pat <> allCorrect ->
  List.length b < List.length S.
Proof.
  intros Hg Hin Hpat. unfold partitionByPattern_p1 in Hin.
  destruct (partitionBy_In _ S pat b Hin) as [-> _].
  apply (length_filter_lt _ _ g Hg). rewrite patternFor_counts_self.
  apply String.eqb_neq. intro E. apply Hpat. symmetry. exact E.
Qed.

Lemma bestExpected_leaf_indep pow1 pow2 depth : forall words,
  List.length words <= S depth -> bestExpected pow1 words depth = bestExpected pow2 words depth.
Proof.
  induction depth as [|d IH]; intros words Hlen.
  - destruct words as [|x [|y w]]; simpl in *; [reflexivity|reflexivity|lia].
  - simpl. destruct (Nat.eqb (List.length words) 1); [reflexivity|].
    apply fold_left_ext_mem. intros best g Hg.
    rewrite (estLoopG_ext (fun bucket => bestExpected pow1 bucket d)
                          (fun bucket => bestExpected pow2 bucket d)); [reflexivity|].
    intros pat b Hin Hpat. apply IH.
    pose proof (nonAC_bucket_short _ g pat b Hg Hin Hpat) as Hb.
    rewrite (Permutation_length (proj2 (sort_str_spec words))) in Hb. lia.
Qed.

(** part_001 [bestExpected(words, depth)]: the value depends only on the
    set of words with their multiplicities, not on their order, which is
    what its memo key of sorted words relies on. *)
Theorem bestExpected_perm pow words1 words2 depth :
  Permutation words1 words2 -> bestExpected pow words1 depth = bestExpected pow words2 depth.
Proof.
  intro P. destruct depth as [|d]; simpl; rewrite (Permutation_length P); [reflexivity|].
  rewrite (sort_str_perm_eq _ _ P). reflexivity.
Qed.

Lemma bestExpected_perm_witness :
  Permutation ["crane"; "slate"; "crate"]%string ["slate"; "crane"; "crate"]%string /\
  bestExpected (fun x _ => x) ["crane"; "slate"; "crate"]%string 2
  = bestExpected (fun x _ => x) ["slate"; "crane"; "crate"]%string 2.
Proof.
  assert (P : Permutation ["crane"; "slate"; "crate"]%string ["slate"; "crane"; "crate"]%string)
    by apply perm_swap.
  split; [exact P|exact (bestExpected_perm (fun x _ => x) _ _ 2 P)].
Defined.

(** part_001 [bestExpected(words, depth)]: when [depth >= |words| - 1] the
    recursion never reaches the leaf heuristic, so the result does not
    depend on [leafExtraGuesses] (here on [Math.pow]): every bucket other
    than the all-correct one loses at least the guessed word. *)
Theorem bestExpected_depth_exact pow1 pow2 words depth :
  List.length words <= S depth ->
  bestExpected pow1 words depth = bestExpected pow2 words depth.
Proof. intro H. apply bestExpected_leaf_indep, H. Qed.

Lemma bestExpected_depth_exact_witness :
  List.length ["crane"; "slate"; "crate"]%string <= 3 /\
  bestExpected (fun x _ => x) ["crane"; "slate"; "crate"]%string 2
  = bestExpected (fun _ _ => 0%Q) ["crane"; "slate"; "crate"]%string 2.
Proof.
  assert (H : List.length ["crane"; "slate"; "crate"]%string <= 3) by (simpl; lia).
  split; [exact H|exact (bestExpected_depth_exact (fun x _ => x) (fun _ _ => 0%Q) _ 2 H)].
Defined.

(** part_001 [evalStartingGuess(words, guess, depth)] for a starting word
    [guess] of [words] and [depth >= |words| - 1] does not depend on the
    leaf heuristic either. *)
Theorem evalStartingGuess_depth_exact pow1 pow2 words guess depth :
  In guess words -> List.length words <= S depth ->
  evalStartingGuess pow1 words guess depth = evalStartingGuess pow2 words guess depth.
Proof.
  intros Hg Hlen. unfold evalStartingGuess. apply estLoopG_ext. intros pat b Hin Hpat.
  apply bestExpected_leaf_indep.
  pose proof (nonAC_bucket_short words guess pat b Hg Hin Hpat). lia.
Qed.

Lemma evalStartingGuess_depth_exact_witness :
  (In "crane"%string ["crane"; "slate"; "crate"]%string /\
   List.length ["crane"; "slate"; "crate"]%string <= 3) /\
  evalStartingGuess (fun x _ => x) ["crane"; "slate"; "crate"]%string "crane" 2
  = evalStartingGuess (fun _ _ => 0%Q) ["crane"; "slate"; "crate"]%string "crane" 2.
Proof.
  assert (H1 : In "crane"%string ["crane"; "slate"; "crate"]%string) by (left; reflexivity).
  assert (H2 : List.length ["crane"; "slate"; "crate"]%string <= 3) by (simpl; lia).
  split; [split; [exact H1|exact H2]|].
  exact (evalStartingGuess_depth_exact (fun x _ => x) (fun _ _ => 0%Q) _ _ 2 H1 H2).
Defined.

(** dp_solver_2.js [solveState]: the [value] field of the whole result is
    the value computed by [solveState_d2]. *)
Lemma solveState_d2_result_value PAT fuel SIndices :
  fst (solveState_d2_result PAT fuel SIndices) = solveState_d2 PAT fuel SIndices.
Proof. destruct SIndices as [|i [|j l]]; destruct fuel; reflexivity. Qed.
